(** * gnmic: event processors, target diff and admin API handlers

  A shallow embedding of the parts of the collector that its
  specification makes checkable statements about:

  - [Formatters]      pkg/formatters (EventMsg, CheckCondition)
  - [EventDrop]       pkg/formatters/event_drop
  - [EventMerge]      pkg/formatters/event_merge
  - [EventOverrideTS] pkg/formatters/event_override_ts
  - [EventTrigger]    pkg/formatters/event_trigger
  - [Loaders]         pkg/loaders (Diff)
  - [Api]             pkg/app/api.go

  Go pointers to events are locations in an explicit store, so that the
  in-place updates of the processors and the nil entries of a batch are
  visible.  A computation that returns [None] is a goroutine that
  panics (nil pointer dereference); a load from a location that is not
  allocated also gives [None], which no Go program can do. *)

From Stdlib Require Import ZArith String Ascii Lia.
From stdpp Require Import base option list gmap strings sorting.

Local Open Scope string_scope.
Local Open Scope list_scope.

(* ===================================================================== *)
(** * Definitions *)
(* ===================================================================== *)

Module Formatters.

(** The dynamic values of [map[string]interface{}].  Everything that is
    neither a string, an integer nor a boolean is [VOther], which only
    records whether encoding/json accepts it (a NaN float does not). *)
Inductive value :=
| VString (s : string)
| VInt (n : Z)
| VBool (b : bool)
| VOther (encodable : bool).

#[global] Instance value_eq_dec : EqDecision value.
Proof. solve_decision. Defined.

(** [type EventMsg struct].  A Go map is [None] when nil. *)
Record EventMsg := mkEvent {
  Name : string;
  Timestamp : Z;
  Tags : option (gmap string string);
  Values : option (gmap string value);
  Deletes : list string
}.

#[global] Instance EventMsg_eq_dec : EqDecision EventMsg.
Proof. solve_decision. Defined.

(** Ranging over a nil map visits nothing. *)
Definition entries {V} (m : option (gmap string V)) : list (string * V) :=
  map_to_list (default ∅ m).

(** [*EventMsg]: [None] is nil, [Some l] the event stored at [l]. *)
Definition load (h : gmap nat EventMsg) (e : option nat) : option EventMsg :=
  l ← e; h !! l.

Definition store (h : gmap nat EventMsg) (l : nat) (ev : EventMsg)
  : gmap nat EventMsg := <[l := ev]> h.

(** What [json.Marshal(e)] followed by [json.Unmarshal] hands to the
    condition: JSON null for a nil pointer, the event's object
    otherwise. *)
Definition marshal_input (h : gmap nat EventMsg) (e : option nat)
  : option (option EventMsg) :=
  match e with
  | None => Some None
  | Some l => Some <$> h !! l
  end.

Definition json_encodable (ev : EventMsg) : bool :=
  forallb (λ kv : string * value,
             match kv.2 with VOther false => false | _ => true end)
          (entries (Values ev)).

(** A compiled [*regexp.Regexp], taken as its source and its
    [MatchString]. *)
Record Regexp := mkRegexp {
  re_source : string;
  MatchString : string → bool
}.

(** A compiled [*gojq.Code], taken as the outcome of the first
    [iter.Next()] of [code.Run(input)]. *)
Inductive jq_value :=
| JNull
| JBool (b : bool)
| JNumber (n : Z)
| JString (s : string).

Inductive iter_next :=
| IterDone
| IterValue (v : jq_value)
| IterError (msg : string).

Record Code := mkCode { Run : option EventMsg → iter_next }.

(** [func CheckCondition(code *gojq.Code, e *EventMsg) (bool, error)];
    the error is [Some] of its message when non-nil. *)
Definition CheckCondition (code : option Code) (input : option EventMsg)
  : bool * option string :=
  match code with
  | None => (true, None)
  | Some c =>
      if negb (from_option json_encodable true input)
      then (false, Some "json: unsupported value")
      else
        match Run c input with
        | IterDone => (false, None)
        | IterError msg => (false, Some msg)
        | IterValue (JBool b) => (b, None)
        | IterValue _ => (false, Some "unexpected condition return type")
        end
  end.

End Formatters.

Module EventDrop.
Import Formatters.

(** [type drop struct], after [Init]. *)
Record t := mk {
  Condition : string;
  tagNames : list Regexp;
  valueNames : list Regexp;
  tags : list Regexp;
  values : list Regexp;
  code : option Code
}.

Definition match_any (res : list Regexp) (s : string) : bool :=
  existsb (λ re, MatchString re s) res.

(** Body of [for k, v := range e.Values]. *)
Definition value_matches (d : t) (kv : string * value) : bool :=
  match_any (valueNames d) kv.1
  || match kv.2 with
     | VString vs => match_any (values d) vs
     | _ => false
     end.

(** Body of [for k, v := range e.Tags]. *)
Definition tag_matches (d : t) (kv : string * string) : bool :=
  match_any (tagNames d) kv.1 || match_any (tags d) kv.2.

(** [func (d *drop) drop(e *formatters.EventMsg) bool] *)
Definition drop (d : t) (h : gmap nat EventMsg) (e : option nat)
  : option bool :=
  if bool_decide (Condition d ≠ EmptyString) then
    input ← marshal_input h e;
    match CheckCondition (code d) input with
    | (_, Some _) => Some true
    | (ok, None) => Some ok
    end
  else
    ev ← load h e;
    Some (existsb (value_matches d) (entries (Values ev))
          || existsb (tag_matches d) (entries (Tags ev))).

(** The first loop of [Apply]: [idx] is the range index, [i] the write
    index into the same backing array, [n] the iterations left. *)
Fixpoint Apply_loop (d : t) (h : gmap nat EventMsg) (n idx i : nat)
         (es : list (option nat)) : option (list (option nat) * nat) :=
  match n with
  | O => Some (es, i)
  | S n' =>
      e ← es !! idx;
      b ← drop d h e;
      if b : bool then Apply_loop d h n' (S idx) i es
      else Apply_loop d h n' (S idx) (S i) (<[i := e]> es)
  end.

(** The second loop: [es[j] = nil] for [j] from [i]. *)
Definition clear_from (i : nat) (es : list (option nat))
  : list (option nat) :=
  take i es ++ replicate (List.length es - i) None.

(** [func (d *drop) Apply(es ...*formatters.EventMsg) []*formatters.EventMsg] *)
Definition Apply (d : t) (h : gmap nat EventMsg) (es : list (option nat))
  : option (list (option nat)) :=
  '(es', i) ← Apply_loop d h (List.length es) 0 0 es;
  Some (take i (clear_from i es')).

End EventDrop.

Module EventMerge.
Import Formatters.

(** [type merge struct] *)
Record t := mk { Always : bool }.

(** [for n, v := range src { dst[n] = v }] *)
Definition copy_into {V} (src dst : gmap string V) : gmap string V :=
  map_fold (λ n v acc, <[n := v]> acc) dst src.

(** The event left in [*e1] by [mergeEvents(e1, e2)]. *)
Definition merged (e1 e2 : EventMsg) : EventMsg :=
  {| Name := Name e1;
     Timestamp := if bool_decide (Timestamp e1 < Timestamp e2)%Z
                  then Timestamp e2 else Timestamp e1;
     Tags := Some (copy_into (default ∅ (Tags e2)) (default ∅ (Tags e1)));
     Values := Some (copy_into (default ∅ (Values e2))
                               (default ∅ (Values e1)));
     Deletes := Deletes e1 ++ Deletes e2 |}.

(** [func mergeEvents(e1, e2 *formatters.EventMsg)]: both pointers are
    dereferenced, [*e1] is updated in place. *)
Definition mergeEvents (h : gmap nat EventMsg) (e1 e2 : option nat)
  : option (gmap nat EventMsg) :=
  l1 ← e1;
  v1 ← h !! l1;
  v2 ← load h e2;
  Some (store h l1 (merged v1 v2)).

(** [for i, e := range es] of the [p.Always] branch; [first] is
    [es[0]]. *)
Fixpoint always_loop (h : gmap nat EventMsg) (first : option nat) (i : nat)
         (es : list (option nat)) : option (gmap nat EventMsg) :=
  match es with
  | [] => Some h
  | None :: es' => always_loop h first (S i) es'
  | Some l :: es' =>
      if bool_decide (0 < i) then
        h' ← mergeEvents h first (Some l);
        always_loop h' first (S i) es'
      else always_loop h first (S i) es'
  end.

(** The loop of the by-timestamp branch, over [result] and
    [timestamps]. *)
Fixpoint by_ts_loop (h : gmap nat EventMsg) (result : list (option nat))
         (timestamps : gmap Z nat) (es : list (option nat))
  : option (gmap nat EventMsg * list (option nat)) :=
  match es with
  | [] => Some (h, result)
  | None :: es' => by_ts_loop h result timestamps es'
  | Some l :: es' =>
      ev ← h !! l;
      match timestamps !! Timestamp ev with
      | Some idx =>
          r ← result !! idx;
          h' ← mergeEvents h r (Some l);
          by_ts_loop h' result timestamps es'
      | None =>
          let result' := result ++ [Some l] in
          by_ts_loop h result'
                     (<[Timestamp ev := List.length result' - 1]> timestamps) es'
      end
  end.

(** [func (p *merge) Apply(es ...*formatters.EventMsg) []*formatters.EventMsg]:
    the store after the call and the returned slice. *)
Definition Apply (p : t) (h : gmap nat EventMsg) (es : list (option nat))
  : option (gmap nat EventMsg * list (option nat)) :=
  match es with
  | [] => Some (h, [])
  | first :: _ =>
      if Always p then
        h' ← always_loop h first 0 es;
        Some (h', [first])
      else by_ts_loop h [] ∅ es
  end.

End EventMerge.

Module EventOverrideTS.
Import Formatters.

(** [type overrideTS struct], after [Init]. *)
Record t := mk { Precision : string }.

Definition set_Timestamp (ev : EventMsg) (ts : Z) : EventMsg :=
  {| Name := Name ev; Timestamp := ts; Tags := Tags ev;
     Values := Values ev; Deletes := Deletes ev |}.

(** The [switch o.Precision]; [now] is [now.UnixNano()]. *)
Definition stamp (o : t) (now : Z) (ev : EventMsg) : EventMsg :=
  if String.eqb (Precision o) "s" then set_Timestamp ev (now / 1000000000)%Z
  else if String.eqb (Precision o) "ms"
       then set_Timestamp ev (now ÷ 1000000)%Z
  else if String.eqb (Precision o) "us" then set_Timestamp ev (now ÷ 1000)%Z
  else if String.eqb (Precision o) "ns" then set_Timestamp ev now
  else ev.

(** [func (o *overrideTS) Apply]; [clock k] is the [k]-th reading of
    [time.Now()]. *)
Fixpoint Apply_loop (o : t) (clock : nat → Z) (k : nat)
         (h : gmap nat EventMsg) (es : list (option nat))
  : option (gmap nat EventMsg) :=
  match es with
  | [] => Some h
  | None :: es' => Apply_loop o clock k h es'
  | Some l :: es' =>
      ev ← h !! l;
      Apply_loop o clock (S k) (store h l (stamp o (clock k) ev)) es'
  end.

Definition Apply (o : t) (clock : nat → Z) (h : gmap nat EventMsg)
           (es : list (option nat))
  : option (gmap nat EventMsg * list (option nat)) :=
  h' ← Apply_loop o clock 0 h es; Some (h', es).

End EventOverrideTS.

Module EventTrigger.
Import Formatters.

(** [type trigger struct].  A [time.Time] is its distance in
    nanoseconds from the zero [time.Time], a [time.Duration] its
    nanoseconds. *)
Record t := mk {
  Condition : string;
  MinOccurrences : Z;
  MaxOccurrences : Z;
  Window : Z;
  Async : bool;
  occurrencesTimes : list Z;
  lastTrigger : Z;
  code : option Code
}.

Definition defaultCondition : string := "any([true])".
Definition Minute : Z := 60000000000.

(** [func (p *trigger) setDefaults() error]; [None] is the error. *)
Definition setDefaults (p : t) : option t :=
  let cond := if String.eqb (Condition p) EmptyString then defaultCondition
              else Condition p in
  let mn := if bool_decide (MinOccurrences p ≤ 0)%Z then 1%Z
            else MinOccurrences p in
  let mx := if bool_decide (MaxOccurrences p ≤ 0)%Z then 1%Z
            else MaxOccurrences p in
  if bool_decide (mx < mn)%Z then None
  else
    let w := if bool_decide (Window p ≤ 0)%Z then Minute else Window p in
    Some (mk cond mn mx w (Async p) (occurrencesTimes p) (lastTrigger p)
             (code p)).

Definition set_times (p : t) (times : list Z) : t :=
  mk (Condition p) (MinOccurrences p) (MaxOccurrences p) (Window p)
     (Async p) times (lastTrigger p) (code p).

Definition set_lastTrigger (p : t) (now : Z) : t :=
  mk (Condition p) (MinOccurrences p) (MaxOccurrences p) (Window p)
     (Async p) (occurrencesTimes p) now (code p).

(** [t.Add(p.Window).After(now)] *)
Definition in_window (w now t : Z) : Prop := (now < t + w)%Z.

#[global] Instance in_window_dec w now t : Decision (in_window w now t).
Proof. unfold in_window. apply _. Defined.

(** [func (p *trigger) evalOccurrencesWithinWindow(now time.Time) bool] *)
Definition evalOccurrencesWithinWindow (p : t) (now : Z) : t * bool :=
  let occurrencesInWindow :=
    filter (in_window (Window p) now) (occurrencesTimes p) in
  let times := occurrencesInWindow ++ [now] in
  let numOccurrences := Z.of_nat (List.length times) in
  let times' :=
    if bool_decide (MaxOccurrences p < numOccurrences)%Z
    then drop (Z.to_nat (numOccurrences - MaxOccurrences p - 1)) times
    else times in
  let numOccurrences' := Z.of_nat (List.length times') in
  let p' := set_times p times' in
  if bool_decide (MinOccurrences p ≤ numOccurrences'
                  ∧ numOccurrences' ≤ MaxOccurrences p)%Z
  then (set_lastTrigger p' now, true)
  else if bool_decide (MinOccurrences p < numOccurrences'
                       ∧ lastTrigger p + Window p < now)%Z
  then (set_lastTrigger p' now, true)
  else (p', false).

(** [func (p *trigger) Apply]: the trigger after the call and the
    events handed to [triggerActions], oldest first. *)
Fixpoint Apply_loop (p : t) (now : Z) (h : gmap nat EventMsg)
         (fired : list nat) (es : list (option nat))
  : option (t * list nat) :=
  match es with
  | [] => Some (p, fired)
  | None :: es' => Apply_loop p now h fired es'
  | Some l :: es' =>
      ev ← h !! l;
      match CheckCondition (code p) (Some ev) with
      | (_, Some _) => Apply_loop p now h fired es'
      | (false, None) => Apply_loop p now h fired es'
      | (true, None) =>
          let '(p', fire) := evalOccurrencesWithinWindow p now in
          if fire : bool then Apply_loop p' now h (fired ++ [l]) es'
          else Apply_loop p' now h fired es'
      end
  end.

Definition Apply (p : t) (now : Z) (h : gmap nat EventMsg)
           (es : list (option nat))
  : option (t * list nat * list (option nat)) :=
  r ← Apply_loop p now h [] es; Some (r, es).

(** The trigger fed the times of its condition's occurrences, one call
    of [evalOccurrencesWithinWindow] each: the trigger reached and the
    verdicts. *)
Fixpoint run (p : t) (nows : list Z) : t * list bool :=
  match nows with
  | [] => (p, [])
  | now :: nows' =>
      let '(p', b) := evalOccurrencesWithinWindow p now in
      let '(p'', bs) := run p' nows' in
      (p'', b :: bs)
  end.

(** The number of occurrences in the window that ends at [now]: those
    of [history] that are not yet [w] old, and the one at [now]. *)
Definition window_count (w : Z) (history : list Z) (now : Z) : Z :=
  Z.of_nat (List.length (filter (in_window w now) history)) + 1.

End EventTrigger.

Module Types.

(** [types.TargetConfig], the fields the loaders' tests and the API
    handlers use; a [*string] is [None] when nil. *)
Record TargetConfig := mk {
  Name : string;
  Address : string;
  Username : option string;
  Password : option string;
  Subscriptions : list string;
  Tags : list string
}.

#[global] Instance TargetConfig_eq_dec : EqDecision TargetConfig.
Proof. solve_decision. Defined.

Definition set_Password (tc : TargetConfig) (pw : option string)
  : TargetConfig :=
  mk (Name tc) (Address tc) (Username tc) pw (Subscriptions tc) (Tags tc).

(** Modelled from the spec: [TargetConfig.DeepCopy] is not among the
    sources; it is taken to return a pointer to a newly allocated
    object with the contents of its receiver.  The store maps the
    addresses of the target configurations to their contents. *)
Definition DeepCopy (st : gmap nat TargetConfig) (l : nat)
  : option (nat * gmap nat TargetConfig) :=
  tc ← st !! l;
  let l' := fresh (dom st) in
  Some (l', <[l' := tc]> st).

End Types.

Module Loaders.
Import Types.

(** [type TargetOperation struct]: the spec's
    [{Add: map<name, TargetConfig>, Del: set<name>}]. *)
Record TargetOperation := mkOp {
  Add : gmap string TargetConfig;
  Del : gset string
}.

(** Modelled from the spec: [func Diff(m1, m2 map[string]*types.TargetConfig)
    *TargetOperation] is not among the sources, only its test is.
    Following section 4.2: given previous map A and new map B,
    Add = { k in B | k not in A or A[k] <> B[k] } and
    Del = { k in A | k not in B or A[k] <> B[k] }, with deep equality.
    A nil map is [None]. *)
Definition Diff (m1 m2 : option (gmap string TargetConfig))
  : TargetOperation :=
  let A := default ∅ m1 in
  let B := default ∅ m2 in
  {| Add := filter (λ kv, kv.1 ∉ dom A ∨ A !! kv.1 ≠ Some kv.2) B;
     Del := dom (filter (λ kv, kv.1 ∉ dom B ∨ B !! kv.1 ≠ Some kv.2) A) |}.

End Loaders.

Module Api.

(** ** Strings *)

Definition HasPrefix (s prefix : string) : bool := String.prefix prefix s.

Definition TrimPrefix (s prefix : string) : string :=
  if HasPrefix s prefix
  then String.substring (String.length prefix)
                        (String.length s - String.length prefix) s
  else s.

Definition HasSuffix (s suffix : string) : bool :=
  (String.length suffix <=? String.length s)%nat
  && String.eqb (String.substring (String.length s - String.length suffix)
                                  (String.length suffix) s) suffix.

Definition TrimSuffix (s suffix : string) : string :=
  if HasSuffix s suffix
  then String.substring 0 (String.length s - String.length suffix) s
  else s.

(** [fmt.Sprintf("%q", s)] for a string without characters to escape. *)
Definition quote (s : string) : string :=
  String "034"%char (s +:+ String "034"%char EmptyString).

(** ** Responses *)

Module clusterMember.
Record t := mk {
  Name : string;
  APIEndpoint : string;
  IsLeader : bool;
  NumberOfLockedTargets : nat;
  LockedTargets : list string
}.
(** The zero value, as [make([]clusterMember, 1)] holds it. *)
Definition zero : t := mk EmptyString EmptyString false 0 [].
End clusterMember.

Module clusteringResponse.
Record t := mk {
  ClusterName : string;
  NumberOfLockedTargets : nat;
  Leader : string;
  Members : list clusterMember.t
}.
End clusteringResponse.

(** What a handler encodes into the response: the value handed to
    encoding/json. *)
Inductive body :=
| APIErrors (Errors : list string)
| TargetsBody (targets : gmap string Types.TargetConfig)
| TargetBody (tc : Types.TargetConfig)
| ClusterBody (resp : clusteringResponse.t)
| MembersBody (members : list clusterMember.t).

(** [http.ResponseWriter]: the status set by [WriteHeader], if any, and
    the bodies written. *)
Record ResponseWriter := mkW {
  header : option nat;
  written : list body
}.

Definition w0 : ResponseWriter := mkW None [].

Definition StatusOK : nat := 200.
Definition StatusBadRequest : nat := 400.
Definition StatusNotFound : nat := 404.
Definition StatusInternalServerError : nat := 500.

(** The first [WriteHeader] or [Write] fixes the status. *)
Definition WriteHeader (code : nat) (w : ResponseWriter) : ResponseWriter :=
  match header w with
  | None => mkW (Some code) (written w)
  | Some _ => w
  end.

Definition Write (b : body) (w : ResponseWriter) : ResponseWriter :=
  mkW (Some (default StatusOK (header w))) (written w ++ [b]).

(** The status the client receives. *)
Definition status (w : ResponseWriter) : nat := default StatusOK (header w).

(** [w.WriteHeader(code); json.NewEncoder(w).Encode(APIErrors{Errors: []string{msg}})] *)
Definition fail (code : nat) (msg : string) (w : ResponseWriter)
  : ResponseWriter :=
  Write (APIErrors [msg]) (WriteHeader code w).

(** ** The application and its collaborators *)

Record Service := mkService {
  ID : string;
  Address : string;
  Tags : list string
}.

(** [a.Config.ClusterName], [a.Config.Clustering] (nil when the
    instance is not clustered) with its own [ClusterName],
    [a.Config.Targets] and [a.isLeader]. *)
Record App := mkApp {
  ClusterName : string;
  Clustering : option string;
  Targets : gmap string nat;
  isLeader : bool
}.

(** The coordination service as the handlers see it: every call either
    fails with an error message ([inl]) or answers.
    [getInstanceToTargetsMapping] is a method of [App] that is not
    among the sources, and [Base] is path/filepath's. *)
Record Env := mkEnv {
  List : string → string + gmap string string;
  GetServices : string → list string → string + list Service;
  Unlock : string → option string;
  getInstanceToTargetsMapping : string + gmap string (list string);
  Base : string → string
}.

(** What a handler does besides answering. *)
Inductive effect :=
| CallList (prefix : string)
| CallGetServices (name : string) (tags : list string)
| CallUnlock (key : string)
| GoDrain (id serviceID : string) (targets : list string)
| GoRebalance.

(** ** Target configuration *)

Definition redacted : option string := Some "****".

(** The loop of [handleConfigTargetsGet] over [a.Config.Targets]: each
    configuration is deep-copied, the copy's password overwritten and
    the copy put in [targets]. *)
Definition copy_redacted (n : string) (l : nat)
           (acc : option (gmap string nat * gmap nat Types.TargetConfig))
  : option (gmap string nat * gmap nat Types.TargetConfig) :=
  '(targets, st) ← acc;
  '(ntc, st') ← Types.DeepCopy st l;
  tc ← st' !! ntc;
  Some (<[n := ntc]> targets, <[ntc := Types.set_Password tc redacted]> st').

(** What [Encode] reads through the pointers of [targets]. *)
Definition deref_targets (st : gmap nat Types.TargetConfig)
           (targets : gmap string nat) : gmap string Types.TargetConfig :=
  omap (λ l, st !! l) targets.

Definition not_found (id : string) : string :=
  "target " +:+ quote id +:+ " not found".

(** [func (a *App) handleConfigTargetsGet]: the response and the store
    of target configurations after the call. *)
Definition handleConfigTargetsGet (a : App)
           (st : gmap nat Types.TargetConfig) (id : string)
  : option (ResponseWriter * gmap nat Types.TargetConfig) :=
  if String.eqb id EmptyString then
    '(targets, st') ← map_fold copy_redacted (Some (∅, st)) (Targets a);
    Some (Write (TargetsBody (deref_targets st' targets)) w0, st')
  else
    match Targets a !! id with
    | Some t =>
        '(tc, st') ← Types.DeepCopy st t;
        v ← st' !! tc;
        let st'' := <[tc := Types.set_Password v redacted]> st' in
        v' ← st'' !! tc;
        Some (Write (TargetBody v') w0, st'')
    | None => Some (fail StatusNotFound (not_found id) w0, st)
    end.

(** ** Cluster views *)

(** [func (a *App) getLeaderName(ctx) (string, error)] *)
Definition getLeaderName (a : App) (env : Env) : string * option string :=
  let leaderKey := "gnmic/" +:+ ClusterName a +:+ "/leader" in
  match List env leaderKey with
  | inl _ => (EmptyString, None)
  | inr leader => (default EmptyString (leader !! leaderKey), None)
  end.

Definition api_service (a : App) : string := ClusterName a +:+ "-gnmic-api".

(** The inner loop over [s.Tags]. *)
Definition scheme_of (tags : list string) : string :=
  foldl (λ scheme t,
           if HasPrefix t "protocol="
           then TrimPrefix t "protocol=" +:+ "://" else scheme)
        "http://" tags.

(** The body of the loop over [services]. *)
Definition member (leader : string) (instanceNodes : gmap string (list string))
           (s : Service) : clusterMember.t :=
  let name := TrimSuffix (ID s) "-api" in
  let locked := default [] (instanceNodes !! name) in
  clusterMember.mk name (scheme_of (Tags s) +:+ Address s)
                   (bool_decide (leader = name)) (List.length locked) locked.

(** The three queries every cluster view starts with; [inl] is the
    response already written on failure. *)
Definition cluster_queries (a : App) (env : Env)
  : ResponseWriter
    + (string * list Service * gmap string (list string)) :=
  match getLeaderName a env with
  | (_, Some err) => inl (fail StatusInternalServerError err w0)
  | (leader, None) =>
      match GetServices env (api_service a) [] with
      | inl err => inl (fail StatusInternalServerError err w0)
      | inr services =>
          match getInstanceToTargetsMapping env with
          | inl err => inl (fail StatusInternalServerError err w0)
          | inr instanceNodes => inr (leader, services, instanceNodes)
          end
      end
  end.

(** [func (a *App) handleClusteringGet] *)
Definition handleClusteringGet (a : App) (env : Env) : ResponseWriter :=
  match Clustering a with
  | None => w0
  | Some _ =>
      match cluster_queries a env with
      | inl w => w
      | inr (leader, services, instanceNodes) =>
          let locked :=
            map_fold (λ _ v n, n + List.length v) 0 instanceNodes in
          Write (ClusterBody
                   (clusteringResponse.mk
                      (ClusterName a) locked leader
                      (member leader instanceNodes <$> services))) w0
      end
  end.

(** [func (a *App) handleClusteringMembersGet] *)
Definition handleClusteringMembersGet (a : App) (env : Env)
  : ResponseWriter :=
  match Clustering a with
  | None => w0
  | Some _ =>
      match cluster_queries a env with
      | inl w => w
      | inr (leader, services, instanceNodes) =>
          Write (MembersBody (member leader instanceNodes <$> services)) w0
      end
  end.

(** [func (a *App) handleClusteringLeaderGet] *)
Definition handleClusteringLeaderGet (a : App) (env : Env)
  : ResponseWriter :=
  match Clustering a with
  | None => w0
  | Some _ =>
      match cluster_queries a env with
      | inl w => w
      | inr (leader, services, instanceNodes) =>
          let is_leader s := bool_decide (TrimSuffix (ID s) "-api" = leader) in
          let m :=
            match List.find is_leader services with
            | Some s =>
                let name := TrimSuffix (ID s) "-api" in
                let locked := default [] (instanceNodes !! name) in
                clusterMember.mk name (scheme_of (Tags s) +:+ Address s)
                                 true (List.length locked) locked
            | None => clusterMember.zero
            end in
          Write (MembersBody [m]) w0
      end
  end.

(** ** Leader-only operations *)

(** Modelled from the spec: [App.leaderKey] is not among the
    sources; the coordination key layout gives [gnmic/<cluster>/leader]. *)
Definition leaderKey (a : App) : string :=
  "gnmic/" +:+ ClusterName a +:+ "/leader".

(** [func (a *App) handleClusteringLeaderDelete] *)
Definition handleClusteringLeaderDelete (a : App) (env : Env)
  : ResponseWriter * list effect :=
  match Clustering a with
  | None => (w0, [])
  | Some _ =>
      if negb (isLeader a) then (fail StatusBadRequest "not leader" w0, [])
      else
        match Unlock env (leaderKey a) with
        | Some err => (fail StatusInternalServerError err w0,
                       [CallUnlock (leaderKey a)])
        | None => (w0, [CallUnlock (leaderKey a)])
        end
  end.

Definition string_le (a b : string) : Prop := String.leb a b = true.

#[global] Instance string_le_dec a b : Decision (string_le a b).
Proof. unfold string_le. apply _. Defined.

(** [func (a *App) getInstanceTargets(ctx, instance) ([]string, error)] *)
Definition getInstanceTargets (a : App) (env : Env) (instance : string)
  : (string + list string) * list effect :=
  let prefix := "gnmic/" +:+ default EmptyString (Clustering a) +:+ "/targets" in
  match List env prefix with
  | inl err => (inl err, [CallList prefix])
  | inr locks =>
      let targets :=
        (λ kv, Base env kv.1)
          <$> filter (λ kv : string * string, kv.2 = instance)
                     (map_to_list locks) in
      (inr (merge_sort string_le targets), [CallList prefix])
  end.

(** [func (a *App) handleClusteringDrainInstance]; the goroutine it
    starts is the effect [GoDrain]. *)
Definition handleClusteringDrainInstance (a : App) (env : Env) (id : string)
  : ResponseWriter * list effect :=
  match Clustering a with
  | None => (w0, [])
  | Some _ =>
      if negb (isLeader a) then (fail StatusBadRequest "not leader" w0, [])
      else if String.eqb id EmptyString then (WriteHeader StatusBadRequest w0, [])
      else
        let tags := ["instance-name=" +:+ id] in
        let call := CallGetServices (api_service a) tags in
        match GetServices env (api_service a) tags with
        | inl err => (fail StatusInternalServerError err w0, [call])
        | inr [] =>
            (fail StatusBadRequest ("unknown instance: " +:+ id) w0, [call])
        | inr (s0 :: _) =>
            match getInstanceTargets a env id with
            | (inl err, effs) =>
                (fail StatusInternalServerError err w0, call :: effs)
            | (inr targets, effs) =>
                (w0, call :: effs ++ [GoDrain id (ID s0) targets])
            end
        end
  end.

(** [func (a *App) handleClusterRebalance] *)
Definition handleClusterRebalance (a : App) (env : Env)
  : ResponseWriter * list effect :=
  match Clustering a with
  | None => (w0, [])
  | Some _ =>
      if negb (isLeader a) then (fail StatusBadRequest "not leader" w0, [])
      else (w0, [GoRebalance])
  end.

End Api.

Module DropSpec.
Import Formatters.

(** What [EventDrop.Apply] is to compute, without the backing array:
    every entry is tested in turn, and the entries that are not to be
    dropped are kept in order. *)
Fixpoint kept (d : EventDrop.t) (h : gmap nat EventMsg)
         (es : list (option nat)) : option (list (option nat)) :=
  match es with
  | [] => Some []
  | e :: es' =>
      b ← EventDrop.drop d h e;
      r ← kept d h es';
      Some (if b : bool then r else e :: r)
  end.

(** The criteria of the drop processor.  An expression matches the
event when a value name, a string value, a tag name or a tag value
matches one of the expressions configured for it. *)
Definition expression_matches (d : EventDrop.t) (ev : EventMsg) : Prop :=
  (∃ k v, default ∅ (Values ev) !! k = Some v
          ∧ (EventDrop.match_any (EventDrop.valueNames d) k = true
             ∨ ∃ vs, v = VString vs
                     ∧ EventDrop.match_any (EventDrop.values d) vs = true))
  ∨ (∃ k v, default ∅ (Tags ev) !! k = Some v
            ∧ (EventDrop.match_any (EventDrop.tagNames d) k = true
               ∨ EventDrop.match_any (EventDrop.tags d) v = true)).

(** The configured condition evaluates to true on the event. *)
Definition condition_holds (d : EventDrop.t) (ev : EventMsg) : Prop :=
  EventDrop.Condition d ≠ EmptyString
  ∧ CheckCondition (EventDrop.code d) (Some ev) = (true, None).

(** The evaluation of the configured condition on the event fails. *)
Definition condition_fails (d : EventDrop.t) (ev : EventMsg) : Prop :=
  EventDrop.Condition d ≠ EmptyString
  ∧ ∃ b msg, CheckCondition (EventDrop.code d) (Some ev) = (b, Some msg).

End DropSpec.

Module MergeSpec.
Import Formatters.

(** The folding rule of the merge processor in the spec's words: union
    of tags and of values with the second event winning on a key
    collision, the delete paths of the first followed by those of the
    second, the maximum timestamp. *)
Definition fold_rule (e1 e2 : EventMsg) : EventMsg :=
  {| Name := Name e1;
     Timestamp := Z.max (Timestamp e1) (Timestamp e2);
     Tags := Some (default ∅ (Tags e2) ∪ default ∅ (Tags e1));
     Values := Some (default ∅ (Values e2) ∪ default ∅ (Values e1));
     Deletes := Deletes e1 ++ Deletes e2 |}.

(** A group folded into its first member. *)
Definition fold_group (g : list EventMsg) : option EventMsg :=
  match g with
  | [] => None
  | first :: later => Some (foldl fold_rule first later)
  end.

Definition has_ts (t : Z) (ev : EventMsg) : Prop := Timestamp ev = t.

#[global] Instance has_ts_dec t ev : Decision (has_ts t ev).
Proof. unfold has_ts. apply _. Defined.

(** The events of a batch with timestamp [t], in batch order. *)
Definition group (t : Z) (evs : list EventMsg) : list EventMsg :=
  filter (has_ts t) evs.

(** The distinct timestamps, each at its first occurrence. *)
Fixpoint first_seen (ts : list Z) : list Z :=
  match ts with
  | [] => []
  | t :: ts' => t :: filter (λ t', t' ≠ t) (first_seen ts')
  end.

(** By-timestamp merging of the events [evs] of a batch: one folded
    group per distinct timestamp, in the order of first occurrence. *)
Definition by_timestamp (evs : list EventMsg) : list (option EventMsg) :=
  (λ t, fold_group (group t evs)) <$> first_seen (Timestamp <$> evs).

(** The state of the by-timestamp loop of [EventMerge.Apply] after the
    entries [pre], which held the events [evs] in the initial store
    [h0]. *)
Record loop_inv (h0 : gmap nat EventMsg) (pre : list nat)
       (evs : list EventMsg) (h : gmap nat EventMsg) (rl : list nat)
       (tsm : gmap Z nat) : Prop := mk_inv {
  inv_vals : Forall2 (λ l ev, h0 !! l = Some ev) pre evs;
  inv_sub : rl ⊆ pre;
  inv_nodup : NoDup rl;
  inv_groups : Forall2 (λ l t, h !! l = fold_group (group t evs)) rl
                       (first_seen (Timestamp <$> evs));
  inv_index : ∀ t idx, tsm !! t = Some idx
                       ↔ first_seen (Timestamp <$> evs) !! idx = Some t;
  inv_frame : ∀ l, l ∉ rl → h !! l = h0 !! l
}.

End MergeSpec.

Module TriggerSpec.
Import EventTrigger.

(** What [setDefaults] establishes. *)
Definition configured (p : t) : Prop :=
  (1 ≤ MinOccurrences p ∧ MinOccurrences p ≤ MaxOccurrences p
   ∧ 0 < Window p)%Z.

Definition same_config (p p' : t) : Prop :=
  MinOccurrences p' = MinOccurrences p
  ∧ MaxOccurrences p' = MaxOccurrences p
  ∧ Window p' = Window p.

(** The occurrences the trigger remembers, against all the occurrences
    [hist] so far, the last of them at [lb]: the remembered ones are
    the most recent, and either the list is full, at [MaxOccurrences + 1],
    or every forgotten occurrence has left the window. *)
Record window_inv (p : t) (hist : list Z) (lb : Z) : Prop := mk_inv {
  wi_split : ∃ older,
    hist = older ++ occurrencesTimes p
    ∧ (Z.of_nat (List.length (occurrencesTimes p)) = MaxOccurrences p + 1
       ∨ Forall (λ t, t + Window p ≤ lb) older)%Z;
  wi_sorted : StronglySorted Z.le hist;
  wi_bound : Forall (λ t, t ≤ lb)%Z hist
}.

(** The claim's firing rule: the count in the window is in the closed
    interval from [MinOccurrences] to [MaxOccurrences]. *)
Definition in_range (p : t) (c : Z) : Prop :=
  (MinOccurrences p ≤ c ∧ c ≤ MaxOccurrences p)%Z.

(** The code's second way to fire: the count is above
    [MaxOccurrences] and the last firing, at [last], is more than a
    window old. *)
Definition overdue (p : t) (last c now : Z) : Prop :=
  (MaxOccurrences p < c ∧ last + Window p < now)%Z.

(** The times at which the trigger fired, given its verdicts. *)
Fixpoint fired (nows : list Z) (verdicts : list bool) : list Z :=
  match nows, verdicts with
  | now :: nows', b :: verdicts' =>
      if b : bool then now :: fired nows' verdicts' else fired nows' verdicts'
  | _, _ => []
  end.

(** The time of the last firing over [hist]; [lastTrigger p], the zero
    time of a new trigger, when it did not fire. *)
Definition last_fired (p : t) (hist : list Z) : Z :=
  default (lastTrigger p) (last (fired hist (run p hist).2)).

End TriggerSpec.

Module Examples.
Import Formatters.
Local Open Scope Z_scope.

(** The expression [^interface$], which matches the string
    [interface] and no other. *)
Definition re_interface : Regexp :=
  mkRegexp "^interface$" (String.eqb "interface").

(** [{tags:{interface:"ethernet1/1"}, values:{counter:5}}] *)
Definition ev_interface : EventMsg :=
  mkEvent EmptyString 0 (Some {["interface" := "ethernet1/1"]})
          (Some {["counter" := VInt 5]}) [].

(** A condition that is false on every input and one that yields a
    number. *)
Definition jq_false : Code := mkCode (λ _, IterValue (JBool false)).
Definition jq_number : Code := mkCode (λ _, IterValue (JNumber 1)).

(** [tag-names: ["^interface$"]], alone and next to a condition. *)
Definition drop_tag_names : EventDrop.t :=
  EventDrop.mk EmptyString [re_interface] [] [] [] (Some (mkCode (λ e, IterValue JNull))).

Definition drop_tag_names_cond : EventDrop.t :=
  EventDrop.mk "false" [re_interface] [] [] [] (Some jq_false).

Definition drop_failing_cond : EventDrop.t :=
  EventDrop.mk ".values | length" [] [] [] [] (Some jq_number).

Definition store_interface : gmap nat EventMsg := {[ 0%nat := ev_interface ]}.

(** [[{ts:1,tags:{a:1}},{ts:1,values:{v:2}},{ts:2,tags:{b:3}}]] *)
Definition ev_a : EventMsg := mkEvent EmptyString 1 (Some {["a" := "1"]}) None [].
Definition ev_v : EventMsg := mkEvent EmptyString 1 None (Some {["v" := VInt 2]}) [].
Definition ev_b : EventMsg := mkEvent EmptyString 2 (Some {["b" := "3"]}) None [].

Definition store_batch : gmap nat EventMsg :=
  {[ 0%nat := ev_a; 1%nat := ev_v; 2%nat := ev_b ]}.

Definition batch : list (option nat) := [Some 0; Some 1; Some 2]%nat.

(** The target maps of the loaders' tests. *)
Definition named (n : string) : Types.TargetConfig :=
  Types.mk n EmptyString None None [] [].
Definition addressed (a : string) : Types.TargetConfig :=
  Types.mk EmptyString a None None [] [].
Definition tagged (n : string) (tags : list string) : Types.TargetConfig :=
  Types.mk n EmptyString None None [] tags.

(** A clustered follower and a clustered instance of the cluster
    [lab], which registered the instances [a] and [b]. *)
Definition follower : Api.App := Api.mkApp "lab" (Some "lab") ∅ false.

Definition services_ab : list Api.Service :=
  [Api.mkService "a-api" "a:7890" ["instance-name=a"; "protocol=https"];
   Api.mkService "b-api" "b:7890" ["instance-name=b"]].

Definition locked_ab : gmap string (list string) :=
  {["a" := ["t1"; "t2"]; "b" := ["t3"]]}.

(** A coordination service on which everything answers, one on which
    the service listing fails and one on which the leader lookup
    fails. *)
Definition env_up : Api.Env :=
  Api.mkEnv (λ key, inr {[key := "a"]}) (λ _ _, inr services_ab)
            (λ _, None) (inr locked_ab) (λ s, s).

Definition env_services_down : Api.Env :=
  Api.mkEnv (λ key, inr {[key := "a"]}) (λ _ _, inl "connection refused")
            (λ _, None) (inr locked_ab) (λ s, s).

Definition env_leader_down : Api.Env :=
  Api.mkEnv (λ _, inl "connection refused") (λ _ _, inr services_ab)
            (λ _, None) (inr locked_ab) (λ s, s).

(** One configured target, stored at address 0. *)
Definition router : Types.TargetConfig :=
  Types.mk "router1" "10.0.0.1:57400" (Some "admin") (Some "NokiaSrl1!")
           ["sub1"] [].

Definition app_router : Api.App :=
  Api.mkApp "lab" None {["router1" := 0%nat]} false.

Definition store_router : gmap nat Types.TargetConfig := {[ 0%nat := router ]}.

(** A trigger with [min-occurrences: 2], [max-occurrences: 2] and a
    window of 10, before its first event. *)
Definition trigger_2_2 : EventTrigger.t :=
  EventTrigger.mk "any([true])" 2 2 10 false [] 0 None.

End Examples.

(* ===================================================================== *)
(** * Further definitions: the rest of the cited files *)
(* ===================================================================== *)

Module DropArray.
Import Formatters.

(** [drop.Apply] as its caller sees it: the backing array of [es] after
    both loops, and the slice [es[:i]] that is returned. *)
Definition Apply_array (d : EventDrop.t) (h : gmap nat EventMsg)
           (es : list (option nat))
  : option (list (option nat) * list (option nat)) :=
  '(es', i) ← EventDrop.Apply_loop d h (List.length es) 0 0 es;
  let arr := EventDrop.clear_from i es' in
  Some (arr, take i arr).

End DropArray.

Module Pipeline.
Import Formatters.

(** [formatters.EventProcessor], by its [Apply]: the store after the
    call and the batch returned. *)
Record EventProcessor := mkProc {
  Apply : gmap nat EventMsg → list (option nat)
          → option (gmap nat EventMsg * list (option nat))
}.

Definition drop_processor (d : EventDrop.t) : EventProcessor :=
  mkProc (λ h es, r ← EventDrop.Apply d h es; Some (h, r)).

Definition merge_processor (p : EventMerge.t) : EventProcessor :=
  mkProc (EventMerge.Apply p).

(** [for _, proc := range evps { evs = proc.Apply(evs...) }], the loop
    of [influxDBOutput.WriteEvent] and of the nats input's worker. *)
Fixpoint apply_all (evps : list EventProcessor) (h : gmap nat EventMsg)
         (evs : list (option nat))
  : option (gmap nat EventMsg * list (option nat)) :=
  match evps with
  | [] => Some (h, evs)
  | proc :: evps' =>
      '(h', evs') ← Apply proc h evs;
      apply_all evps' h' evs'
  end.

(** One drop processor with the expressions of two. *)
Definition both (d1 d2 : EventDrop.t) : EventDrop.t :=
  EventDrop.mk EmptyString
               (EventDrop.tagNames d1 ++ EventDrop.tagNames d2)
               (EventDrop.valueNames d1 ++ EventDrop.valueNames d2)
               (EventDrop.tags d1 ++ EventDrop.tags d2)
               (EventDrop.values d1 ++ EventDrop.values d2)
               (EventDrop.code d1).

End Pipeline.

Module Registry.

(** [formatters.EventProcessors], the registry: for a processor type,
    the initializer followed by [Init] on the configuration, which fails
    with an error or gives the processor.  [C] is the type of the
    configurations, [P] of the processors; the configuration is [None]
    when [epCfg[epType]] is nil. *)
Definition registry (C P : Type) : Type :=
  gmap string (option C → string + P).

Definition not_found (epName : string) : string :=
  Api.quote epName +:+ " event processor not found".

Definition unknown_type (epName epType : string) : string :=
  Api.quote epName +:+ " event processor has an unknown type="
  +:+ Api.quote epType.

Definition init_failed (epName epType err : string) : string :=
  "failed initializing event processor '" +:+ epName +:+ "' of type='"
  +:+ epType +:+ "': " +:+ err.

(** The body of the loop of [MakeEventProcessors] for one name.  The
    inner map [epCfg] is the list of its entries in the order in which
    the runtime ranges over them; [epType] is the first key, the empty
    string for an empty map. *)
Definition make_one {C P} (reg : registry C P)
           (ps : gmap string (list (string * C))) (epName : string)
  : string + P :=
  match ps !! epName with
  | Some epCfg =>
      let epType := default EmptyString (fst <$> head epCfg) in
      match reg !! epType with
      | Some init =>
          match init (snd <$> head epCfg) with
          | inl err => inl (init_failed epName epType err)
          | inr ep => inr ep
          end
      | None => inl (unknown_type epName epType)
      end
  | None => inl (not_found epName)
  end.

(** [func MakeEventProcessors(logger, processorNames, ps, tcs, acts)
    ([]EventProcessor, error)] *)
Fixpoint MakeEventProcessors {C P} (reg : registry C P)
         (processorNames : list string)
         (ps : gmap string (list (string * C))) : string + list P :=
  match processorNames with
  | [] => inr []
  | epName :: names =>
      match make_one reg ps epName with
      | inl err => inl err
      | inr ep =>
          match MakeEventProcessors reg names ps with
          | inl err => inl err
          | inr evps => inr (ep :: evps)
          end
      end
  end.

End Registry.

Module OverrideTSInit.

(** [func (o *overrideTS) Init(cfg any, opts ...formatters.Option) error],
    after [DecodeConfig] has filled [o] from the configuration: an empty
    precision becomes [ns], any other string is kept as it is. *)
Definition Init (o : EventOverrideTS.t) : EventOverrideTS.t :=
  if String.eqb (EventOverrideTS.Precision o) EmptyString
  then EventOverrideTS.mk "ns" else o.

(** The precisions that the [switch] of [Apply] knows. *)
Definition known (precision : string) : Prop :=
  precision = "s" ∨ precision = "ms" ∨ precision = "us" ∨ precision = "ns".

End OverrideTSInit.

Module TriggerBatch.
Import Formatters EventTrigger.

(** The events of a batch that count as occurrences for [Apply]: the
    entries that are not nil and on which the condition evaluates to
    [true] without an error. *)
Definition occurrence (p : t) (h : gmap nat EventMsg) (e : option nat)
  : option nat :=
  l ← e; ev ← h !! l;
  if decide (CheckCondition (code p) (Some ev) = (true, None))
  then Some l else None.

Definition occurrences (p : t) (h : gmap nat EventMsg)
           (es : list (option nat)) : list nat :=
  omap (occurrence p h) es.

End TriggerBatch.

Module EventStrings.
Import Formatters.
Local Open Scope Z_scope.

(** The library functions that the transforms call, taken as they are:
    [ReplaceAllString] of package regexp, [cases.Title(language.English)],
    [strings.ToLower], [strings.ToUpper], [strings.Split] and
    [filepath.Base]. *)
Record Lib := mkLib {
  ReplaceAllString : Regexp → string → string → string;
  Title : string → string;
  ToLower : string → string;
  ToUpper : string → string;
  Split : string → string → list string;
  Base : string → string
}.

(** [type transform struct]; [replaceRegexp] is [None] when nil. *)
Record transform := mkTransform {
  op : string;
  ApplyOn : string;
  Keep : bool;
  Old : string;
  New : string;
  Prefix : string;
  Suffix : string;
  SplitOn : string;
  JoinWith : string;
  IgnoreFirst : Z;
  IgnoreLast : Z;
  replaceRegexp : option Regexp
}.

Definition nameField : string := "name".
Definition valueField : string := "value".

(** Arithmetic on [int], 64 bits wide. *)
Definition wrap (z : Z) : Z := (z + 2 ^ 63) mod 2 ^ 64 - 2 ^ 63.

(** [items[lo:hi]] on a slice filled to its capacity, as [strings.Split]
    returns it; [None] is the run-time panic on bounds out of range. *)
Definition slice {A} (items : list A) (lo hi : Z) : option (list A) :=
  if bool_decide (0 ≤ lo ∧ lo ≤ hi ∧ hi ≤ Z.of_nat (List.length items))
  then Some (take (Z.to_nat (hi - lo)) (drop (Z.to_nat lo) items))
  else None.

(** [strings.Join(items, sep)] *)
Definition Join (items : list string) (sep : string) : string :=
  String.concat sep items.

(** The shape that [trimPrefix], [trimSuffix], [toTitle], [toLower],
    [toUpper] and [pathBase] share: [f] on the name, or on the value
    when it is a string. *)
Definition on_field (t : transform) (f : string → string)
           (k : string) (v : value) : string * value :=
  if String.eqb (ApplyOn t) nameField then (f k, v)
  else if String.eqb (ApplyOn t) valueField then
    match v with
    | VString vs => (k, VString (f vs))
    | _ => (k, v)
    end
  else (k, v).

(** [func (t *transform) replace]; a nil [replaceRegexp] panics where
    it is used. *)
Definition replace (lib : Lib) (t : transform) (k : string) (v : value)
  : option (string * value) :=
  if String.eqb (ApplyOn t) nameField then
    re ← replaceRegexp t; Some (ReplaceAllString lib re k (New t), v)
  else if String.eqb (ApplyOn t) valueField then
    match v with
    | VString vs =>
        re ← replaceRegexp t;
        Some (k, VString (ReplaceAllString lib re vs (New t)))
    | _ => Some (k, v)
    end
  else Some (k, v).

Definition trimPrefix (t : transform) (k : string) (v : value)
  : string * value :=
  on_field t (λ s, Api.TrimPrefix s (Prefix t)) k v.

Definition trimSuffix (t : transform) (k : string) (v : value)
  : string * value :=
  on_field t (λ s, Api.TrimSuffix s (Suffix t)) k v.

Definition toTitle (lib : Lib) (t : transform) (k : string) (v : value)
  : string * value := on_field t (Title lib) k v.

Definition toLower (lib : Lib) (t : transform) (k : string) (v : value)
  : string * value := on_field t (ToLower lib) k v.

Definition toUpper (lib : Lib) (t : transform) (k : string) (v : value)
  : string * value := on_field t (ToUpper lib) k v.

Definition pathBase (lib : Lib) (t : transform) (k : string) (v : value)
  : string * value := on_field t (Base lib) k v.

(** The items of [split] that are joined again: the empty string when
    the guard on [numItems] holds, the join of
    [items[t.IgnoreFirst:numItems-t.IgnoreLast]] otherwise. *)
Definition split_join (t : transform) (items : list string) : option string :=
  let numItems := Z.of_nat (List.length items) in
  if bool_decide (numItems ≤ IgnoreFirst t ∨ numItems ≤ IgnoreLast t
                  ∨ wrap (numItems - IgnoreLast t) ≤ IgnoreFirst t)
  then Some EmptyString
  else
    (λ l, Join l (JoinWith t))
      <$> slice items (IgnoreFirst t) (wrap (numItems - IgnoreLast t)).

(** [func (t *transform) split] *)
Definition split (lib : Lib) (t : transform) (k : string) (v : value)
  : option (string * value) :=
  if String.eqb (ApplyOn t) nameField then
    k' ← split_join t (Split lib k (SplitOn t)); Some (k', v)
  else if String.eqb (ApplyOn t) valueField then
    match v with
    | VString vs =>
        vs' ← split_join t (Split lib vs (SplitOn t)); Some (k, VString vs')
    | _ => Some (k, v)
    end
  else Some (k, v).

(** [func (t *transform) apply(k string, v interface{}) (string, interface{})];
    [None] is a panic. *)
Definition apply (lib : Lib) (t : transform) (k : string) (v : value)
  : option (string * value) :=
  if String.eqb (op t) "replace" then replace lib t k v
  else if String.eqb (op t) "trim-prefix" then Some (trimPrefix t k v)
  else if String.eqb (op t) "trim-suffix" then Some (trimSuffix t k v)
  else if String.eqb (op t) "title" then Some (toTitle lib t k v)
  else if String.eqb (op t) "to-lower" then Some (toLower lib t k v)
  else if String.eqb (op t) "to-upper" then Some (toUpper lib t k v)
  else if String.eqb (op t) "split" then split lib t k v
  else if String.eqb (op t) "path-base" then Some (pathBase lib t k v)
  else Some (k, v).

(** [m[k] = v]: assigning to an entry of a nil map panics. *)
Definition assign {V} (m : option (gmap string V)) (k : string) (v : V)
  : option (option (gmap string V)) :=
  g ← m; Some (Some (<[k := v]> g)).

(** [func (s *stringsp) applyTagTransformations(e, k, v)] on the tags
    of [e]; [ts] are the transforms in the order in which the two
    nested loops over [s.Transforms] visit them. *)
Fixpoint applyTagTransformations (lib : Lib) (ts : list transform)
         (tags : option (gmap string string)) (k v : string)
  : option (option (gmap string string)) :=
  match ts with
  | [] => Some tags
  | t :: ts' =>
      let tags1 := if Keep t then tags else delete k <$> tags in
      '(k', vi) ← apply lib t k (VString v);
      match vi with
      | VString vs =>
          tags2 ← assign tags1 k' vs;
          applyTagTransformations lib ts' tags2 k' vs
      | _ => applyTagTransformations lib ts' tags1 k' v
      end
  end.

(** [func (s *stringsp) applyValueTransformations(e, k, v)] on the
    values of [e]. *)
Fixpoint applyValueTransformations (lib : Lib) (ts : list transform)
         (values : option (gmap string value)) (k : string) (v : value)
  : option (option (gmap string value)) :=
  match ts with
  | [] => Some values
  | t :: ts' =>
      let values1 := if Keep t then values else delete k <$> values in
      '(k', v') ← apply lib t k v;
      values2 ← assign values1 k' v';
      applyValueTransformations lib ts' values2 k' v'
  end.

(** A transform that cannot panic: a [replace] has its expression
    compiled, as [Init] leaves it, and nothing is ignored a negative
    number of times. *)
Definition safe (t : transform) : Prop :=
  (op t = "replace" → is_Some (replaceRegexp t))
  ∧ 0 ≤ IgnoreFirst t ∧ 0 ≤ IgnoreLast t.


(** Tags read as values, all of them strings. *)
Definition as_values (m : gmap string string) : gmap string value :=
  VString <$> m.

(** The names and values that a tag goes through. *)
Fixpoint renames (lib : Lib) (ts : list transform) (k v : string)
  : list (string * string) :=
  match ts with
  | [] => []
  | t :: ts' =>
      match apply lib t k (VString v) with
      | Some (k', VString vs) => (k', vs) :: renames lib ts' k' vs
      | Some (k', _) => renames lib ts' k' v
      | None => []
      end
  end.

End EventStrings.

Module InfluxOutput.
Local Open Scope Z_scope.

(** The values of an event that the output tells apart: a
    [*gnmi.Decimal64], the unsigned integers ([uint], [uint8], [uint16],
    [uint32], [uint64], by their value), [int], the [float64] that
    [float64(Digits) / math.Pow10(Precision)] gives, by its two
    arguments, strings, and the rest. *)
Inductive field :=
| FDecimal64 (Digits Precision : Z)
| FUint (n : Z)
| FInt (n : Z)
| FQuotient (Digits Precision : Z)
| FString (s : string)
| FOther.

(** [type Config struct], the fields that [setDefaults], [clientOpts]
    and [worker] read; durations in nanoseconds, [CacheConfig] by
    whether it is set. *)
Record Config := mkConfig {
  URL : string;
  BatchSize : Z;
  FlushTimer : Z;
  HealthCheckPeriod : Z;
  OverrideTimestamps : bool;
  CacheConfig : bool;
  CacheFlushTimer : Z;
  DeleteTag : string
}.

Definition Second : Z := 1000000000.
Definition Millisecond : Z := 1000000.
Definition defaultURL : string := "http://localhost:8086".
Definition defaultBatchSize : Z := 1000.
Definition defaultFlushTimer : Z := 10 * Second.
Definition minHealthCheckPeriod : Z := 30 * Second.
Definition defaultCacheFlushTimer : Z := 5 * Second.
Definition deleteTagValue : string := "true".

(** [func (i *influxDBOutput) setDefaults()] *)
Definition setDefaults (c : Config) : Config :=
  mkConfig
    (if String.eqb (URL c) EmptyString then defaultURL else URL c)
    (if BatchSize c =? 0 then defaultBatchSize else BatchSize c)
    (if FlushTimer c =? 0 then defaultFlushTimer else FlushTimer c)
    (if negb (HealthCheckPeriod c =? 0)
        && (HealthCheckPeriod c <? minHealthCheckPeriod)
     then minHealthCheckPeriod else HealthCheckPeriod c)
    (OverrideTimestamps c)
    (CacheConfig c)
    (if CacheConfig c && (CacheFlushTimer c =? 0)
     then defaultCacheFlushTimer else CacheFlushTimer c)
    (DeleteTag c).

(** [uint(i.Cfg.FlushTimer.Milliseconds())], the flush interval that
    [clientOpts] hands to the client: the division truncates, the
    conversion to [uint] is modulo [2 ^ 64]. *)
Definition flush_interval (c : Config) : Z :=
  (FlushTimer c ÷ Millisecond) mod 2 ^ 64.

(** [formatters.EventMsg] with these values. *)
Record Event := mkEvent {
  Name : string;
  Timestamp : Z;
  Tags : option (gmap string string);
  Values : option (gmap string field);
  Deletes : list string
}.

(** What [influxdb2.NewPoint] copies out of its arguments. *)
Record Point := mkPoint {
  measurement : string;
  ptags : gmap string string;
  pfields : gmap string field;
  ptime : Z
}.

Definition NewPoint (name : string) (tags : option (gmap string string))
           (fields : option (gmap string field)) (ts : Z) : Point :=
  mkPoint name (default ∅ tags) (default ∅ fields) ts.

(** The first loop of the worker over [ev.Values]. *)
Definition decimal (v : field) : field :=
  match v with
  | FDecimal64 d p => FQuotient d p
  | _ => v
  end.

(** [int(v)] for an unsigned [v], [int] taken 64 bits wide. *)
Definition to_int (v : field) : field :=
  match v with
  | FUint n => FInt (EventStrings.wrap n)
  | _ => v
  end.

(** [func (i *influxDBOutput) convertUints(ev *formatters.EventMsg)],
    on the values of [ev]. *)
Definition convertUints (dbVersion : string)
           (values : option (gmap string field))
  : option (gmap string field) :=
  if negb (Api.HasPrefix dbVersion "1.8") then values
  else (λ m : gmap string field, to_int <$> m) <$> values.

(** The body of [case ev := <-i.eventChan] in [worker]: the event as
    the worker leaves it and the points handed to [writer.WritePoint],
    [now] being [time.Now().UnixNano()]. *)
Definition worker_event (c : Config) (dbVersion : string) (now : Z)
           (ev : Event) : Event * list Point :=
  let no_values := bool_decide (size (default ∅ (Values ev)) = 0%nat) in
  let no_deletes := bool_decide (List.length (Deletes ev) = 0%nat) in
  let no_tag := String.eqb (DeleteTag c) EmptyString in
  if no_values && no_deletes then (ev, [])
  else if no_values && no_tag then (ev, [])
  else
    let values1 :=
      (λ m : gmap string field, decimal <$> m) <$> Values ev in
    let ts := if (Timestamp ev =? 0) || OverrideTimestamps c
              then now else Timestamp ev in
    let '(name, tags) :=
      match default ∅ (Tags ev) !! "subscription-name" with
      | Some subscriptionName =>
          (subscriptionName, delete "subscription-name" <$> Tags ev)
      | None => (Name ev, Tags ev)
      end in
    let values2 :=
      if negb no_values then convertUints dbVersion values1 else values1 in
    let value_point :=
      if negb no_values then [NewPoint name tags values2 ts] else [] in
    let delete_point :=
      if negb no_deletes && negb no_tag
      then [NewPoint name
              (Some (<[DeleteTag c := deleteTagValue]> (default ∅ tags)))
              (Some (foldl (λ values del, <[del := FString EmptyString]> values)
                           ∅ (Deletes ev)))
              ts]
      else [] in
    (mkEvent name ts tags values2 (Deletes ev), value_point ++ delete_point).

End InfluxOutput.

Module NatsInput.
Local Open Scope Z_scope.

(** [type config struct], the fields that [Start], [setName],
    [setDefaults] and the worker read; [ConnectTimeWait] in
    nanoseconds. *)
Record config := mkConfig {
  Name : string;
  Address : string;
  Subject : string;
  Queue : string;
  ConnectTimeWait : Z;
  Format : string;
  NumWorkers : Z;
  BufferSize : Z
}.

Definition defaultAddress : string := "localhost:4222".
Definition natsConnectWait : Z := 2 * InfluxOutput.Second.
Definition defaultFormat : string := "event".
Definition defaultSubject : string := "telemetry".
Definition defaultNumWorkers : Z := 1.
Definition defaultBufferSize : Z := 100.

Definition set_Name (c : config) (name : string) : config :=
  mkConfig name (Address c) (Subject c) (Queue c) (ConnectTimeWait c)
           (Format c) (NumWorkers c) (BufferSize c).

(** [func (n *natsInput) setName(name string)] *)
Definition setName (c : config) (name : string) : config :=
  set_Name c ((if String.eqb name EmptyString then EmptyString
               else name +:+ "-")
              +:+ Name c +:+ "-nats-sub").

(** [func (n *natsInput) setDefaults() error]; [ToLower] is
    [strings.ToLower] and [uuid] the string of [uuid.New()]. *)
Definition setDefaults (ToLower : string → string) (uuid : string)
           (c : config) : string + config :=
  let format :=
    if String.eqb (Format c) EmptyString then defaultFormat else Format c in
  if negb (String.eqb (ToLower format) "event"
           || String.eqb (ToLower format) "proto")
  then inl "unsupported input format"
  else
    let name :=
      if String.eqb (Name c) EmptyString then "gnmic-" +:+ uuid
      else Name c in
    inr (mkConfig
           name
           (if String.eqb (Address c) EmptyString then defaultAddress
            else Address c)
           (if String.eqb (Subject c) EmptyString then defaultSubject
            else Subject c)
           (if String.eqb (Queue c) EmptyString then name else Queue c)
           (if ConnectTimeWait c <=? 0 then natsConnectWait
            else ConnectTimeWait c)
           format
           (if NumWorkers c <=? 0 then defaultNumWorkers else NumWorkers c)
           (if BufferSize c <=? 0 then defaultBufferSize else BufferSize c)).

(** [Start], from the decoded configuration to the one the workers are
    started with, the options and the event processors being accepted:
    the name of the input when none is configured, [setName] with the
    name of the options, [setDefaults]. *)
Definition Start (ToLower : string → string) (uuid : string)
           (name optName : string) (c : config) : string + config :=
  let c1 := if String.eqb (Name c) EmptyString then set_Name c name else c in
  setDefaults ToLower uuid (setName c1 optName).

(** What the [switch n.Cfg.Format] of the worker does with a message
    that is not empty: the two cases, or nothing. *)
Inductive handling := AsEvent | AsProto | Ignored.

Definition worker_format (c : config) : handling :=
  if String.eqb (Format c) "event" then AsEvent
  else if String.eqb (Format c) "proto" then AsProto
  else Ignored.

End NatsInput.

Module MoreExamples.
Import Formatters.
Local Open Scope Z_scope.

(** Drop processors without a condition: on the tag name [a], and on
    the value name [v]. *)
Definition drop_tag_a : EventDrop.t :=
  EventDrop.mk EmptyString [mkRegexp "^a$" (String.eqb "a")] [] [] []
               (Some (mkCode (λ _, IterValue JNull))).

Definition drop_value_v : EventDrop.t :=
  EventDrop.mk EmptyString [] [mkRegexp "^v$" (String.eqb "v")] [] []
               (Some (mkCode (λ _, IterValue JNull))).

(** A condition that yields nothing, and an event with a value that
    encoding/json refuses. *)
Definition jq_empty : Code := mkCode (λ _, IterDone).

Definition drop_empty_cond : EventDrop.t :=
  EventDrop.mk "empty" [] [] [] [] (Some jq_empty).

Definition ev_nan : EventMsg :=
  mkEvent EmptyString 0 None (Some {["load" := VOther false]}) [].

Definition store_nan : gmap nat EventMsg := {[ 0%nat := ev_nan ]}.

(** A registry with the type [event-drop], whose [Init] refuses the
    configuration 0, and the processors [p1] and [p2]. *)
Definition reg_drop : Registry.registry nat nat :=
  {[ "event-drop" := λ c : option nat,
       match c with
       | Some (S n) => inr n
       | _ => inl "bad config"
       end ]}.

Definition ps_two : gmap string (list (string * nat)) :=
  {[ "p1" := [("event-drop", 5%nat)]; "p2" := [("event-drop", 7%nat)] ]}.

(** A trigger with the default [min-occurrences] and [max-occurrences]
    of 1 and a window of 10. *)
Definition trigger_default : EventTrigger.t :=
  EventTrigger.mk "any([true])" 1 1 10 false [] 0 None.

(** A condition that cannot be evaluated. *)
Definition jq_error : Code := mkCode (λ _, IterError "boom").

Definition trigger_failing : EventTrigger.t :=
  EventTrigger.mk "boom" 1 1 10 false [] 0 (Some jq_error).

(** The leader of cluster [lab], and a coordination service that holds
    the locks of three targets, two of them for instance [a]. *)
Definition leader : Api.App := Api.mkApp "lab" (Some "lab") ∅ true.

Definition locks_ab : gmap string string :=
  {[ "gnmic/lab/targets/t2" := "a"; "gnmic/lab/targets/t1" := "a";
     "gnmic/lab/targets/t3" := "b" ]}.

Definition env_locks : Api.Env :=
  Api.mkEnv (λ _, inr locks_ab) (λ _ _, inr Examples.services_ab)
            (λ _, None) (inr Examples.locked_ab)
            (λ s, Api.TrimPrefix s "gnmic/lab/targets/").

(** Library functions for the examples: [Split] cuts at every
    occurrence of a one-character separator. *)
Fixpoint split_on (c : ascii) (s : string) : list string :=
  match s with
  | EmptyString => [EmptyString]
  | String a s' =>
      if Ascii.eqb a c then EmptyString :: split_on c s'
      else match split_on c s' with
           | x :: l => String a x :: l
           | [] => [String a EmptyString]
           end
  end.

Definition lib_id : EventStrings.Lib :=
  EventStrings.mkLib
    (λ _ s _, s) (λ s, s) (λ s, s) (λ s, s)
    (λ s sep, match sep with
              | String c EmptyString => split_on c s
              | _ => [s]
              end)
    (λ s, s).

(** [split: {apply-on: name, split-on: "/", join-with: "_",
    ignore-first: 1}] and the same with [ignore-first: -1]. *)
Definition split_first (n : Z) : EventStrings.transform :=
  EventStrings.mkTransform "split" "name" false EmptyString EmptyString
    EmptyString EmptyString "/" "_" n 0 None.

(** [trim-prefix: {apply-on: name, prefix: "/interface"}] with and
    without [keep]. *)
Definition trim_interface (keep : bool) : EventStrings.transform :=
  EventStrings.mkTransform "trim-prefix" "name" keep EmptyString EmptyString
    "/interface" EmptyString EmptyString EmptyString 0 0 None.

(** Two tags, the second with the name that the first gets when its
    prefix is trimmed. *)
Definition tags_interface : gmap string string :=
  {[ "/interface/name" := "eth0"; "/name" := "lo" ]}.

(** Lower case for the letters of ASCII, as [strings.ToLower] has it
    on a string of ASCII characters. *)
Definition ascii_lower (c : ascii) : ascii :=
  let n := nat_of_ascii c in
  if (65 <=? n)%nat && (n <=? 90)%nat then ascii_of_nat (n + 32) else c.

Fixpoint lower (s : string) : string :=
  match s with
  | EmptyString => EmptyString
  | String c s' => String (ascii_lower c) (lower s')
  end.

(** [format: Event] on an input named [in1]. *)
Definition nats_Event : NatsInput.config :=
  NatsInput.mkConfig "in1" EmptyString EmptyString EmptyString 0 "Event" 0 0.

(** An event of subscription [sub1] with one counter, above the
    largest [int], and one deleted path. *)
Definition ev_counter : InfluxOutput.Event :=
  InfluxOutput.mkEvent "default" 0
    (Some {[ "subscription-name" := "sub1"; "source" := "r1" ]})
    (Some {[ "in-octets" := InfluxOutput.FUint (2 ^ 63 + 5) ]})
    ["/interface/mtu"].

Definition influx_delete_tag : InfluxOutput.Config :=
  InfluxOutput.mkConfig EmptyString 0 (-1500000) 1 false false 0 "deleted".

(** A clock that reads 1500 ms after the epoch, then one ms more at
    each reading. *)
Definition clock_ms (k : nat) : Z := 1500000000 + 1000000 * Z.of_nat k.

End MoreExamples.

(* ===================================================================== *)
(** * The drop processor *)
(* ===================================================================== *)

Local Close Scope string_scope.

Section drop_facts.
Import Formatters DropSpec.
Implicit Types (d : EventDrop.t) (h : gmap nat EventMsg).
Implicit Types (e : option nat) (es arr : list (option nat)).

Lemma Apply_loop_kept d h rest : ∀ idx i arr,
  drop idx arr = rest → i ≤ idx →
  (λ r : list (option nat) * nat, take r.2 r.1)
    <$> EventDrop.Apply_loop d h (List.length rest) idx i arr
  = (λ r, take i arr ++ r) <$> kept d h rest.
Proof.
  induction rest as [|e rest IH]; intros idx i arr Hrest Hle; simpl.
  - by rewrite app_nil_r.
  - assert (Hidx : arr !! idx = Some e).
    { rewrite <- (Nat.add_0_r idx), <- lookup_drop, Hrest. done. }
    assert (Hnext : drop (S idx) arr = rest).
    { rewrite (drop_S _ _ _ Hidx) in Hrest. congruence. }
    rewrite Hidx. simpl.
    destruct (EventDrop.drop d h e) as [[|]|]; simpl; [| |done].
    + rewrite (IH (S idx) i arr) by (done || lia).
      by destruct (kept d h rest).
    + assert (Hi : i < List.length arr).
      { apply lookup_lt_Some in Hidx. lia. }
      rewrite (IH (S idx) (S i) (<[i:=e]> arr)).
      * destruct (kept d h rest) as [r|]; simpl; [|done].
        f_equal.
        rewrite (take_S_r _ _ e) by (by apply list_lookup_insert_eq).
        rewrite take_insert_ge by lia. by rewrite <- app_assoc.
      * rewrite drop_insert_lt by lia. done.
      * lia.
Qed.

Lemma take_clear_from i arr : take i (EventDrop.clear_from i arr) = take i arr.
Proof.
  unfold EventDrop.clear_from.
  destruct (decide (i ≤ List.length arr)).
  - rewrite take_app_le by (rewrite length_take; lia).
    rewrite take_take. by rewrite Nat.min_id.
  - replace (List.length arr - i) with 0 by lia.
    simpl. rewrite app_nil_r, take_take. by rewrite Nat.min_id.
Qed.

(** [Apply] compacts the array in place and returns exactly the kept
    entries. *)
Lemma Apply_kept d h es : EventDrop.Apply d h es = kept d h es.
Proof.
  unfold EventDrop.Apply.
  pose proof (Apply_loop_kept d h es 0 0 es eq_refl (Nat.le_refl 0)) as H.
  destruct (EventDrop.Apply_loop d h (List.length es) 0 0 es) as [[arr i]|];
    destruct (kept d h es) as [r|]; simpl in *; try done.
  rewrite take_clear_from. congruence.
Qed.

Lemma kept_Some_filter d h es r :
  kept d h es = Some r →
  r = filter (λ e, EventDrop.drop d h e = Some false) es.
Proof.
  revert r. induction es as [|e es IH]; intros r; simpl.
  - by intros [= <-].
  - destruct (EventDrop.drop d h e) as [[|]|] eqn:He; simpl; [| |done];
      destruct (kept d h es) as [r'|]; simpl; try done; intros [= <-].
    + rewrite filter_cons_False by congruence. by apply IH.
    + rewrite filter_cons_True by done. f_equal. by apply IH.
Qed.

Lemma kept_is_Some d h es :
  Forall (λ e, is_Some (EventDrop.drop d h e)) es → is_Some (kept d h es).
Proof.
  induction 1 as [|e es [b Hb] _ [r Hr]]; simpl; [by eexists|].
  rewrite Hb, Hr. simpl. by eexists.
Qed.

Lemma kept_None d h es :
  (∃ e, e ∈ es ∧ EventDrop.drop d h e = None) → kept d h es = None.
Proof.
  intros (e & Hin & He). induction es as [|e' es IH]; [by inv Hin|].
  simpl. inv Hin.
  - by rewrite He.
  - destruct (EventDrop.drop d h e') as [b|]; [|done]. simpl.
    by rewrite IH.
Qed.

Lemma kept_idemp d h es r : kept d h es = Some r → kept d h r = Some r.
Proof.
  revert r. induction es as [|e es IH]; intros r; simpl.
  - by intros [= <-].
  - destruct (EventDrop.drop d h e) as [[|]|] eqn:He; simpl; [| |done];
      destruct (kept d h es) as [r'|]; simpl; try done; intros [= <-].
    + by apply IH.
    + simpl. rewrite He. simpl. by rewrite (IH r').
Qed.

Lemma drop_is_Some d h e :
  is_Some (load h e) → is_Some (EventDrop.drop d h e).
Proof.
  intros [ev Hev]. unfold EventDrop.drop.
  destruct e as [l|]; [|done]. simpl in Hev.
  case_bool_decide.
  - simpl. rewrite Hev. simpl.
    destruct (CheckCondition _ _) as [ok [err|]]; by eexists.
  - simpl. rewrite Hev. simpl. by eexists.
Qed.

(** Without a condition, an event is dropped exactly when an expression
    matches it. *)
Lemma drop_regex_iff d h e ev :
  EventDrop.Condition d = EmptyString → load h e = Some ev →
  EventDrop.drop d h e = Some true ↔ expression_matches d ev.
Proof.
  intros Hc He. unfold EventDrop.drop, expression_matches.
  rewrite bool_decide_eq_false_2 by (by rewrite Hc; intros []).
  rewrite He. simpl. split.
  - intros [= H]. apply orb_true_iff in H as [H|H];
      apply existsb_exists in H as ([k v] & Hin & Hm);
      apply list_elem_of_In, elem_of_map_to_list in Hin; [left|right];
      exists k, v; (split; [done|]).
    + unfold EventDrop.value_matches in Hm. simpl in Hm.
      apply orb_true_iff in Hm as [Hm|Hm]; [by left|right].
      destruct v; try done. by eexists.
    + unfold EventDrop.tag_matches in Hm. simpl in Hm.
      by apply orb_true_iff in Hm.
  - intros H. f_equal. apply orb_true_iff.
    destruct H as [(k & v & Hl & Hm)|(k & v & Hl & Hm)]; [left|right];
      apply existsb_exists; exists (k, v);
      (split; [by apply list_elem_of_In, elem_of_map_to_list|]).
    + unfold EventDrop.value_matches. simpl. apply orb_true_iff.
      destruct Hm as [Hm|(vs & -> & Hm)]; [by left|by right].
    + unfold EventDrop.tag_matches. simpl. by apply orb_true_iff.
Qed.

(** With a condition, the expressions are never consulted. *)
Lemma drop_condition_only d h e tn vn tg vl :
  EventDrop.Condition d ≠ EmptyString →
  EventDrop.drop d h e
  = EventDrop.drop (EventDrop.mk (EventDrop.Condition d) tn vn tg vl
                                 (EventDrop.code d)) h e.
Proof.
  intros Hc. unfold EventDrop.drop. simpl.
  by rewrite !bool_decide_eq_true_2.
Qed.

End drop_facts.

Section drop_claims.
Import Formatters DropSpec Examples.

(** With [tag-names: ["^interface$"]] the event tagged [interface] is
    dropped.  Once a condition that is false is configured next to the
    same expression, [drop] returns on the condition and the event is
    kept, although its tag name still matches. *)
Lemma drop_condition_masks_expressions :
  expression_matches drop_tag_names_cond ev_interface
  ∧ EventDrop.Apply drop_tag_names store_interface [Some 0] = Some []
  ∧ EventDrop.Apply drop_tag_names_cond store_interface [Some 0]
    = Some [Some 0].
Proof.
  split; [|by vm_compute]. right.
  exists "interface"%string, "ethernet1/1"%string. split; [|by left].
  by vm_compute.
Qed.

(** C3 as stated does not hold: an event is also dropped when no
    criterion matches it, namely when the evaluation of the condition
    fails.  Here the condition yields a number. *)
Lemma drop_without_match :
  ¬ ∀ d (h : gmap nat EventMsg) e ev,
      load h e = Some ev →
      EventDrop.drop d h e = Some true
      ↔ condition_holds d ev ∨ expression_matches d ev.
Proof.
  intros H.
  destruct (H drop_failing_cond store_interface (Some 0) ev_interface eq_refl)
    as [H1 _].
  assert (Hd : EventDrop.drop drop_failing_cond store_interface (Some 0)
               = Some true) by (by vm_compute).
  destruct (H1 Hd) as [[_ Hc]|[(k & v & _ & [Hm|(vs & _ & Hm)])
                               |(k & v & _ & [Hm|Hm])]].
  - vm_compute in Hc. discriminate.
  - vm_compute in Hm. discriminate.
  - vm_compute in Hm. discriminate.
  - vm_compute in Hm. discriminate.
  - vm_compute in Hm. discriminate.
Qed.

(** C3, amended.  For an event of the batch:
    - without a condition, it is dropped exactly when an expression
      matches it;
    - with a condition, it is dropped when the condition evaluates to
      true and when its evaluation fails, and an event that no
      expression matches is dropped in these two cases only.
    The batch returned is the batch without the dropped events, in the
    original order. *)
Theorem drop_decision d (h : gmap nat EventMsg) e ev :
  load h e = Some ev →
  (EventDrop.Condition d = EmptyString →
   (EventDrop.drop d h e = Some true ↔ expression_matches d ev))
  ∧ (condition_holds d ev ∨ condition_fails d ev →
     EventDrop.drop d h e = Some true)
  ∧ (EventDrop.Condition d ≠ EmptyString → ¬ expression_matches d ev →
     EventDrop.drop d h e = Some true →
     condition_holds d ev ∨ condition_fails d ev)
  ∧ (∀ es r, EventDrop.Apply d h es = Some r →
             r = filter (λ e, EventDrop.drop d h e = Some false) es
             ∧ r `sublist_of` es).
Proof.
  intros He. split; [|split; [|split]].
  - intros Hc. by apply drop_regex_iff.
  - unfold condition_holds, condition_fails, EventDrop.drop.
    destruct e as [l|]; [|done]. simpl in He.
    intros [[Hc Hr]|[Hc (b & msg & Hr)]];
      rewrite bool_decide_eq_true_2 by done; simpl; rewrite He; simpl;
      by rewrite Hr.
  - unfold condition_holds, condition_fails, EventDrop.drop.
    destruct e as [l|]; [|done]. simpl in He.
    intros Hc _. rewrite bool_decide_eq_true_2 by done. simpl.
    rewrite He. simpl.
    destruct (CheckCondition (EventDrop.code d) (Some ev)) as [ok [msg|]].
    + intros _. right. split; [done|]. by exists ok, msg.
    + intros [= ->]. by left.
  - intros es r Hr. rewrite Apply_kept in Hr.
    apply kept_Some_filter in Hr as ->. split; [done|].
    apply sublist_filter.
Qed.

Lemma drop_decision_witness :
  load store_interface (Some 0) = Some ev_interface
  ∧ EventDrop.Condition drop_tag_names = EmptyString
  ∧ (EventDrop.drop drop_tag_names store_interface (Some 0) = Some true
     ↔ expression_matches drop_tag_names ev_interface).
Proof.
  split; [reflexivity|]. split; [reflexivity|].
  exact (proj1 (drop_decision drop_tag_names store_interface (Some 0)
                              ev_interface eq_refl) eq_refl).
Defined.

(** C9.  Applying the drop processor to its own result returns that
    result: in general, whatever the first application does (a batch
    on which it panics included), and in particular for every batch of
    allocated events, on which both applications return. *)
Theorem drop_Apply_idempotent d (h : gmap nat EventMsg) es :
  (EventDrop.Apply d h es ≫= EventDrop.Apply d h = EventDrop.Apply d h es)
  ∧ (Forall (λ e, is_Some (load h e)) es →
     ∃ es', EventDrop.Apply d h es = Some es'
            ∧ EventDrop.Apply d h es' = Some es').
Proof.
  split.
  - rewrite Apply_kept. destruct (kept d h es) as [r|] eqn:Hr; [|done].
    simpl. rewrite Apply_kept. by apply kept_idemp with es.
  - intros Hes. destruct (kept_is_Some d h es) as [r Hr].
    { eapply Forall_impl; [exact Hes|]. intros e. apply drop_is_Some. }
    exists r. rewrite !Apply_kept. split; [done|]. by apply kept_idemp with es.
Qed.

Lemma drop_Apply_idempotent_witness :
  Forall (λ e, is_Some (load store_interface e)) [Some 0; Some 0]
  ∧ ∃ es', EventDrop.Apply drop_failing_cond store_interface [Some 0; Some 0]
           = Some es'
           ∧ EventDrop.Apply drop_failing_cond store_interface es' = Some es'.
Proof.
  assert (H : Forall (λ e, is_Some (load store_interface e)) [Some 0; Some 0]).
  { repeat constructor; by exists ev_interface. }
  split; [exact H|].
  exact (proj2 (drop_Apply_idempotent drop_failing_cond store_interface
                                      [Some 0; Some 0]) H).
Defined.

(** C10.  [CheckCondition] answers true without error when there is no
    compiled condition.  When a condition is configured and its
    evaluation over the event fails, by an error of the evaluation or
    by a result that is not a boolean, [drop] answers true and the
    event is in no batch that [Apply] returns. *)
Theorem drop_condition_fail_closed :
  (∀ input, CheckCondition None input = (true, None))
  ∧ (∀ d (h : gmap nat EventMsg) e c input,
       EventDrop.Condition d ≠ EmptyString →
       EventDrop.code d = Some c →
       marshal_input h e = Some input →
       (∃ msg, Run c input = IterError msg)
       ∨ (∃ v, Run c input = IterValue v ∧ ∀ b, v ≠ JBool b) →
       EventDrop.drop d h e = Some true
       ∧ ∀ es r, EventDrop.Apply d h es = Some r → e ∉ r).
Proof.
  split; [done|]. intros d h e c input Hc Hcode Hin Hfail.
  assert (Hd : EventDrop.drop d h e = Some true).
  { unfold EventDrop.drop. rewrite bool_decide_eq_true_2 by done.
    rewrite Hin, Hcode. simpl.
    destruct (negb (from_option json_encodable true input)); [done|].
    destruct Hfail as [[msg ->]|(v & -> & Hv)]; [done|].
    destruct v; try done. by destruct (Hv b). }
  split; [done|]. intros es r Hr Hin'.
  rewrite Apply_kept in Hr. apply kept_Some_filter in Hr. subst r.
  apply list_elem_of_filter in Hin' as [He _]. congruence.
Qed.

Lemma drop_condition_fail_closed_witness :
  EventDrop.drop drop_failing_cond store_interface (Some 0) = Some true
  ∧ ∀ es r, EventDrop.Apply drop_failing_cond store_interface es = Some r →
            Some 0 ∉ r.
Proof.
  refine (proj2 drop_condition_fail_closed drop_failing_cond store_interface
                (Some 0) jq_number (Some ev_interface) _ _ _ _).
  - by vm_compute.
  - reflexivity.
  - reflexivity.
  - right. exists (JNumber 1). split; [reflexivity|]. intros b. discriminate.
Defined.

End drop_claims.

(* ===================================================================== *)
(** * The merge processor *)
(* ===================================================================== *)

Section merge_facts.
Import Formatters MergeSpec.
Implicit Types (h : gmap nat EventMsg) (ev : EventMsg).
Implicit Types (evs : list EventMsg) (ts : list Z).

Lemma copy_into_union {V} (src dst : gmap string V) :
  EventMerge.copy_into src dst = src ∪ dst.
Proof.
  unfold EventMerge.copy_into.
  apply (map_fold_weak_ind (λ r m, r = m ∪ dst)).
  - by rewrite (left_id_L ∅ (∪)).
  - intros i x m r _ ->. by rewrite insert_union_l.
Qed.

(** [mergeEvents] implements the folding rule. *)
Lemma merged_fold_rule e1 e2 : EventMerge.merged e1 e2 = fold_rule e1 e2.
Proof.
  unfold EventMerge.merged, fold_rule. rewrite !copy_into_union.
  f_equal. case_bool_decide; lia.
Qed.

Lemma elem_of_first_seen t ts : t ∈ first_seen ts ↔ t ∈ ts.
Proof.
  induction ts as [|a ts IH]; simpl; [done|].
  rewrite !elem_of_cons, list_elem_of_filter, IH.
  destruct (decide (t = a)); intuition congruence.
Qed.

Lemma NoDup_first_seen ts : NoDup (first_seen ts).
Proof.
  induction ts as [|a ts IH]; simpl; constructor.
  - rewrite list_elem_of_filter. by intros [? _].
  - by apply NoDup_filter.
Qed.

Lemma first_seen_snoc ts t :
  first_seen (ts ++ [t])
  = if decide (t ∈ ts) then first_seen ts else first_seen ts ++ [t].
Proof.
  induction ts as [|a ts IH]; simpl; [done|].
  rewrite IH. destruct (decide (t ∈ ts)) as [Hin|Hin].
  - rewrite decide_True by (by right). done.
  - rewrite filter_app. destruct (decide (t = a)) as [->|Hne].
    + rewrite decide_True by (by left).
      rewrite filter_cons_False by (by intros ?).
      simpl. by rewrite app_nil_r.
    + rewrite decide_False by (rewrite elem_of_cons; tauto).
      by rewrite filter_cons_True by done.
Qed.

Lemma group_snoc t evs ev :
  group t (evs ++ [ev])
  = group t evs ++ (if decide (Timestamp ev = t) then [ev] else []).
Proof.
  unfold group. by rewrite filter_app.
Qed.

Lemma group_nil t evs : t ∉ Timestamp <$> evs → group t evs = [].
Proof.
  intros Hn. unfold group. induction evs as [|ev evs IH]; [done|].
  rewrite fmap_cons, not_elem_of_cons in Hn. destruct Hn as [Hne Hn].
  rewrite filter_cons_False by (unfold has_ts; congruence). by apply IH.
Qed.

Lemma fold_group_is_Some t evs :
  t ∈ Timestamp <$> evs → is_Some (fold_group (group t evs)).
Proof.
  intros Hin. apply list_elem_of_fmap in Hin as (ev & -> & Hin).
  assert (ev ∈ group (Timestamp ev) evs) as Hg.
  { unfold group. by apply list_elem_of_filter. }
  destruct (group (Timestamp ev) evs); [by inv Hg|]. by eexists.
Qed.

Lemma fold_group_snoc g v ev :
  fold_group g = Some v → fold_group (g ++ [ev]) = Some (fold_rule v ev).
Proof.
  destruct g as [|first later]; [done|]. simpl. intros [= <-].
  by rewrite foldl_snoc.
Qed.

Lemma loop_inv_init h : loop_inv h [] [] h [] ∅.
Proof.
  split; simpl; try done. apply NoDup_nil_2.
Qed.

(** One iteration of the by-timestamp loop on a non-nil entry that has
    not been seen before. *)
Lemma by_ts_loop_step h0 pre evs h rl tsm l ev es :
  loop_inv h0 pre evs h rl tsm → l ∉ pre → h0 !! l = Some ev →
  ∃ h' rl' tsm',
    EventMerge.by_ts_loop h (Some <$> rl) tsm (Some l :: es)
    = EventMerge.by_ts_loop h' (Some <$> rl') tsm' es
    ∧ loop_inv h0 (pre ++ [l]) (evs ++ [ev]) h' rl' tsm'.
Proof.
  intros [Hvals Hsub Hnd Hgr Hidx Hfr] Hl Hev.
  assert (Hlrl : l ∉ rl) by (intros ?; by apply Hl, Hsub).
  assert (Hhl : h !! l = Some ev) by (by rewrite Hfr).
  assert (Hvals' : Forall2 (λ l ev, h0 !! l = Some ev) (pre ++ [l]) (evs ++ [ev])).
  { apply Forall2_app; [done|]. by repeat constructor. }
  pose proof (Forall2_length _ _ _ Hgr) as Hlen.
  simpl. rewrite Hhl. simpl.
  destruct (tsm !! Timestamp ev) as [idx|] eqn:Htsm.
  - (* the timestamp has a group already *)
    apply Hidx in Htsm.
    assert (Hin : Timestamp ev ∈ Timestamp <$> evs).
    { apply elem_of_first_seen. by eapply list_elem_of_lookup_2. }
    destruct (Forall2_lookup_r _ _ _ _ _ Hgr Htsm) as (r & Hr & Hhr).
    destruct (fold_group_is_Some _ _ Hin) as [v1 Hv1].
    rewrite list_lookup_fmap, Hr. simpl.
    unfold EventMerge.mergeEvents. simpl.
    rewrite Hhr, Hv1. simpl. rewrite Hhl. simpl.
    eexists _, rl, tsm. split; [reflexivity|].
    assert (Hfs : first_seen (Timestamp <$> evs ++ [ev])
                  = first_seen (Timestamp <$> evs)).
    { rewrite fmap_app. simpl. rewrite first_seen_snoc.
      by rewrite decide_True. }
    split; try done.
    + by apply list_subseteq_app_l.
    + rewrite Hfs. apply Forall2_same_length_lookup. split; [done|].
      intros j r' t' Hr' Ht'. rewrite group_snoc.
      destruct (decide (j = idx)) as [->|Hne].
      * assert (r' = r) as -> by congruence.
        assert (t' = Timestamp ev) as -> by congruence.
        unfold store. rewrite lookup_insert_eq, decide_True by done.
        rewrite merged_fold_rule. symmetry. by apply fold_group_snoc.
      * assert (r' ≠ r) as Hrr.
        { intros ->. apply Hne. by eapply NoDup_lookup. }
        assert (Timestamp ev ≠ t') as Htt.
        { intros <-. apply Hne.
          eapply NoDup_lookup; [apply NoDup_first_seen|done..]. }
        unfold store. rewrite lookup_insert_ne by done.
        rewrite decide_False by done. rewrite app_nil_r.
        exact (Forall2_lookup_lr _ _ _ _ _ _ Hgr Hr' Ht').
    + by rewrite Hfs.
    + intros l' Hl'. unfold store. rewrite lookup_insert_ne; [by apply Hfr|].
      intros <-. apply Hl'. by eapply list_elem_of_lookup_2.
  - (* a new timestamp *)
    assert (Hnin : Timestamp ev ∉ Timestamp <$> evs).
    { intros Hin. apply elem_of_first_seen, list_elem_of_lookup_1 in Hin
        as [idx Hin]. apply Hidx in Hin. congruence. }
    assert (Hfs : first_seen (Timestamp <$> evs ++ [ev])
                  = first_seen (Timestamp <$> evs) ++ [Timestamp ev]).
    { rewrite fmap_app. simpl. rewrite first_seen_snoc.
      by rewrite decide_False. }
    eexists h, (rl ++ [l]), _. split.
    { by rewrite fmap_app. }
    split; try done.
    + intros x Hx. apply elem_of_app in Hx as [Hx|Hx].
      * apply elem_of_app. left. by apply Hsub.
      * apply elem_of_app. by right.
    + apply NoDup_app. split; [done|]. split.
      * intros x Hx Hx'. apply list_elem_of_singleton in Hx'. by subst.
      * apply NoDup_singleton.
    + rewrite Hfs. apply Forall2_app.
      * apply Forall2_same_length_lookup. split; [done|].
        intros j r' t' Hr' Ht'. rewrite group_snoc.
        rewrite decide_False, app_nil_r;
          [exact (Forall2_lookup_lr _ _ _ _ _ _ Hgr Hr' Ht')|].
        intros <-. apply Hnin, elem_of_first_seen.
        by eapply list_elem_of_lookup_2.
      * repeat constructor. rewrite group_snoc, group_nil by done.
        by rewrite decide_True.
    + intros t idx. rewrite Hfs, lookup_snoc_Some.
      rewrite length_app, length_fmap. simpl.
      replace (List.length rl + 1 - 1) with (List.length rl) by lia.
      rewrite <- Hlen.
      destruct (decide (t = Timestamp ev)) as [->|Hne].
      * rewrite lookup_insert_eq. split.
        { intros [= <-]. by right. }
        intros [[_ Hi]|[-> _]]; [|done].
        exfalso. apply Hnin, elem_of_first_seen.
        by eapply list_elem_of_lookup_2.
      * rewrite lookup_insert_ne by done. rewrite Hidx. split.
        { intros Hi. left. split; [|done].
          rewrite Hlen. by eapply lookup_lt_Some. }
        intros [[_ Hi]|[_ ?]]; [done|congruence].
    + intros l' Hl'. apply Hfr. intros ?. apply Hl', elem_of_app. by left.
Qed.

(** The by-timestamp loop over a whole batch of distinct, allocated
    events. *)
Lemma by_ts_loop_inv h0 es : ∀ pre evs h rl tsm rest,
  loop_inv h0 pre evs h rl tsm →
  NoDup (pre ++ omap id es) →
  Forall2 (λ l ev, h0 !! l = Some ev) (omap id es) rest →
  ∃ h' rl' tsm',
    EventMerge.by_ts_loop h (Some <$> rl) tsm es = Some (h', Some <$> rl')
    ∧ loop_inv h0 (pre ++ omap id es) (evs ++ rest) h' rl' tsm'.
Proof.
  induction es as [|[l|] es IH]; intros pre evs h rl tsm rest Hinv Hnd Hrest;
    simpl in *.
  - inv Hrest. rewrite !app_nil_r. by eexists h, rl, tsm.
  - inv Hrest. rename y into ev.
    assert (Hl : l ∉ pre).
    { apply NoDup_app in Hnd as (_ & Hd & _). intros Hin.
      apply (Hd l Hin). by left. }
    destruct (by_ts_loop_step h0 pre evs h rl tsm l ev es Hinv Hl)
      as (h1 & rl1 & tsm1 & Hstep & Hinv1); [done|].
    simpl in Hstep. rewrite Hstep.
    rewrite (cons_middle l pre), (cons_middle ev evs), !app_assoc.
    apply IH; [done| |done]. by rewrite <- app_assoc.
  - by apply IH.
Qed.

(** The loop of the always mode: every later non-nil entry is folded
    into the first event, which is none of them. *)
Lemma always_loop_fold es : ∀ h l v i rest,
  h !! l = Some v → 0 < i → l ∉ omap id es →
  Forall2 (λ l' ev, h !! l' = Some ev) (omap id es) rest →
  EventMerge.always_loop h (Some l) i es
  = Some (<[l := foldl fold_rule v rest]> h).
Proof.
  induction es as [|[l'|] es IH]; intros h l v i rest Hl Hi Hnin Hrest;
    simpl in *.
  - inv Hrest. simpl. by rewrite insert_id.
  - apply Forall2_cons_inv_l in Hrest as (ev & rest' & Hev & Hrest & ->).
    apply not_elem_of_cons in Hnin as [Hne Hnin].
    rewrite bool_decide_eq_true_2 by done.
    unfold EventMerge.mergeEvents. simpl. rewrite Hl. simpl.
    rewrite Hev. simpl. unfold store.
    rewrite (IH _ l (EventMerge.merged v ev) (S i) rest').
    + by rewrite insert_insert_eq, merged_fold_rule.
    + by rewrite lookup_insert_eq.
    + lia.
    + done.
    + apply Forall2_same_length_lookup.
      split; [by eapply Forall2_length|].
      intros j x ev' Hx Hev'. rewrite lookup_insert_ne.
      * exact (Forall2_lookup_lr _ _ _ _ _ _ Hrest Hx Hev').
      * intros <-. apply Hnin. by eapply list_elem_of_lookup_2.
  - apply IH; [done|lia|done|done].
Qed.

End merge_facts.

Section merge_claims.
Import Formatters MergeSpec Examples.

Lemma Forall2_fmap_eq {A B C} (f : A → C) (g : B → C) l k :
  Forall2 (λ x y, f x = g y) l k → f <$> l = g <$> k.
Proof. induction 1 as [|x y l k Hxy _ IH]; [done|]. by rewrite !fmap_cons, Hxy, IH. Qed.

(** C2 as stated does not hold in always mode: the empty batch is
    returned as it is, not as a batch of one element. *)
Lemma merge_always_empty_batch :
  ¬ ∀ (h : gmap nat EventMsg) es,
      ∃ h' r, EventMerge.Apply (EventMerge.mk true) h es = Some (h', [r]).
Proof. intros H. destruct (H ∅ []) as (h' & r & Hr). discriminate. Qed.

(** C2, amended.  On a batch of distinct events (nil entries are passed
    over), whose events are [evs] in batch order:
    - in by-timestamp mode [Apply] returns, and the events behind the
      returned pointers are the groups of equal timestamp, in the order
      in which the timestamps first occur, each folded into its first
      member by the folding rule; the returned pointers are entries of
      the batch and no other event is modified;
    - in always mode, on a batch that starts with an event, [Apply]
      returns that single entry, which now holds the whole batch folded
      into its first event, and no other event is modified; the empty
      batch is returned empty. *)
Theorem merge_Apply_folds (h : gmap nat EventMsg) es evs :
  NoDup (omap id es) →
  Forall2 (λ l ev, h !! l = Some ev) (omap id es) evs →
  (∃ h' res,
     EventMerge.Apply (EventMerge.mk false) h es = Some (h', res)
     ∧ load h' <$> res = by_timestamp evs
     ∧ res ⊆ es
     ∧ ∀ l, Some l ∉ res → h' !! l = h !! l)
  ∧ (∀ l rest, es = Some l :: rest →
     ∃ h',
       EventMerge.Apply (EventMerge.mk true) h es = Some (h', [Some l])
       ∧ h' !! l = fold_group evs
       ∧ ∀ l', l' ≠ l → h' !! l' = h !! l')
  ∧ EventMerge.Apply (EventMerge.mk true) h [] = Some (h, []).
Proof.
  intros Hnd Hevs. split; [|split; [|done]].
  - destruct (by_ts_loop_inv h es [] [] h [] ∅ evs (loop_inv_init h))
      as (h' & rl & tsm & Hloop & [_ Hsub _ Hgr _ Hfr]); [done..|].
    simpl in *. exists h', (Some <$> rl). repeat split.
    + unfold EventMerge.Apply. simpl.
      destruct es; [|done]. simpl in Hloop. by inv Hloop.
    + rewrite <- list_fmap_compose. by apply Forall2_fmap_eq.
    + intros r Hr. apply list_elem_of_fmap in Hr as (l & -> & Hl).
      apply Hsub, list_elem_of_omap in Hl as (x & Hx & Hid).
      simpl in Hid. by subst.
    + intros l Hl. apply Hfr. intros Hin. apply Hl.
      apply list_elem_of_fmap. by exists l.
  - intros l rest ->. simpl in *.
    apply NoDup_cons in Hnd as [Hl Hnd].
    apply Forall2_cons_inv_l in Hevs as (ev & evs' & Hev & Hevs & ->).
    exists (<[l := foldl fold_rule ev evs']> h). repeat split.
    + unfold EventMerge.Apply. simpl.
      rewrite (always_loop_fold rest h l ev 1 evs') by (done || lia). done.
    + by rewrite lookup_insert_eq.
    + intros l' Hne. by rewrite lookup_insert_ne.
Qed.

Lemma merge_Apply_folds_witness :
  NoDup (omap id batch)
  ∧ Forall2 (λ l ev, store_batch !! l = Some ev) (omap id batch)
            [ev_a; ev_v; ev_b]
  ∧ (∃ h' res,
       EventMerge.Apply (EventMerge.mk false) store_batch batch
       = Some (h', res)
       ∧ load h' <$> res = [Some (fold_rule ev_a ev_v); Some ev_b]
       ∧ res ⊆ batch
       ∧ ∀ l, Some l ∉ res → h' !! l = store_batch !! l)
  ∧ (∀ l rest, batch = Some l :: rest →
     ∃ h',
       EventMerge.Apply (EventMerge.mk true) store_batch batch
       = Some (h', [Some l])
       ∧ h' !! l = Some (fold_rule (fold_rule ev_a ev_v) ev_b)
       ∧ ∀ l', l' ≠ l → h' !! l' = store_batch !! l')
  ∧ EventMerge.Apply (EventMerge.mk true) store_batch [] = Some (store_batch, []).
Proof.
  assert (H1 : NoDup (omap id batch)).
  { apply (bool_decide_unpack _). by vm_compute. }
  assert (H2 : Forall2 (λ l ev, store_batch !! l = Some ev) (omap id batch)
                       [ev_a; ev_v; ev_b]).
  { repeat constructor. }
  split; [exact H1|]. split; [exact H2|].
  exact (merge_Apply_folds store_batch batch [ev_a; ev_v; ev_b] H1 H2).
Defined.

End merge_claims.

(* ===================================================================== *)
(** * Nil entries *)
(* ===================================================================== *)

Section nil_entries.
Import Formatters Examples.

(** The override-timestamp and trigger processors and the by-timestamp
    mode of merge pass over a nil entry. *)
Lemma overrideTS_skips_nil o clock (h : gmap nat EventMsg) es :
  EventOverrideTS.Apply o clock h (None :: es)
  = (λ r, (r.1, None :: r.2)) <$> EventOverrideTS.Apply o clock h es.
Proof.
  unfold EventOverrideTS.Apply. simpl.
  by destruct (EventOverrideTS.Apply_loop o clock 0 h es).
Qed.

Lemma trigger_skips_nil p now (h : gmap nat EventMsg) es :
  EventTrigger.Apply p now h (None :: es)
  = (λ r, (r.1, None :: r.2)) <$> EventTrigger.Apply p now h es.
Proof.
  unfold EventTrigger.Apply. simpl.
  by destruct (EventTrigger.Apply_loop p now h [] es).
Qed.

Lemma merge_by_timestamp_skips_nil (h : gmap nat EventMsg) es e :
  EventMerge.Apply (EventMerge.mk false) h (None :: e :: es)
  = EventMerge.Apply (EventMerge.mk false) h (e :: es).
Proof. done. Qed.

(** C6, where the code departs from it.  The claim has every processor
    pass over nil entries.  The always mode of merge skips a nil entry
    only as the event to fold: when the first entry is nil and an event
    follows, [mergeEvents] is called with nil as its target and the
    call panics.  The drop processor without a condition reads the
    values of every entry, so a nil entry anywhere in the batch makes
    [Apply] panic. *)
Theorem nil_entry_panics :
  (∀ (h : gmap nat EventMsg) l rest,
     EventMerge.Apply (EventMerge.mk true) h (None :: Some l :: rest) = None)
  ∧ (∀ d (h : gmap nat EventMsg) es,
       EventDrop.Condition d = EmptyString → None ∈ es →
       EventDrop.Apply d h es = None).
Proof.
  split.
  - intros h l rest. reflexivity.
  - intros d h es Hc Hin. rewrite Apply_kept. apply kept_None.
    exists None. split; [done|]. unfold EventDrop.drop.
    rewrite bool_decide_eq_false_2; [done|]. rewrite Hc. by intros [].
Qed.

Lemma nil_entry_panics_witness :
  EventMerge.Apply (EventMerge.mk true) store_interface [None; Some 0] = None
  ∧ EventDrop.Apply drop_tag_names store_interface [Some 0; None] = None.
Proof.
  split.
  - exact (proj1 nil_entry_panics store_interface 0 []).
  - refine (proj2 nil_entry_panics drop_tag_names store_interface
                  [Some 0; None] _ _).
    + reflexivity.
    + right. left.
Defined.

End nil_entries.

(* ===================================================================== *)
(** * The trigger processor *)
(* ===================================================================== *)

Section trigger_facts.
Import EventTrigger TriggerSpec.
Local Open Scope Z_scope.
Implicit Types (p : EventTrigger.t) (hist : list Z) (now lb : Z).

Lemma setDefaults_configured p p' : setDefaults p = Some p' → configured p'.
Proof.
  unfold setDefaults, configured.
  repeat case_bool_decide; intros [= <-]; simpl; unfold Minute; lia.
Qed.

(** On times in ascending order the window keeps a final segment. *)
Lemma filter_window_sorted w now (l : list Z) :
  StronglySorted Z.le l →
  ∃ j : nat, filter (in_window w now) l = drop j l
             ∧ Forall (λ t, t + w ≤ now) (take j l).
Proof.
  induction 1 as [|x l Hl [j [IH1 IH2]] Hx].
  - by exists 0%nat.
  - destruct (decide (in_window w now x)) as [Hin|Hout].
    + exists 0%nat. split; [|by constructor]. simpl.
      rewrite filter_cons_True by done. f_equal.
      clear Hl IH1 IH2. induction Hx as [|y l Hy _ IH]; [done|].
      rewrite filter_cons_True by (unfold in_window in *; lia).
      by rewrite IH.
    + exists (S j). simpl. rewrite filter_cons_False by done.
      split; [done|]. constructor; [|done]. unfold in_window in Hout. lia.
Qed.

Lemma filter_window_out w now (l : list Z) :
  Forall (λ t, t + w ≤ now) l → filter (in_window w now) l = [].
Proof.
  induction 1 as [|x l Hx _ IH]; [done|].
  rewrite filter_cons_False by (unfold in_window; lia). done.
Qed.

(** [evalOccurrencesWithinWindow] with its three exits put together. *)
Lemma eval_unfold p now :
  let times := filter (in_window (Window p) now) (occurrencesTimes p)
               ++ [now] in
  let num := Z.of_nat (List.length times) in
  let times' := if bool_decide (MaxOccurrences p < num)
                then drop (Z.to_nat (num - MaxOccurrences p - 1)) times
                else times in
  let num' := Z.of_nat (List.length times') in
  let b := bool_decide (MinOccurrences p ≤ num' ∧ num' ≤ MaxOccurrences p)
           || bool_decide (MinOccurrences p < num'
                           ∧ lastTrigger p + Window p < now) in
  evalOccurrencesWithinWindow p now
  = (mk (Condition p) (MinOccurrences p) (MaxOccurrences p) (Window p)
        (Async p) times' (if b then now else lastTrigger p) (code p), b).
Proof.
  unfold evalOccurrencesWithinWindow. cbv zeta.
  repeat case_bool_decide; reflexivity.
Qed.

(** One call of [evalOccurrencesWithinWindow] at a time not before the
    previous ones. *)
Lemma eval_step p hist lb now :
  configured p → window_inv p hist lb → lb ≤ now →
  ∃ p' (b : bool),
    evalOccurrencesWithinWindow p now = (p', b)
    ∧ same_config p p'
    ∧ window_inv p' (hist ++ [now]) now
    ∧ lastTrigger p' = (if b then now else lastTrigger p)
    ∧ (b = true ↔ in_range p (window_count (Window p) hist now)
                  ∨ overdue p (lastTrigger p)
                            (window_count (Window p) hist now) now).
Proof.
  intros (Hmin & Hmm & Hw) [(older & Hh & Hold) Hsort Hbound] Hlb.
  assert (HsortS : StronglySorted Z.le (occurrencesTimes p)).
  { rewrite Hh in Hsort. by apply StronglySorted_app_1_r in Hsort. }
  destruct (filter_window_sorted (Window p) now _ HsortS) as (j & Hf & Hout).
  assert (Holder : Forall (λ t, t + Window p ≤ now) older
                   ∨ (j = 0%nat
                      ∧ Z.of_nat (List.length (occurrencesTimes p))
                        = MaxOccurrences p + 1)).
  { destruct Hold as [Hfull|Hold].
    - destruct j as [|j]; [by right|]. left.
      destruct (occurrencesTimes p) as [|x S] eqn:HS; [simpl in Hfull; lia|].
      simpl in Hout. apply Forall_cons in Hout as [Hx _].
      apply Forall_forall. intros y Hy.
      assert (y ≤ x).
      { rewrite Hh in Hsort.
        apply (StronglySorted_app_1_elem_of Z.le older (x :: S) y x Hsort);
          [done|by left]. }
      lia.
    - left. eapply Forall_impl; [exact Hold|]. simpl. lia. }
  assert (Hc : window_count (Window p) hist now
               = Z.of_nat (List.length (filter (in_window (Window p) now) older))
                 + Z.of_nat (List.length (drop j (occurrencesTimes p))) + 1).
  { unfold window_count. rewrite Hh, filter_app, List.length_app, Hf. lia. }
  pose proof (eval_unfold p now) as He. cbv zeta in He. rewrite Hf in He.
  set (times := drop j (occurrencesTimes p) ++ [now]) in *.
  assert (Hlt : Z.of_nat (List.length times)
                = Z.of_nat (List.length (drop j (occurrencesTimes p))) + 1).
  { unfold times. rewrite List.length_app. simpl. lia. }
  assert (Hsplit : hist ++ [now] = (older ++ take j (occurrencesTimes p)) ++ times).
  { unfold times. rewrite Hh, <- !app_assoc. f_equal.
    by rewrite app_assoc, take_drop. }
  assert (Hsort' : StronglySorted Z.le (hist ++ [now])).
  { apply StronglySorted_app. split; [|split; [done|repeat constructor]].
    intros x1 x2 Hx1 Hx2. apply list_elem_of_singleton in Hx2 as ->.
    rewrite Forall_forall in Hbound. specialize (Hbound _ Hx1). lia. }
  assert (Hbound' : Forall (λ t, t ≤ now) (hist ++ [now])).
  { apply Forall_app. split; [|by repeat constructor].
    eapply Forall_impl; [exact Hbound|]. simpl. lia. }
  eexists _, _. split; [exact He|]. clear He.
  split; [done|].
  destruct (bool_decide (MaxOccurrences p < Z.of_nat (List.length times)))
    eqn:Htr.
  - (* more than MaxOccurrences: the list is cut to MaxOccurrences + 1 *)
    apply bool_decide_eq_true in Htr.
    set (k := Z.to_nat (Z.of_nat (List.length times) - MaxOccurrences p - 1)).
    assert (Hlen : Z.of_nat (List.length (drop k times)) = MaxOccurrences p + 1).
    { rewrite length_drop. lia. }
    rewrite Hlen.
    rewrite (bool_decide_eq_false_2 (_ ∧ MaxOccurrences p + 1 ≤ _)) by lia.
    simpl. split; [|split].
    + split; simpl; [|done..]. eexists. split.
      * rewrite Hsplit, <- (take_drop k times) at 1.
        rewrite app_assoc. reflexivity.
      * by left.
    + done.
    + unfold in_range, overdue. rewrite bool_decide_eq_true.
      pose proof (Zle_0_nat
        (List.length (filter (in_window (Window p) now) older))). lia.
  - (* at most MaxOccurrences: nothing is forgotten but what left *)
    apply bool_decide_eq_false in Htr.
    destruct Holder as [Holder|[-> Hfull]];
      [|rewrite drop_0 in Hlt; lia].
    rewrite (filter_window_out _ _ _ Holder) in Hc. simpl in Hc.
    split; [|split].
    + split; simpl; [|done..]. eexists. split; [exact Hsplit|].
      right. apply Forall_app. split; [done|]. done.
    + done.
    + unfold in_range, overdue. rewrite orb_true_iff, !bool_decide_eq_true. lia.
Qed.

Lemma same_config_configured p p' :
  same_config p p' → configured p → configured p'.
Proof. unfold same_config, configured. by intros (-> & -> & ->). Qed.

(** The invariant holds along every run over ascending times. *)
Lemma run_inv hist : ∀ p pre lb,
  configured p → window_inv p pre lb → StronglySorted Z.le (lb :: hist) →
  ∃ lb', same_config p (run p hist).1
         ∧ window_inv (run p hist).1 (pre ++ hist) lb'
         ∧ ∀ now, StronglySorted Z.le (lb :: hist ++ [now]) → lb' ≤ now.
Proof.
  induction hist as [|now hist IH]; intros p pre lb Hcfg Hinv Hsort.
  - exists lb. simpl. rewrite app_nil_r. split; [done|]. split; [done|].
    intros now Hs. apply StronglySorted_cons in Hs as [Hs _].
    by apply Forall_cons in Hs as [? _].
  - assert (Hlb : lb ≤ now).
    { apply StronglySorted_cons in Hsort as [Hs _].
      by apply Forall_cons in Hs as [? _]. }
    destruct (eval_step p pre lb now Hcfg Hinv Hlb)
      as (p1 & b & He & Hsame & Hinv1 & _).
    destruct (IH p1 (pre ++ [now]) now) as (lb' & Hsame' & Hinv' & Hlb').
    + by apply (same_config_configured p).
    + done.
    + by apply StronglySorted_cons in Hsort as [_ ?].
    + simpl. rewrite He. destruct (run p1 hist) as [p2 bs] eqn:Hrun.
      simpl in *. exists lb'. split; [|split].
      * destruct Hsame as (? & ? & ?), Hsame' as (? & ? & ?).
        repeat split; congruence.
      * by rewrite (cons_middle now pre hist), app_assoc.
      * intros now' Hs. apply Hlb'.
        by apply StronglySorted_cons in Hs as [_ ?].
Qed.

Lemma run_lastTrigger hist : ∀ p,
  lastTrigger (run p hist).1 = last_fired p hist.
Proof.
  unfold last_fired.
  induction hist as [|now hist IH]; intros p; [done|].
  simpl. pose proof (eval_unfold p now) as He. cbv zeta in He.
  destruct (evalOccurrencesWithinWindow p now) as [p1 b].
  specialize (IH p1). destruct (run p1 hist) as [p2 bs]. simpl in *.
  assert (Hlast : lastTrigger p1 = if b then now else lastTrigger p).
  { by inv He. }
  rewrite IH, Hlast. destruct b; [|done].
  rewrite last_cons. by destruct (last (fired hist bs)).
Qed.

(** [Apply] on an event whose condition holds is one call of
    [evalOccurrencesWithinWindow], and the event goes to the actions
    exactly when that call answers true. *)
Lemma trigger_Apply_single p now (h : gmap nat Formatters.EventMsg) l ev :
  h !! l = Some ev →
  Formatters.CheckCondition (code p) (Some ev) = (true, None) →
  EventTrigger.Apply p now h [Some l]
  = Some ((evalOccurrencesWithinWindow p now).1,
          if (evalOccurrencesWithinWindow p now).2 then [l] else [],
          [Some l]).
Proof.
  intros Hl Hc. unfold EventTrigger.Apply. simpl. rewrite Hl. simpl.
  rewrite Hc. by destruct (evalOccurrencesWithinWindow p now) as [p' []].
Qed.

End trigger_facts.

Section trigger_claims.
Import EventTrigger TriggerSpec Examples.
Local Open Scope Z_scope.

(** C4 as stated does not hold: the trigger of the example, with two
    occurrences required and two allowed in a window of 10, fires at
    101 and again at 112, when the occurrences at 105, 106 and 112 are
    in the window, one more than allowed. *)
Lemma trigger_fires_above_max :
  ¬ ∀ p hist now,
      configured p → occurrencesTimes p = [] →
      StronglySorted Z.le (hist ++ [now]) →
      (evalOccurrencesWithinWindow (run p hist).1 now).2 = true
      ↔ in_range p (window_count (Window p) hist now).
Proof.
  intros H.
  assert (Hs : StronglySorted Z.le ([100; 101; 105; 106] ++ [112])).
  { apply (bool_decide_unpack _). by vm_compute. }
  destruct (H trigger_2_2 [100; 101; 105; 106] 112) as [H1 _].
  - unfold configured. simpl. lia.
  - done.
  - exact Hs.
  - assert (Hfire : (evalOccurrencesWithinWindow
                       (run trigger_2_2 [100; 101; 105; 106]).1 112).2 = true)
      by (by vm_compute).
    destruct (H1 Hfire) as [_ Hmax]. vm_compute in Hmax. by apply Hmax.
Qed.

(** C4, amended.  A configured trigger is fed the times of the
    occurrences of its condition in ascending order.  With [c] the
    number of occurrences in the window that ends at [now], it fires at
    [now] exactly when [c] is between [MinOccurrences] and
    [MaxOccurrences], or when [c] is above [MaxOccurrences] and the
    last firing is more than a window before [now].  In particular it
    fires whenever [c] is in the interval and never when [c] is below
    [MinOccurrences]. *)
Theorem trigger_fires_iff p hist now :
  configured p → occurrencesTimes p = [] →
  StronglySorted Z.le (hist ++ [now]) →
  let c := window_count (Window p) hist now in
  ((evalOccurrencesWithinWindow (run p hist).1 now).2 = true
   ↔ in_range p c ∨ overdue p (last_fired p hist) c now)
  ∧ (in_range p c →
     (evalOccurrencesWithinWindow (run p hist).1 now).2 = true)
  ∧ (c < MinOccurrences p →
     (evalOccurrencesWithinWindow (run p hist).1 now).2 = false).
Proof.
  intros Hcfg Hnil Hsort c.
  set (lb := default now (head hist)).
  assert (Hsort' : StronglySorted Z.le (lb :: hist ++ [now])).
  { apply StronglySorted_cons. split; [|done]. unfold lb.
    destruct hist as [|t hist]; simpl in *.
    - by repeat constructor.
    - apply StronglySorted_cons in Hsort as [Hs _].
      constructor; [lia|done]. }
  assert (Hinv0 : window_inv p [] lb).
  { split; [|constructor|constructor]. exists []. split; [by rewrite Hnil|].
    right. constructor. }
  destruct (run_inv hist p [] lb Hcfg Hinv0) as (lb' & Hsame & Hinv & Hlb).
  { apply StronglySorted_cons in Hsort' as [Hf Hs].
    apply StronglySorted_cons. split.
    - by apply Forall_app in Hf as [? _].
    - by apply StronglySorted_app_1_l in Hs. }
  simpl in Hinv.
  destruct (eval_step (run p hist).1 hist lb' now) as
    (p' & b & He & _ & _ & _ & Hiff).
  { by apply (same_config_configured p). }
  { done. }
  { by apply Hlb. }
  rewrite He. simpl. rewrite run_lastTrigger in Hiff.
  destruct Hsame as (Hmin & Hmax & Hw).
  assert (Hiff' : b = true ↔ in_range p c
                             ∨ overdue p (last_fired p hist) c now).
  { rewrite Hiff. unfold in_range, overdue, c. by rewrite Hmin, Hmax, Hw. }
  split; [done|]. split.
  - intros Hin. apply Hiff'. by left.
  - intros Hlt. destruct b; [|done]. exfalso.
    destruct Hcfg as (? & ? & ?).
    destruct (proj1 Hiff' eq_refl) as [[? ?]|[? ?]]; lia.
Qed.

Lemma trigger_fires_iff_witness :
  configured trigger_2_2
  ∧ occurrencesTimes trigger_2_2 = []
  ∧ StronglySorted Z.le ([100; 101; 105; 106] ++ [112])
  ∧ ((evalOccurrencesWithinWindow
        (run trigger_2_2 [100; 101; 105; 106]).1 112).2 = true
     ↔ in_range trigger_2_2 3 ∨ overdue trigger_2_2 101 3 112).
Proof.
  assert (H1 : configured trigger_2_2) by (unfold configured; simpl; lia).
  assert (H3 : StronglySorted Z.le ([100; 101; 105; 106] ++ [112])).
  { apply (bool_decide_unpack _). by vm_compute. }
  split; [exact H1|]. split; [reflexivity|]. split; [exact H3|].
  exact (proj1 (trigger_fires_iff trigger_2_2 [100; 101; 105; 106] 112
                                  H1 eq_refl H3)).
Defined.

End trigger_claims.

(* ===================================================================== *)
(** * The target diff *)
(* ===================================================================== *)

Section diff_claims.
Import Types Loaders Examples.
Local Open Scope string_scope.
Local Open Scope list_scope.
Implicit Types (A B : gmap string TargetConfig).

Lemma Diff_Add_lookup m1 m2 k c :
  Add (Diff m1 m2) !! k = Some c
  ↔ default ∅ m2 !! k = Some c
    ∧ (default ∅ m1 !! k = None ∨ default ∅ m1 !! k ≠ Some c).
Proof.
  unfold Diff. simpl. rewrite map_lookup_filter_Some. simpl.
  by rewrite not_elem_of_dom.
Qed.

Lemma Diff_Del_elem_of m1 m2 k :
  k ∈ Del (Diff m1 m2)
  ↔ ∃ c, default ∅ m1 !! k = Some c
         ∧ (default ∅ m2 !! k = None ∨ default ∅ m2 !! k ≠ Some c).
Proof.
  unfold Diff. simpl. rewrite elem_of_dom. unfold is_Some.
  apply exist_proper. intros c.
  rewrite map_lookup_filter_Some. simpl. by rewrite not_elem_of_dom.
Qed.

(** A target whose configuration changed is deleted and added. *)
Lemma Diff_changed t (c c' : TargetConfig) :
  c ≠ c' → Diff (Some {[t := c]}) (Some {[t := c']}) = mkOp {[t := c']} {[t]}.
Proof.
  intros Hne. unfold Diff. simpl. f_equal.
  - apply map_eq. intros k. apply option_eq. intros x.
    rewrite map_lookup_filter_Some. simpl.
    rewrite !lookup_singleton_Some, not_elem_of_dom.
    rewrite lookup_singleton_None.
    split; [by intros [? _]|]. intros [-> <-]. split; [done|].
    right. by intros [_ ?].
  - apply set_eq. intros k. rewrite elem_of_dom, elem_of_singleton.
    unfold is_Some. split.
    + intros (x & Hx). apply map_lookup_filter_Some in Hx as [Hx _].
      by apply lookup_singleton_Some in Hx as [? _].
    + intros ->. exists c.
      apply map_lookup_filter_Some. split; [by rewrite lookup_singleton_eq|].
      simpl. right. rewrite lookup_singleton_eq. congruence.
Qed.

(** The table [testSet] of loaders_test.go, entries t1 to t13. *)
Lemma Diff_testSet :
  Diff None None = mkOp ∅ ∅
  ∧ Diff None (Some {["target1" := named "target1"]})
    = mkOp {["target1" := named "target1"]} ∅
  ∧ Diff (Some {["target1" := named "target1"]})
         (Some {["target1" := named "target1"]}) = mkOp ∅ ∅
  ∧ Diff (Some {["target1" := named "target1"; "target2" := named "target2"]})
         (Some {["target1" := named "target1"; "target2" := named "target2"]})
    = mkOp ∅ ∅
  ∧ Diff (Some {["target1" := named "target1"]}) None = mkOp ∅ {["target1"]}
  ∧ Diff (Some {["target1" := named "target1"]})
         (Some {["target1" := named "target1"; "target2" := named "target2"]})
    = mkOp {["target2" := named "target2"]} ∅
  ∧ Diff (Some {["target1" := named "target1"]})
         (Some {["target2" := named "target2"]})
    = mkOp {["target2" := named "target2"]} {["target1"]}
  ∧ Diff (Some {["target1" := named "target1"]})
         (Some {["target2" := named "target2"; "target3" := named "target3"]})
    = mkOp {["target2" := named "target2"; "target3" := named "target3"]}
           {["target1"]}
  ∧ Diff (Some {["target1" := named "target1"; "target2" := named "target2"]})
         (Some {["target2" := named "target2"; "target3" := named "target3"]})
    = mkOp {["target3" := named "target3"]} {["target1"]}
  ∧ Diff (Some {["target1" := addressed "ip1"; "target2" := addressed "ip2"]})
         (Some {["target1" := addressed "ip1";
                 "target2" := addressed "ip2new"]})
    = mkOp {["target2" := addressed "ip2new"]} {["target2"]}
  ∧ Diff (Some {["target1" := tagged "target1" ["a"]]})
         (Some {["target1" := tagged "target1" ["a"; "b"]]})
    = mkOp {["target1" := tagged "target1" ["a"; "b"]]} {["target1"]}
  ∧ Diff (Some ∅) (Some ∅) = mkOp ∅ ∅
  ∧ Diff (Some {["target1" := tagged "target1" ["a"; "b"]]})
         (Some {["target1" := tagged "target1" ["b"; "a"]]})
    = mkOp {["target1" := tagged "target1" ["b"; "a"]]} {["target1"]}.
Proof. repeat split; by vm_compute. Qed.

(** C1.  For all target maps [m1] (previous) and [m2] (new), with [A]
    and [B] the maps they denote (a nil map denotes the empty map):
    [Add] holds the entries of [B] whose key is not in [A] or has
    another configuration in [A], [Del] the keys of [A] that are not in
    [B] or have another configuration in [B]; comparing a map with
    itself gives an empty [Add] and an empty [Del]; a nil map gives
    what the empty map gives; and a target whose tags are reordered is
    in both [Add] and [Del]. *)
Theorem Diff_spec :
  (∀ m1 m2 k c,
     Add (Diff m1 m2) !! k = Some c
     ↔ default ∅ m2 !! k = Some c
       ∧ (default ∅ m1 !! k = None ∨ default ∅ m1 !! k ≠ Some c))
  ∧ (∀ m1 m2 k,
       k ∈ Del (Diff m1 m2)
       ↔ ∃ c, default ∅ m1 !! k = Some c
              ∧ (default ∅ m2 !! k = None ∨ default ∅ m2 !! k ≠ Some c))
  ∧ (∀ m, Diff m m = mkOp ∅ ∅)
  ∧ (∀ m, Diff None m = Diff (Some ∅) m ∧ Diff m None = Diff m (Some ∅))
  ∧ (∀ t c c', c ≠ c' →
       Diff (Some {[t := c]}) (Some {[t := c']}) = mkOp {[t := c']} {[t]})
  ∧ (∀ t n a b, a ≠ b →
       Diff (Some {[t := tagged n [a; b]]}) (Some {[t := tagged n [b; a]]})
       = mkOp {[t := tagged n [b; a]]} {[t]}).
Proof.
  split; [exact Diff_Add_lookup|]. split; [exact Diff_Del_elem_of|].
  split; [|split; [|split]].
  - intros m.
    assert (HA : Add (Diff m m) = ∅).
    { apply map_empty. intros k.
      destruct (Add (Diff m m) !! k) as [c|] eqn:Hk; [|done].
      apply Diff_Add_lookup in Hk as [Hk [Hn|Hn]]; congruence. }
    assert (HD : Del (Diff m m) = ∅).
    { apply set_eq. intros k. rewrite Diff_Del_elem_of. split.
      - intros (c & Hk & [Hn|Hn]); congruence.
      - intros Hk. by apply not_elem_of_empty in Hk. }
    destruct (Diff m m) as [add del]. simpl in *. by subst.
  - done.
  - apply Diff_changed.
  - intros t n a b Hab. apply Diff_changed.
    unfold tagged. intros [=]. done.
Qed.

End diff_claims.

(* ===================================================================== *)
(** * The admin API *)
(* ===================================================================== *)

Section api_claims.
Import Api Examples.
Local Open Scope string_scope.
Local Open Scope list_scope.

(** C7.  On a clustered instance that is not the leader, each of the
    three leader-only operations answers 400 with the body
    [{"errors":["not leader"]}], and neither calls the coordination
    service nor starts a drain or a rebalance. *)
Theorem leader_only_refused a env id :
  Clustering a ≠ None → isLeader a = false →
  let refusal := fail StatusBadRequest "not leader" w0 in
  handleClusteringLeaderDelete a env = (refusal, [])
  ∧ handleClusterRebalance a env = (refusal, [])
  ∧ handleClusteringDrainInstance a env id = (refusal, [])
  ∧ status refusal = 400
  ∧ written refusal = [APIErrors ["not leader"]].
Proof.
  intros Hc Hl.
  unfold handleClusteringLeaderDelete, handleClusterRebalance,
    handleClusteringDrainInstance.
  destruct (Clustering a); [|done]. rewrite Hl. simpl. done.
Qed.

Lemma leader_only_refused_witness :
  Clustering follower ≠ None
  ∧ isLeader follower = false
  ∧ handleClusteringLeaderDelete follower env_up
    = (fail StatusBadRequest "not leader" w0, [])
  ∧ handleClusterRebalance follower env_up
    = (fail StatusBadRequest "not leader" w0, [])
  ∧ handleClusteringDrainInstance follower env_up "b"
    = (fail StatusBadRequest "not leader" w0, [])
  ∧ status (fail StatusBadRequest "not leader" w0) = 400
  ∧ written (fail StatusBadRequest "not leader" w0)
    = [APIErrors ["not leader"]].
Proof.
  assert (H1 : Clustering follower ≠ None) by discriminate.
  split; [exact H1|]. split; [reflexivity|].
  exact (leader_only_refused follower env_up "b" H1 eq_refl).
Defined.

(** The leader, when it is asked, does act. *)
Lemma leader_only_performed a env c :
  Clustering a = Some c → isLeader a = true →
  (handleClusteringLeaderDelete a env).2 = [CallUnlock (leaderKey a)]
  ∧ handleClusterRebalance a env = (w0, [GoRebalance]).
Proof.
  intros Hc Hl. unfold handleClusteringLeaderDelete, handleClusterRebalance.
  rewrite Hc, Hl. simpl. by destruct (Unlock env (leaderKey a)).
Qed.

(** The loop of [handleConfigTargetsGet]: every target of [m] gets a
    redacted copy at a new address, and what was stored stays. *)
Lemma copy_redacted_fold (st : gmap nat Types.TargetConfig)
      (m : gmap string nat) :
  (∀ n l, m !! n = Some l → is_Some (st !! l)) →
  ∃ targets st',
    map_fold copy_redacted (Some (∅, st)) m = Some (targets, st')
    ∧ st ⊆ st'
    ∧ (∀ n l, targets !! n = Some l → is_Some (st' !! l))
    ∧ ∀ n, targets !! n ≫= (st' !!.)
           = (λ tc, Types.set_Password tc redacted) <$> (m !! n ≫= (st !!.)).
Proof.
  apply (map_fold_weak_ind
           (λ r (m : gmap string nat),
              (∀ n l, m !! n = Some l → is_Some (st !! l)) →
              ∃ targets st',
                r = Some (targets, st') ∧ st ⊆ st'
                ∧ (∀ n l, targets !! n = Some l → is_Some (st' !! l))
                ∧ ∀ n, targets !! n ≫= (st' !!.)
                       = (λ tc, Types.set_Password tc redacted)
                           <$> (m !! n ≫= (st !!.)))).
  - intros _. exists ∅, st. split; [done|]. split; [done|]. split.
    + intros n l. by rewrite lookup_empty.
    + intros n. by rewrite !lookup_empty.
  - intros n l m' r Hn IH Halloc.
    destruct IH as (targets & st' & -> & Hsub & Hdom & Hred).
    { intros n' l' Hl'. apply (Halloc n' l').
      rewrite lookup_insert_ne; [done|]. intros <-. congruence. }
    destruct (Halloc n l) as [tc Htc]; [by rewrite lookup_insert_eq|].
    assert (Htc' : st' !! l = Some tc) by (by eapply lookup_weaken).
    set (l' := fresh (dom st')).
    assert (Hfresh : st' !! l' = None).
    { apply not_elem_of_dom, is_fresh. }
    unfold copy_redacted, Types.DeepCopy. simpl. rewrite Htc'. simpl.
    fold l'. rewrite lookup_insert_eq. simpl. rewrite insert_insert_eq.
    eexists _, _. split; [reflexivity|]. split; [|split].
    + etrans; [exact Hsub|]. by apply insert_subseteq.
    + intros n' l0. destruct (decide (n = n')) as [<-|Hne].
      * rewrite lookup_insert_eq. intros [= <-]. by rewrite lookup_insert_eq.
      * rewrite lookup_insert_ne by done. intros Hl0.
        destruct (Hdom _ _ Hl0) as [tc0 Htc0]. exists tc0.
        rewrite lookup_insert_ne; [done|]. intros <-. congruence.
    + intros n'. destruct (decide (n = n')) as [<-|Hne].
      * rewrite !lookup_insert_eq. simpl. rewrite lookup_insert_eq.
        by rewrite Htc.
      * rewrite !(lookup_insert_ne _ n n') by done. rewrite <- Hred.
        destruct (targets !! n') as [l0|] eqn:Hl0; [|done]. simpl.
        rewrite lookup_insert_ne; [done|]. intros <-.
        destruct (Hdom _ _ Hl0) as [tc0 Htc0]. congruence.
Qed.

(** C8.  With every configured target allocated,
    [handleConfigTargetsGet] returns, and every target configuration
    stored before the call is stored unchanged after it, password
    included.  Without an id the answer is 200 with the map of all
    targets, each with the password [****] and otherwise as stored;
    with the id of a configured target it is 200 with that target,
    redacted in the same way; with any other id it is 404 with an
    errors body. *)
Theorem config_targets_redacted a (st : gmap nat Types.TargetConfig) id :
  (∀ n l, Targets a !! n = Some l → is_Some (st !! l)) →
  ∃ w st',
    handleConfigTargetsGet a st id = Some (w, st')
    ∧ (∀ l tc, st !! l = Some tc → st' !! l = Some tc)
    ∧ (id = EmptyString →
       ∃ m, w = Write (TargetsBody m) w0 ∧ status w = 200
            ∧ (∀ n, m !! n = (λ tc, Types.set_Password tc redacted)
                               <$> (Targets a !! n ≫= (st !!.)))
            ∧ ∀ n tc, m !! n = Some tc → Types.Password tc = Some "****")
    ∧ (∀ l tc, id ≠ EmptyString → Targets a !! id = Some l →
               st !! l = Some tc →
               w = Write (TargetBody (Types.set_Password tc redacted)) w0
               ∧ status w = 200)
    ∧ (id ≠ EmptyString → Targets a !! id = None →
       w = fail StatusNotFound (not_found id) w0
       ∧ status w = 404 ∧ written w = [APIErrors [not_found id]]).
Proof.
  intros Halloc. unfold handleConfigTargetsGet.
  destruct (String.eqb_spec id EmptyString) as [->|Hid].
  - destruct (copy_redacted_fold st (Targets a) Halloc)
      as (targets & st' & -> & Hsub & _ & Hred).
    simpl. eexists _, st'. split; [reflexivity|]. split.
    { intros l tc Hl. by eapply lookup_weaken. }
    split; [|split; [done|done]].
    intros _. eexists. split; [reflexivity|]. split; [done|].
    assert (Hm : ∀ n, deref_targets st' targets !! n
                      = (λ tc, Types.set_Password tc redacted)
                          <$> (Targets a !! n ≫= (st !!.))).
    { intros n. unfold deref_targets. by rewrite lookup_omap, Hred. }
    split; [done|]. intros n tc. rewrite Hm.
    destruct (Targets a !! n ≫= (st !!.)); simpl; [|done].
    by intros [= <-].
  - destruct (Targets a !! id) as [t|] eqn:Ht.
    + destruct (Halloc _ _ Ht) as [tc Htc].
      unfold Types.DeepCopy. rewrite Htc. simpl.
      rewrite lookup_insert_eq. simpl. rewrite lookup_insert_eq. simpl.
      rewrite insert_insert_eq.
      eexists _, _. split; [reflexivity|]. split.
      { intros l tc' Hl. rewrite lookup_insert_ne; [done|]. intros <-.
        pose proof (is_fresh (dom st)) as Hf.
        apply not_elem_of_dom in Hf. congruence. }
      split; [done|]. split; [|done].
      intros l tc' _ [= <-] Hl. by assert (tc' = tc) as -> by congruence.
    + eexists _, st. split; [reflexivity|]. split; [done|].
      split; [done|]. split; [done|]. done.
Qed.

Lemma config_targets_redacted_witness :
  (∀ n l, Targets app_router !! n = Some l → is_Some (store_router !! l))
  ∧ ∃ w st',
      handleConfigTargetsGet app_router store_router "router1" = Some (w, st')
      ∧ st' !! 0 = Some router
      ∧ w = Write (TargetBody (Types.set_Password router (Some "****"))) w0.
Proof.
  assert (H : ∀ n l, Targets app_router !! n = Some l
                     → is_Some (store_router !! l)).
  { intros n l Hn. unfold app_router in Hn. simpl in Hn.
    apply lookup_singleton_Some in Hn as [_ <-]. by exists router. }
  split; [exact H|].
  destruct (config_targets_redacted app_router store_router "router1" H)
    as (w & st' & He & Hst & _ & Hid & _).
  exists w, st'. split; [exact He|]. split.
  - by apply Hst.
  - by apply (Hid 0 router).
Defined.

(** C5 as stated does not hold: when the service listing fails while
    the other queries answer, the cluster view answers 500. *)
Lemma cluster_view_fails_with_services :
  ¬ ∀ a env,
      Clustering a ≠ None →
      (∃ err, GetServices env (api_service a) [] = inl err) →
      status (handleClusteringGet a env) = StatusOK.
Proof.
  intros H. specialize (H follower env_services_down).
  assert (Hs : status (handleClusteringGet follower env_services_down) = 500)
    by reflexivity.
  rewrite H in Hs; [discriminate|discriminate|].
  by exists "connection refused".
Qed.

(** C5, amended.  On a clustered instance each of the three cluster
    views
    - answers 500 with the error as its body when the service listing
      fails, and when the listing of the target locks fails;
    - goes on with an empty leader name when the leader lookup fails:
      if the two other queries answer, it answers 200 with the view
      computed for the empty leader name, and the error is reported
      nowhere. *)
Theorem cluster_views_on_failure a env c :
  Clustering a = Some c →
  let views := [handleClusteringGet a env; handleClusteringMembersGet a env;
                handleClusteringLeaderGet a env] in
  (∀ err, GetServices env (api_service a) [] = inl err →
          Forall (λ w, w = fail StatusInternalServerError err w0
                       ∧ status w = 500 ∧ written w = [APIErrors [err]])
                 views)
  ∧ (∀ services err,
       GetServices env (api_service a) [] = inr services →
       getInstanceToTargetsMapping env = inl err →
       Forall (λ w, w = fail StatusInternalServerError err w0
                    ∧ status w = 500 ∧ written w = [APIErrors [err]])
              views)
  ∧ (∀ err services nodes,
       List env ("gnmic/" +:+ ClusterName a +:+ "/leader") = inl err →
       GetServices env (api_service a) [] = inr services →
       getInstanceToTargetsMapping env = inr nodes →
       getLeaderName a env = (EmptyString, None)
       ∧ Forall (λ w, status w = 200
                      ∧ ∀ errs, APIErrors errs ∉ written w) views
       ∧ written (handleClusteringGet a env)
         = [ClusterBody
              (clusteringResponse.mk
                 (ClusterName a)
                 (map_fold (λ _ v n, n + List.length v) 0 nodes) EmptyString
                 (member EmptyString nodes <$> services))]
       ∧ written (handleClusteringMembersGet a env)
         = [MembersBody (member EmptyString nodes <$> services)]).
Proof.
  intros Hc views. unfold views.
  unfold handleClusteringGet, handleClusteringMembersGet,
    handleClusteringLeaderGet, cluster_queries, getLeaderName.
  rewrite Hc. split; [|split].
  - intros err ->.
    destruct (List env _); simpl; repeat constructor.
  - intros services err -> ->.
    destruct (List env _); simpl; repeat constructor.
  - intros err services nodes -> -> ->. simpl.
    split; [done|]. split; [|done].
    repeat constructor; intros errs Hin;
      apply list_elem_of_singleton in Hin; discriminate.
Qed.

Lemma cluster_views_on_failure_witness :
  Clustering follower = Some "lab"
  ∧ GetServices env_services_down (api_service follower) []
    = inl "connection refused"
  ∧ Forall (λ w, w = fail StatusInternalServerError "connection refused" w0
                 ∧ status w = 500
                 ∧ written w = [APIErrors ["connection refused"]])
           [handleClusteringGet follower env_services_down;
            handleClusteringMembersGet follower env_services_down;
            handleClusteringLeaderGet follower env_services_down].
Proof.
  split; [reflexivity|]. split; [reflexivity|].
  exact (proj1 (cluster_views_on_failure follower env_services_down "lab"
                                         eq_refl)
               "connection refused" eq_refl).
Defined.

(** The leader lookup fails, the view answers 200 without a leader. *)
Lemma cluster_view_without_leader :
  status (handleClusteringGet follower env_leader_down) = 200
  ∧ written (handleClusteringGet follower env_leader_down)
    = [ClusterBody
         (clusteringResponse.mk "lab" 3 EmptyString
            [clusterMember.mk "a" "https://a:7890" false 2 ["t1"; "t2"];
             clusterMember.mk "b" "http://b:7890" false 1 ["t3"]])].
Proof. by vm_compute. Qed.

End api_claims.

(* ===================================================================== *)
(** * Further properties of the drop processor and of pipelines *)
(* ===================================================================== *)

Section drop_more.
Import Formatters DropSpec Examples MoreExamples.
Implicit Types (d : EventDrop.t) (h : gmap nat EventMsg).
Implicit Types (e : option nat) (es arr : list (option nat)).

Lemma Apply_loop_length d h n : ∀ idx i arr arr' i',
  EventDrop.Apply_loop d h n idx i arr = Some (arr', i') →
  List.length arr' = List.length arr ∧ i' ≤ i + n.
Proof.
  induction n as [|n IH]; intros idx i arr arr' i'; simpl.
  - intros [= <- <-]. split; [done|lia].
  - destruct (arr !! idx) as [e|]; [|done]. simpl.
    destruct (EventDrop.drop d h e) as [[|]|]; simpl; [| |done]; intros H;
      apply IH in H as [H1 H2].
    + split; [done|lia].
    + rewrite length_insert in H1. split; [done|lia].
Qed.

Lemma kept_length d h es r : kept d h es = Some r → List.length r ≤ List.length es.
Proof.
  intros Hr. apply kept_Some_filter in Hr as ->. apply length_filter.
Qed.

(** X1.  When [Apply] returns, the array behind the caller's batch has
    been overwritten: it holds the kept entries, in order, followed by
    nil up to its original length.  A dropped event is no longer
    reachable through the caller's slice, and the result is the prefix
    of that array. *)
Theorem drop_Apply_overwrites_batch d h es arr r :
  DropArray.Apply_array d h es = Some (arr, r) →
  EventDrop.Apply d h es = Some r
  ∧ arr = r ++ replicate (List.length es - List.length r) None
  ∧ List.length arr = List.length es.
Proof.
  unfold DropArray.Apply_array. intros H.
  pose proof (Apply_kept d h es) as Hk. unfold EventDrop.Apply in Hk.
  destruct (EventDrop.Apply_loop d h (List.length es) 0 0 es)
    as [[es' i]|] eqn:Hloop; [|done].
  simpl in *. injection H as <- <-.
  apply Apply_loop_length in Hloop as [Hlen Hi]. simpl in Hi.
  split; [by rewrite Apply_kept|].
  rewrite take_clear_from. unfold EventDrop.clear_from.
  rewrite List.length_app, !length_take, length_replicate, Hlen.
  split; [|lia]. do 2 f_equal. lia.
Qed.

Lemma drop_Apply_overwrites_batch_witness :
  DropArray.Apply_array drop_tag_a store_batch [Some 0; Some 1; Some 2]
  = Some ([Some 1; Some 2; None], [Some 1; Some 2])
  ∧ EventDrop.Apply drop_tag_a store_batch [Some 0; Some 1; Some 2]
    = Some [Some 1; Some 2]
  ∧ [Some 1; Some 2; None] = [Some 1; Some 2] ++ replicate (3 - 2) None
  ∧ List.length [Some 1; Some 2; None] = 3.
Proof.
  assert (H : DropArray.Apply_array drop_tag_a store_batch
                [Some 0; Some 1; Some 2]
              = Some ([Some 1; Some 2; None], [Some 1; Some 2]))
    by (by vm_compute).
  split; [exact H|].
  exact (drop_Apply_overwrites_batch drop_tag_a store_batch
           [Some 0; Some 1; Some 2] _ _ H).
Defined.

Lemma kept_allocated d h es :
  Forall (λ e, is_Some (load h e)) es →
  kept d h es = Some (filter (λ e, EventDrop.drop d h e = Some false) es).
Proof.
  intros Hes. destruct (kept_is_Some d h es) as [r Hr].
  { eapply Forall_impl; [exact Hes|]. intros e. apply drop_is_Some. }
  rewrite Hr. f_equal. by apply kept_Some_filter.
Qed.

Lemma Forall_allocated_filter h (P : option nat → Prop)
      `{∀ e, Decision (P e)} es :
  Forall (λ e, is_Some (load h e)) es →
  Forall (λ e, is_Some (load h e)) (filter P es).
Proof.
  intros Hes. apply Forall_forall. intros e He.
  apply list_elem_of_filter in He as [_ He].
  by apply (proj1 (Forall_forall _ _) Hes).
Qed.

Lemma existsb_app_orb {A} (f : A → bool) l k :
  existsb f (l ++ k) = existsb f l || existsb f k.
Proof. induction l as [|x l IH]; simpl; [done|]. by rewrite IH, orb_assoc. Qed.

Lemma existsb_split_orb {A} (f g k : A → bool) l :
  (∀ x, f x = g x || k x) → existsb f l = existsb g l || existsb k l.
Proof.
  intros Hf. induction l as [|x l IH]; simpl; [done|]. rewrite IH, Hf.
  destruct (g x), (k x), (existsb g l), (existsb k l); done.
Qed.

(** Without conditions, the processor with the expressions of two
    processors drops what either of them drops. *)
Lemma drop_both d1 d2 h e b1 b2 :
  EventDrop.Condition d1 = EmptyString → EventDrop.Condition d2 = EmptyString →
  EventDrop.drop d1 h e = Some b1 → EventDrop.drop d2 h e = Some b2 →
  EventDrop.drop (Pipeline.both d1 d2) h e = Some (b1 || b2).
Proof.
  unfold EventDrop.drop. intros -> ->. simpl.
  destruct (load h e) as [ev|]; [|done]. simpl. intros [= <-] [= <-].
  f_equal.
  rewrite (existsb_split_orb _ (EventDrop.value_matches d1)
                             (EventDrop.value_matches d2)).
  - rewrite (existsb_split_orb _ (EventDrop.tag_matches d1)
                               (EventDrop.tag_matches d2)).
    + destruct (existsb (EventDrop.value_matches d1) _),
        (existsb (EventDrop.value_matches d2) _),
        (existsb (EventDrop.tag_matches d1) _),
        (existsb (EventDrop.tag_matches d2) _); done.
    + intros [k v]. unfold EventDrop.tag_matches, EventDrop.match_any. simpl.
      rewrite !existsb_app_orb.
      destruct (existsb _ (EventDrop.tagNames d1)),
        (existsb _ (EventDrop.tagNames d2)),
        (existsb _ (EventDrop.tags d1)), (existsb _ (EventDrop.tags d2)); done.
  - intros [k v]. unfold EventDrop.value_matches, EventDrop.match_any. simpl.
    rewrite !existsb_app_orb.
    destruct v as [vs| | |]; rewrite ?existsb_app_orb;
      destruct (existsb _ (EventDrop.valueNames d1)),
        (existsb _ (EventDrop.valueNames d2)); simpl; try done;
      destruct (existsb _ (EventDrop.values d1)); done.
Qed.

(** X2.  On a batch of allocated events, two drop processors in a row
    give the same batch in either order, and the store is not touched;
    when neither has a condition, they give what the single processor
    with the expressions of both gives. *)
Theorem drop_processors_commute d1 d2 h es :
  Forall (λ e, is_Some (load h e)) es →
  Pipeline.apply_all [Pipeline.drop_processor d1; Pipeline.drop_processor d2]
                     h es
  = Pipeline.apply_all [Pipeline.drop_processor d2; Pipeline.drop_processor d1]
                       h es
  ∧ (∃ r, Pipeline.apply_all
            [Pipeline.drop_processor d1; Pipeline.drop_processor d2] h es
          = Some (h, r))
  ∧ (EventDrop.Condition d1 = EmptyString →
     EventDrop.Condition d2 = EmptyString →
     Pipeline.apply_all
       [Pipeline.drop_processor d1; Pipeline.drop_processor d2] h es
     = Pipeline.apply_all [Pipeline.drop_processor (Pipeline.both d1 d2)] h es).
Proof.
  intros Hes. simpl. rewrite !Apply_kept.
  rewrite !(kept_allocated _ h es Hes). simpl. rewrite !Apply_kept.
  rewrite !kept_allocated by (by apply Forall_allocated_filter). simpl.
  rewrite !list_filter_filter.
  split; [|split].
  - do 2 f_equal. apply list_filter_iff. tauto.
  - by eexists.
  - intros Hc1 Hc2. do 2 f_equal. apply list_filter_iff. intros e.
    destruct (load h e) as [ev|] eqn:Hl.
    + (* an event: both processors answer *)
      destruct (drop_is_Some d1 h e) as [b1 Hb1]; [by rewrite Hl|].
      destruct (drop_is_Some d2 h e) as [b2 Hb2]; [by rewrite Hl|].
      rewrite (drop_both d1 d2 h e b1 b2 Hc1 Hc2 Hb1 Hb2), Hb1, Hb2.
      destruct b1, b2; simpl; split; (intros [? ?] || intros ?); try done.
    + (* not an event: no processor without a condition answers *)
      unfold EventDrop.drop. simpl. rewrite Hc1, Hc2, Hl. simpl.
      split; [by intros [? _]|done].
Qed.

Lemma drop_processors_commute_witness :
  Forall (λ e, is_Some (load store_batch e)) batch
  ∧ Pipeline.apply_all [Pipeline.drop_processor drop_tag_a;
                        Pipeline.drop_processor drop_value_v] store_batch batch
    = Pipeline.apply_all [Pipeline.drop_processor drop_value_v;
                          Pipeline.drop_processor drop_tag_a] store_batch batch
  ∧ Pipeline.apply_all [Pipeline.drop_processor drop_tag_a;
                        Pipeline.drop_processor drop_value_v] store_batch batch
    = Some (store_batch, [Some 2]).
Proof.
  assert (H : Forall (λ e, is_Some (load store_batch e)) batch).
  { repeat constructor; by eexists. }
  split; [exact H|]. split.
  - exact (proj1 (drop_processors_commute drop_tag_a drop_value_v
                                          store_batch batch H)).
  - by vm_compute.
Defined.

(** X3.  [CheckCondition] never answers true together with an error.
    With a condition configured, an event is kept when the condition
    yields no result at all (that is no failure), and an event whose
    values encoding/json refuses is dropped whatever the condition
    is. *)
Theorem drop_condition_outcomes d h e ev :
  EventDrop.Condition d ≠ EmptyString → load h e = Some ev →
  (∀ code input err,
     (CheckCondition code input).2 = Some err →
     (CheckCondition code input).1 = false)
  ∧ (∀ c, EventDrop.code d = Some c → json_encodable ev = true →
          Run c (Some ev) = IterDone → EventDrop.drop d h e = Some false)
  ∧ (∀ c, EventDrop.code d = Some c → json_encodable ev = false →
          EventDrop.drop d h e = Some true).
Proof.
  intros Hc He.
  assert (Hin : marshal_input h e = Some (Some ev)).
  { destruct e as [l|]; [|done]. simpl in *. by rewrite He. }
  split; [|split].
  - intros code input err. unfold CheckCondition.
    destruct code as [c|]; [|done].
    destruct (negb _); [done|].
    by destruct (Run c input) as [|[]|].
  - intros c Hcode Henc Hrun. unfold EventDrop.drop.
    rewrite bool_decide_eq_true_2 by done. rewrite Hin, Hcode. simpl.
    by rewrite Henc, Hrun.
  - intros c Hcode Henc. unfold EventDrop.drop.
    rewrite bool_decide_eq_true_2 by done. rewrite Hin, Hcode. simpl.
    by rewrite Henc.
Qed.

Lemma drop_condition_outcomes_witness :
  EventDrop.Condition drop_empty_cond ≠ EmptyString
  ∧ load store_interface (Some 0) = Some ev_interface
  ∧ EventDrop.drop drop_empty_cond store_interface (Some 0) = Some false
  ∧ EventDrop.drop drop_empty_cond store_nan (Some 0) = Some true.
Proof.
  assert (H : EventDrop.Condition drop_empty_cond ≠ EmptyString)
    by discriminate.
  split; [exact H|]. split; [reflexivity|]. split.
  - refine (proj1 (proj2 (drop_condition_outcomes drop_empty_cond
              store_interface (Some 0) ev_interface H eq_refl))
              jq_empty eq_refl _ eq_refl).
    by vm_compute.
  - refine (proj2 (proj2 (drop_condition_outcomes drop_empty_cond
              store_nan (Some 0) ev_nan H eq_refl)) jq_empty eq_refl _).
    by vm_compute.
Defined.

End drop_more.

Section registry_facts.
Import Registry MoreExamples.
Context {C P : Type}.
Implicit Types (reg : registry C P) (ps : gmap string (list (string * C))).

(** X4.  [MakeEventProcessors] succeeds exactly when every name has a
    configuration of a registered type that [Init] accepts, and then
    returns one processor per name, in the order of the names; when it
    fails, the error is that of the first name that fails, all names
    before it being fine. *)
Theorem MakeEventProcessors_all_or_first_error reg ps names :
  (∀ evps, MakeEventProcessors reg names ps = inr evps
           ↔ Forall2 (λ n ep, make_one reg ps n = inr ep) names evps)
  ∧ (∀ err, MakeEventProcessors reg names ps = inl err
            ↔ ∃ pre n post evps,
                names = pre ++ n :: post
                ∧ Forall2 (λ n ep, make_one reg ps n = inr ep) pre evps
                ∧ make_one reg ps n = inl err).
Proof.
  induction names as [|n names [IH1 IH2]]; simpl.
  - split.
    + intros evps. split; [intros [= <-]; constructor|by inversion 1].
    + intros err. split; [done|].
      intros (pre & n & post & _ & Hn & _). by destruct pre.
  - destruct (make_one reg ps n) as [e|ep] eqn:Hn.
    + split.
      * intros evps. split; [done|]. inversion 1; congruence.
      * intros err. split.
        -- intros [= <-]. exists [], n, names, []. by repeat split.
        -- intros (pre & n' & post & evps & Hnames & Hpre & Hn').
           destruct pre as [|m pre]; simpl in Hnames.
           ++ injection Hnames as <- <-. congruence.
           ++ injection Hnames as <- _. inversion Hpre; congruence.
    + destruct (MakeEventProcessors reg names ps) as [e|evps'] eqn:Hrest.
      * split.
        -- intros evps. split; [done|]. inversion 1 as [|? ? ? evs ? Htl]; subst.
           apply IH1 in Htl. done.
        -- intros err. split.
           ++ intros Herr. apply IH2 in Herr
                as (pre & n' & post & evps & -> & Hpre & Hn').
              exists (n :: pre), n', post, (ep :: evps).
              repeat split; [by constructor|done].
           ++ intros (pre & n' & post & evps & Hnames & Hpre & Hn').
              apply IH2.
              destruct pre as [|m pre]; simpl in Hnames.
              ** injection Hnames as <- <-. congruence.
              ** injection Hnames as <- ->. inversion Hpre; subst.
                 by exists pre, n', post, l'.
      * split.
        -- intros evps. split.
           ++ intros [= <-]. constructor; [done|]. by apply IH1.
           ++ inversion 1 as [|? ep' ? evs Hep Htl]; subst.
              apply IH1 in Htl. congruence.
        -- intros err. split; [done|].
           intros (pre & n' & post & evps & Hnames & Hpre & Hn').
           assert (inr evps' = inl err) as Habs; [|done].
           apply IH2.
           destruct pre as [|m pre]; simpl in Hnames.
           ++ injection Hnames as <- <-. congruence.
           ++ injection Hnames as <- ->. inversion Hpre; subst.
              by exists pre, n', post, l'.
Qed.

End registry_facts.

(** The registry on an example: two processors of type [event-drop] are
    made in the order of the names, and a name without a configuration
    stops the construction. *)
Example MakeEventProcessors_example :
  Registry.MakeEventProcessors MoreExamples.reg_drop ["p2"; "p1"]%string
    MoreExamples.ps_two = inr [6; 4]%nat
  ∧ Registry.MakeEventProcessors MoreExamples.reg_drop
      ["p1"; "p3"; "p2"]%string MoreExamples.ps_two
    = inl (Registry.not_found "p3").
Proof. split; by vm_compute. Qed.

(* ===================================================================== *)
(** * Further properties of the merge processor *)
(* ===================================================================== *)

Section merge_more.
Import Formatters MergeSpec Examples.
Implicit Types (h : gmap nat EventMsg) (ev : EventMsg).
Implicit Types (evs : list EventMsg).

Lemma fold_rule_assoc a b c :
  fold_rule (fold_rule a b) c = fold_rule a (fold_rule b c).
Proof.
  unfold fold_rule. simpl. f_equal.
  - lia.
  - by rewrite (assoc_L (∪)).
  - by rewrite (assoc_L (∪)).
  - by rewrite <- app_assoc.
Qed.

(** X5.  [mergeEvents] is associative: merging [c] into [a] after [b],
    or merging [c] into [b] first and the result into [a], leaves the
    same event in [a], in the store as on values. *)
Theorem mergeEvents_assoc h a b c va vb vc :
  a ≠ b → a ≠ c → b ≠ c →
  h !! a = Some va → h !! b = Some vb → h !! c = Some vc →
  EventMerge.merged (EventMerge.merged va vb) vc
  = EventMerge.merged va (EventMerge.merged vb vc)
  ∧ ∃ h1 h2,
      (EventMerge.mergeEvents h (Some a) (Some b)
         ≫= λ h', EventMerge.mergeEvents h' (Some a) (Some c)) = Some h1
      ∧ (EventMerge.mergeEvents h (Some b) (Some c)
           ≫= λ h', EventMerge.mergeEvents h' (Some a) (Some b)) = Some h2
      ∧ h1 !! a = h2 !! a
      ∧ h1 !! a = Some (fold_rule (fold_rule va vb) vc).
Proof.
  intros Hab Hac Hbc Ha Hb Hc.
  assert (Hassoc : EventMerge.merged (EventMerge.merged va vb) vc
                   = EventMerge.merged va (EventMerge.merged vb vc)).
  { rewrite !merged_fold_rule. apply fold_rule_assoc. }
  split; [done|].
  unfold EventMerge.mergeEvents, store. simpl.
  rewrite Ha, Hb, Hc. simpl.
  rewrite lookup_insert_eq, (lookup_insert_ne _ a c) by done. rewrite Hc.
  simpl.
  rewrite (lookup_insert_ne _ b a) by done. rewrite Ha. simpl.
  rewrite lookup_insert_eq. simpl.
  eexists _, _. split; [reflexivity|]. split; [reflexivity|].
  rewrite !lookup_insert_eq. split; [by rewrite Hassoc|].
  by rewrite !merged_fold_rule.
Qed.

Lemma mergeEvents_assoc_witness :
  (0 ≠ 1 ∧ 0 ≠ 2 ∧ 1 ≠ 2)
  ∧ EventMerge.merged (EventMerge.merged ev_a ev_v) ev_b
    = EventMerge.merged ev_a (EventMerge.merged ev_v ev_b).
Proof.
  split; [repeat split; discriminate|].
  exact (proj1 (mergeEvents_assoc store_batch 0 1 2 ev_a ev_v ev_b
                  ltac:(discriminate) ltac:(discriminate) ltac:(discriminate)
                  eq_refl eq_refl eq_refl)).
Defined.

Lemma foldl_fold_rule_ts t first later :
  Timestamp first = t → Forall (has_ts t) later →
  Timestamp (foldl fold_rule first later) = t.
Proof.
  revert first. induction later as [|ev later IH]; intros first Hf Hl; [done|].
  apply Forall_cons in Hl as [Hev Hl]. simpl. apply IH; [|done].
  unfold has_ts in Hev. simpl. lia.
Qed.

(** A folded group keeps the timestamp of the group. *)
Lemma fold_group_ts t evs v :
  fold_group (group t evs) = Some v → Timestamp v = t.
Proof.
  assert (Hall : Forall (has_ts t) (group t evs)).
  { apply Forall_forall. intros ev Hev. unfold group in Hev.
    by apply list_elem_of_filter in Hev as [? _]. }
  destruct (group t evs) as [|first later]; [done|].
  intros [= <-]. apply Forall_cons in Hall as [Hf Hl].
  by apply foldl_fold_rule_ts.
Qed.

Lemma length_first_seen (ts : list Z) :
  List.length (first_seen ts) ≤ List.length ts.
Proof.
  induction ts as [|t ts IH]; simpl; [done|].
  pose proof (length_filter (λ t', t' ≠ t) (first_seen ts)). lia.
Qed.

(** On events with distinct timestamps, none of which has a group yet,
    the by-timestamp loop merges nothing. *)
Lemma by_ts_loop_distinct h ls : ∀ res tsm tss,
  Forall2 (λ l t, Timestamp <$> h !! l = Some t) ls tss →
  NoDup tss → (∀ t, t ∈ tss → tsm !! t = None) →
  EventMerge.by_ts_loop h res tsm (Some <$> ls)
  = Some (h, res ++ (Some <$> ls)).
Proof.
  induction ls as [|l ls IH]; intros res tsm tss Hts Hnd Hfree; simpl.
  - by rewrite app_nil_r.
  - apply Forall2_cons_inv_l in Hts as (t & tss' & Ht & Hts & ->).
    destruct (h !! l) as [ev|] eqn:Hl; [|done]. simpl in *.
    injection Ht as Ht. rewrite Ht.
    rewrite (Hfree t) by (by left).
    apply NoDup_cons in Hnd as [Hnin Hnd].
    rewrite (IH _ _ tss' Hts Hnd).
    + by rewrite <- app_assoc.
    + intros t' Ht'. rewrite lookup_insert_ne; [|by intros <-].
      apply Hfree. by right.
Qed.

(** X6.  On a batch of distinct events, by-timestamp merging returns
    one event per distinct timestamp of the batch: the returned events
    have pairwise distinct timestamps, which are the timestamps of the
    batch in the order of their first occurrence, there are no more of
    them than events in the batch, and merging the returned batch once
    more changes neither the store nor the batch. *)
Theorem merge_by_timestamp_stable h es evs :
  NoDup (omap id es) →
  Forall2 (λ l ev, h !! l = Some ev) (omap id es) evs →
  ∃ h' rl,
    EventMerge.Apply (EventMerge.mk false) h es = Some (h', Some <$> rl)
    ∧ Forall2 (λ l t, Timestamp <$> h' !! l = Some t) rl
              (first_seen (Timestamp <$> evs))
    ∧ NoDup (first_seen (Timestamp <$> evs))
    ∧ List.length rl ≤ List.length evs
    ∧ EventMerge.Apply (EventMerge.mk false) h' (Some <$> rl)
      = Some (h', Some <$> rl).
Proof.
  intros Hnd Hevs.
  destruct (by_ts_loop_inv h es [] [] h [] ∅ evs (loop_inv_init h))
    as (h' & rl & tsm & Hloop & [_ _ _ Hgr _ _]); [done..|].
  simpl in *. exists h', rl.
  assert (Hts : Forall2 (λ l t, Timestamp <$> h' !! l = Some t) rl
                        (first_seen (Timestamp <$> evs))).
  { apply Forall2_same_length_lookup.
    split; [by eapply Forall2_length|]. intros j l t Hl Ht.
    pose proof (Forall2_lookup_lr _ _ _ _ _ _ Hgr Hl Ht) as Hv.
    destruct (fold_group_is_Some t evs) as [v Hv'].
    { apply elem_of_first_seen. by eapply list_elem_of_lookup_2. }
    rewrite Hv, Hv'. simpl. f_equal. by eapply fold_group_ts. }
  split; [|split; [done|split; [apply NoDup_first_seen|split]]].
  - unfold EventMerge.Apply. simpl.
    destruct es; [|done]. simpl in Hloop. by inv Hloop.
  - rewrite (Forall2_length _ _ _ Hts).
    etrans; [apply length_first_seen|]. by rewrite length_fmap.
  - unfold EventMerge.Apply. simpl.
    destruct rl as [|r rl']; [done|].
    change (Some r :: (Some <$> rl')) with (Some <$> (r :: rl')).
    rewrite (by_ts_loop_distinct h' (r :: rl') [] ∅ _ Hts
                                 (NoDup_first_seen _)); [done|].
    intros t _. apply lookup_empty.
Qed.

Lemma merge_by_timestamp_stable_witness :
  NoDup (omap id batch)
  ∧ Forall2 (λ l ev, store_batch !! l = Some ev) (omap id batch)
            [ev_a; ev_v; ev_b]
  ∧ ∃ h' rl,
      EventMerge.Apply (EventMerge.mk false) store_batch batch
      = Some (h', Some <$> rl)
      ∧ Forall2 (λ l t, Timestamp <$> h' !! l = Some t) rl [1; 2]%Z
      ∧ NoDup [1; 2]%Z
      ∧ List.length rl ≤ 3
      ∧ EventMerge.Apply (EventMerge.mk false) h' (Some <$> rl)
        = Some (h', Some <$> rl).
Proof.
  assert (H1 : NoDup (omap id batch)).
  { apply (bool_decide_unpack _). by vm_compute. }
  assert (H2 : Forall2 (λ l ev, store_batch !! l = Some ev) (omap id batch)
                       [ev_a; ev_v; ev_b]).
  { repeat constructor. }
  split; [exact H1|]. split; [exact H2|].
  exact (merge_by_timestamp_stable store_batch batch [ev_a; ev_v; ev_b] H1 H2).
Defined.

Lemma foldl_fold_rule_Name v evs : Name (foldl fold_rule v evs) = Name v.
Proof.
  revert v. induction evs as [|e evs IH]; intros v; [done|].
  simpl. by rewrite IH.
Qed.

Lemma foldl_fold_rule_Deletes v evs :
  Deletes (foldl fold_rule v evs) = Deletes v ++ concat (Deletes <$> evs).
Proof.
  revert v. induction evs as [|e evs IH]; intros v; simpl.
  - by rewrite app_nil_r.
  - rewrite IH. simpl. by rewrite <- app_assoc.
Qed.

Lemma foldl_fold_rule_max v evs :
  (∀ e, e ∈ v :: evs → (Timestamp e ≤ Timestamp (foldl fold_rule v evs))%Z)
  ∧ Timestamp (foldl fold_rule v evs) ∈ Timestamp <$> (v :: evs).
Proof.
  revert v. induction evs as [|e evs IH]; intros v; simpl.
  - split; [|by left]. intros e He. apply list_elem_of_singleton in He as ->. lia.
  - destruct (IH (fold_rule v e)) as [IH1 IH2]. split.
    + intros e' He'.
      assert (Hv : (Z.max (Timestamp v) (Timestamp e)
                    ≤ Timestamp (foldl fold_rule (fold_rule v e) evs))%Z).
      { apply (IH1 (fold_rule v e)). by left. }
      apply elem_of_cons in He' as [->|He']; [lia|].
      apply elem_of_cons in He' as [->|He']; [lia|].
      apply IH1. by right.
    + rewrite !fmap_cons in *. apply elem_of_cons in IH2 as [IH2|IH2].
      * rewrite IH2. simpl.
        destruct (Z.max_spec (Timestamp v) (Timestamp e)) as [[_ ->]|[_ ->]].
        -- right. by left.
        -- by left.
      * by do 2 right.
Qed.

(** In a fold the value of a key is that of the last event that has it. *)
Lemma foldl_fold_rule_last {V} (g : EventMsg → gmap string V) k :
  (∀ a b, g (fold_rule a b) = g b ∪ g a) →
  ∀ v evs pre ev post x,
    v :: evs = pre ++ ev :: post → g ev !! k = Some x →
    Forall (λ e, g e !! k = None) post →
    g (foldl fold_rule v evs) !! k = Some x.
Proof.
  intros Hg.
  assert (HA : ∀ evs acc, Forall (λ e, g e !! k = None) evs →
                          g (foldl fold_rule acc evs) !! k = g acc !! k).
  { induction evs as [|e evs IH]; intros acc Hn; [done|].
    apply Forall_cons in Hn as [He Hn]. simpl.
    rewrite IH, Hg by done. by apply lookup_union_r. }
  intros v evs pre ev post x Heq Hx Hpost.
  destruct pre as [|v' pre]; simpl in Heq.
  - injection Heq as -> ->. by rewrite HA.
  - injection Heq as -> ->. rewrite foldl_app. simpl.
    rewrite HA, Hg by done. by apply lookup_union_Some_l.
Qed.

Lemma foldl_fold_rule_none {V} (g : EventMsg → gmap string V) k :
  (∀ a b, g (fold_rule a b) = g b ∪ g a) →
  ∀ evs v, Forall (λ e, g e !! k = None) (v :: evs) →
           g (foldl fold_rule v evs) !! k = None.
Proof.
  intros Hg. induction evs as [|e evs IH]; intros v Hn.
  - by apply Forall_cons in Hn as [? _].
  - apply Forall_cons in Hn as [Hv Hn]. apply Forall_cons in Hn as [He Hn].
    simpl. apply IH. constructor; [|done].
    rewrite Hg. by rewrite lookup_union_r.
Qed.

(** X7.  In always mode, on a batch that starts with an event which
    does not occur again, the single event returned has the name of the
    first event, the delete paths of all events in batch order, the
    greatest of their timestamps, and for every tag and value key the
    value of the last event of the batch that has the key; a key that no
    event has is absent. *)
Theorem merge_always_last_wins h l rest ev0 evs :
  h !! l = Some ev0 → l ∉ omap id rest →
  Forall2 (λ l' ev, h !! l' = Some ev) (omap id rest) evs →
  ∃ h' v,
    EventMerge.Apply (EventMerge.mk true) h (Some l :: rest)
    = Some (h', [Some l])
    ∧ h' !! l = Some v
    ∧ Name v = Name ev0
    ∧ Deletes v = concat (Deletes <$> (ev0 :: evs))
    ∧ (∀ ev, ev ∈ ev0 :: evs → (Timestamp ev ≤ Timestamp v)%Z)
    ∧ Timestamp v ∈ Timestamp <$> (ev0 :: evs)
    ∧ (∀ k pre ev post x,
         ev0 :: evs = pre ++ ev :: post →
         default ∅ (Tags ev) !! k = Some x →
         Forall (λ e, default ∅ (Tags e) !! k = None) post →
         default ∅ (Tags v) !! k = Some x)
    ∧ (∀ k pre ev post x,
         ev0 :: evs = pre ++ ev :: post →
         default ∅ (Values ev) !! k = Some x →
         Forall (λ e, default ∅ (Values e) !! k = None) post →
         default ∅ (Values v) !! k = Some x)
    ∧ (∀ k, Forall (λ e, default ∅ (Tags e) !! k = None) (ev0 :: evs) →
            default ∅ (Tags v) !! k = None)
    ∧ (∀ k, Forall (λ e, default ∅ (Values e) !! k = None) (ev0 :: evs) →
            default ∅ (Values v) !! k = None).
Proof.
  intros Hl Hnin Hevs.
  exists (<[l := foldl fold_rule ev0 evs]> h), (foldl fold_rule ev0 evs).
  split.
  { unfold EventMerge.Apply. simpl.
    by rewrite (always_loop_fold rest h l ev0 1 evs) by (done || lia). }
  split; [by rewrite lookup_insert_eq|].
  split; [apply foldl_fold_rule_Name|].
  split; [apply foldl_fold_rule_Deletes|].
  split; [apply foldl_fold_rule_max|].
  split; [apply foldl_fold_rule_max|].
  split; [|split; [|split]].
  - intros k. by apply (foldl_fold_rule_last (λ e, default ∅ (Tags e))).
  - intros k. by apply (foldl_fold_rule_last (λ e, default ∅ (Values e))).
  - intros k. by apply (foldl_fold_rule_none (λ e, default ∅ (Tags e))).
  - intros k. by apply (foldl_fold_rule_none (λ e, default ∅ (Values e))).
Qed.

Lemma merge_always_last_wins_witness :
  store_batch !! 0 = Some ev_a
  ∧ (0 ∉ omap id [Some 1; Some 2])
  ∧ Forall2 (λ l' ev, store_batch !! l' = Some ev) (omap id [Some 1; Some 2])
            [ev_v; ev_b]
  ∧ ∃ h' v,
      EventMerge.Apply (EventMerge.mk true) store_batch
                       [Some 0; Some 1; Some 2]
      = Some (h', [Some 0])
      ∧ h' !! 0 = Some v
      ∧ Timestamp v ∈ [1; 1; 2]%Z
      ∧ (∀ ev, ev ∈ [ev_a; ev_v; ev_b] → (Timestamp ev ≤ Timestamp v)%Z).
Proof.
  assert (H1 : 0 ∉ omap id [Some 1; Some 2]).
  { apply (bool_decide_unpack _). by vm_compute. }
  assert (H2 : Forall2 (λ l' ev, store_batch !! l' = Some ev)
                       (omap id [Some 1; Some 2]) [ev_v; ev_b]).
  { repeat constructor. }
  split; [reflexivity|]. split; [exact H1|]. split; [exact H2|].
  destruct (merge_always_last_wins store_batch 0 [Some 1; Some 2] ev_a
              [ev_v; ev_b] eq_refl H1 H2)
    as (h' & v & HA & Hv & _ & _ & Hmax & Hin & _).
  exists h', v. by repeat split.
Defined.

End merge_more.

(* ===================================================================== *)
(** * The override-timestamp processor *)
(* ===================================================================== *)

Section overrideTS_facts.
Import Formatters EventOverrideTS OverrideTSInit Examples MoreExamples.
Implicit Types (o : EventOverrideTS.t) (h : gmap nat EventMsg).

(** [stamp] writes the timestamp only, and nothing for a precision it
    does not know. *)
Lemma stamp_fields o now ev :
  Name (stamp o now ev) = Name ev ∧ Tags (stamp o now ev) = Tags ev
  ∧ Values (stamp o now ev) = Values ev
  ∧ Deletes (stamp o now ev) = Deletes ev
  ∧ (¬ known (Precision o) → stamp o now ev = ev).
Proof.
  unfold stamp, known.
  destruct (String.eqb_spec (Precision o) "s"); [by repeat split; tauto|].
  destruct (String.eqb_spec (Precision o) "ms"); [by repeat split; tauto|].
  destruct (String.eqb_spec (Precision o) "us"); [by repeat split; tauto|].
  destruct (String.eqb_spec (Precision o) "ns"); [by repeat split; tauto|].
  done.
Qed.

Lemma overrideTS_loop o clock es : ∀ k h,
  NoDup (omap id es) → Forall (λ l, is_Some (h !! l)) (omap id es) →
  ∃ h',
    Apply_loop o clock k h es = Some h'
    ∧ (∀ j l ev, omap id es !! j = Some l → h !! l = Some ev →
                 h' !! l = Some (stamp o (clock (k + j)) ev))
    ∧ (∀ l, l ∉ omap id es → h' !! l = h !! l).
Proof.
  induction es as [|[l|] es IH]; intros k h Hnd Hal; simpl in *.
  - exists h. split; [done|]. split; [|done]. intros j l ev Hj. done.
  - apply NoDup_cons in Hnd as [Hl Hnd].
    apply Forall_cons in Hal as [[ev Hev] Hal].
    rewrite Hev. simpl. unfold store.
    destruct (IH (S k) (<[l := stamp o (clock k) ev]> h) Hnd)
      as (h' & Hloop & Hin & Hout).
    { eapply Forall_impl; [exact Hal|]. simpl. intros l' [ev' Hl'].
      destruct (decide (l = l')) as [<-|Hne].
      - rewrite lookup_insert_eq. by eexists.
      - rewrite lookup_insert_ne by done. by eexists. }
    exists h'. split; [done|]. split.
    + intros [|j] l' ev' Hj Hl'; simpl in Hj.
      * injection Hj as <-. rewrite Hout by done.
        rewrite lookup_insert_eq, Nat.add_0_r. congruence.
      * assert (l ≠ l').
        { intros ->. apply Hl. by eapply list_elem_of_lookup_2. }
        rewrite (Hin j l' ev' Hj) by (by rewrite lookup_insert_ne).
        do 3 f_equal. lia.
    + intros l' Hl'. apply not_elem_of_cons in Hl' as [Hne Hl'].
      rewrite Hout by done. by rewrite lookup_insert_ne.
  - by apply IH.
Qed.

(** X8.  On a batch of distinct allocated events (nil entries are passed
    over), [Apply] returns the batch it was given; the event at the
    [j]-th non-nil entry is the event it was with the timestamp of the
    [j]-th reading of the clock, every other field as before, and events
    outside the batch are untouched.  [Init] turns an empty precision
    into [ns] and accepts every other string: with a precision that is
    none of [s], [ms], [us], [ns], [Apply] changes nothing. *)
Theorem overrideTS_Apply_stamps o clock h es :
  NoDup (omap id es) → Forall (λ l, is_Some (h !! l)) (omap id es) →
  ∃ h',
    Apply (Init o) clock h es = Some (h', es)
    ∧ (∀ j l ev, omap id es !! j = Some l → h !! l = Some ev →
         ∃ ev', h' !! l = Some ev'
                ∧ ev' = stamp (Init o) (clock j) ev
                ∧ Name ev' = Name ev ∧ Tags ev' = Tags ev
                ∧ Values ev' = Values ev ∧ Deletes ev' = Deletes ev)
    ∧ (∀ l, l ∉ omap id es → h' !! l = h !! l)
    ∧ (Precision o = EmptyString → Precision (Init o) = "ns"%string)
    ∧ (Precision o ≠ EmptyString → ¬ known (Precision o) → h' = h).
Proof.
  intros Hnd Hal.
  destruct (overrideTS_loop (Init o) clock es 0 h Hnd Hal)
    as (h' & Hloop & Hin & Hout).
  exists h'. unfold Apply. rewrite Hloop. simpl.
  split; [done|]. split; [|split; [done|split]].
  - intros j l ev Hj Hl. eexists. split; [by apply (Hin j)|].
    split; [done|]. pose proof (stamp_fields (Init o) (clock j) ev). tauto.
  - unfold Init. by intros ->.
  - intros Hne Hunk. apply map_eq. intros l.
    assert (HI : Init o = o).
    { unfold Init. by destruct (String.eqb_spec (Precision o) EmptyString). }
    destruct (decide (l ∈ omap id es)) as [Hl|Hl]; [|by apply Hout].
    apply list_elem_of_lookup_1 in Hl as [j Hj].
    destruct (proj1 (Forall_forall _ _) Hal l) as [ev Hev].
    { by eapply list_elem_of_lookup_2. }
    rewrite (Hin j l ev Hj Hev), Hev, HI. f_equal.
    by apply stamp_fields.
Qed.

Lemma overrideTS_Apply_stamps_witness :
  NoDup (omap id batch)
  ∧ Forall (λ l, is_Some (store_batch !! l)) (omap id batch)
  ∧ ∃ h', Apply (Init (mk "ms")) clock_ms store_batch batch = Some (h', batch)
          ∧ Timestamp <$> h' !! 2 = Some 1502%Z.
Proof.
  assert (H1 : NoDup (omap id batch)).
  { apply (bool_decide_unpack _). by vm_compute. }
  assert (H2 : Forall (λ l, is_Some (store_batch !! l)) (omap id batch)).
  { repeat constructor; by eexists. }
  split; [exact H1|]. split; [exact H2|].
  destruct (overrideTS_Apply_stamps (mk "ms") clock_ms store_batch batch H1 H2)
    as (h' & HA & Hin & _).
  exists h'. split; [exact HA|].
  destruct (Hin 2 2 ev_b eq_refl eq_refl) as (ev' & -> & -> & _). reflexivity.
Defined.

End overrideTS_facts.

(* ===================================================================== *)
(** * Further properties of the trigger processor *)
(* ===================================================================== *)

Section trigger_more.
Import Formatters EventTrigger TriggerSpec Examples.
Local Open Scope Z_scope.
Implicit Types (p : EventTrigger.t) (hist : list Z) (now : Z).

(** X9.  [setDefaults] fails exactly when [min-occurrences] is at
    least 2 and [max-occurrences] is below it, which includes a
    [max-occurrences] that was left unset.  Otherwise it gives a trigger
    with a condition, [1 <= min <= max] and a positive window, keeps the
    values that were set, and is idempotent. *)
Theorem trigger_setDefaults_spec p :
  (setDefaults p = None
   ↔ 2 ≤ MinOccurrences p ∧ MaxOccurrences p < MinOccurrences p)
  ∧ (∀ p', setDefaults p = Some p' →
       configured p'
       ∧ Condition p' ≠ EmptyString
       ∧ (0 < MinOccurrences p → MinOccurrences p' = MinOccurrences p)
       ∧ (0 < MaxOccurrences p → MaxOccurrences p' = MaxOccurrences p)
       ∧ (0 < Window p → Window p' = Window p)
       ∧ (Condition p ≠ EmptyString → Condition p' = Condition p)
       ∧ occurrencesTimes p' = occurrencesTimes p
       ∧ lastTrigger p' = lastTrigger p
       ∧ setDefaults p' = Some p').
Proof.
  split.
  - unfold setDefaults. repeat case_bool_decide; split; (done || lia).
  - intros p' Hp'. split; [by eapply setDefaults_configured|].
    unfold setDefaults in *.
    destruct (String.eqb_spec (Condition p) EmptyString) as [Hc|Hc];
      repeat case_bool_decide; try done; injection Hp' as <-; simpl;
      unfold defaultCondition, Minute;
      (repeat split; [done || lia ..|]);
      repeat (rewrite bool_decide_eq_false_2 by lia);
      try (destruct (String.eqb_spec (Condition p) EmptyString); [done|]);
      done.
Qed.

Lemma last_drop_lt {A} (l : list A) (k : nat) :
  (k < List.length l)%nat → last (drop k l) = last l.
Proof.
  revert k. induction l as [|x l IH]; intros k Hk; simpl in *; [lia|].
  destruct k as [|k]; [done|]. simpl. rewrite IH by lia.
  destruct l; [simpl in *; lia|done].
Qed.

(** X10.  Whatever a configured trigger remembered before, after one
    call of [evalOccurrencesWithinWindow] it remembers at most
    [MaxOccurrences + 1] occurrences, the last of which is the one at
    [now]; every other one was remembered before and is still inside
    the window. *)
Theorem trigger_memory_bounded p now :
  configured p →
  let p' := (evalOccurrencesWithinWindow p now).1 in
  Z.of_nat (List.length (occurrencesTimes p')) ≤ MaxOccurrences p + 1
  ∧ last (occurrencesTimes p') = Some now
  ∧ (∀ t, t ∈ occurrencesTimes p' →
          t = now ∨ (t ∈ occurrencesTimes p ∧ now < t + Window p))
  ∧ same_config p p'.
Proof.
  intros (Hmin & Hmm & Hw) p'. unfold p'.
  rewrite eval_unfold. cbv zeta. simpl.
  set (times := filter (in_window (Window p) now) (occurrencesTimes p)
                ++ [now]).
  assert (Hlen : (0 < List.length times)%nat).
  { unfold times. rewrite List.length_app. simpl. lia. }
  assert (Hin : ∀ t, t ∈ times →
                     t = now ∨ (t ∈ occurrencesTimes p ∧ now < t + Window p)).
  { intros t Ht. unfold times in Ht. apply elem_of_app in Ht as [Ht|Ht].
    - right. apply list_elem_of_filter in Ht as [? ?]. by split.
    - left. by apply list_elem_of_singleton in Ht. }
  case_bool_decide as Hgt.
  - split; [rewrite length_drop; lia|]. split; [|split; [|done]].
    + rewrite last_drop_lt by lia. unfold times. apply last_snoc.
    + intros t Ht. apply Hin. by eapply subseteq_drop.
  - split; [lia|]. split; [apply last_snoc|]. split; [exact Hin|done].
Qed.

Lemma trigger_memory_bounded_witness :
  configured trigger_2_2
  ∧ Z.of_nat (List.length (occurrencesTimes
                (evalOccurrencesWithinWindow trigger_2_2 100).1)) ≤ 2 + 1
  ∧ last (occurrencesTimes (evalOccurrencesWithinWindow trigger_2_2 100).1)
    = Some 100.
Proof.
  assert (H : configured trigger_2_2) by (unfold configured; simpl; lia).
  split; [exact H|].
  destruct (trigger_memory_bounded trigger_2_2 100 H) as (H1 & H2 & _).
  split; [exact H1|exact H2].
Defined.

Lemma fired_elem_of (nows : list Z) : ∀ bs t,
  t ∈ fired nows bs → t ∈ nows.
Proof.
  induction nows as [|n nows IH]; intros [|b bs] t; simpl; try done.
  - by intros ?%elem_of_nil.
  - destruct b.
    + intros [->|Ht]%elem_of_cons; [by left|]. right. by eapply IH.
    + intros Ht. right. by eapply IH.
Qed.

(** On ascending times every firing is at or before the last one. *)
Lemma fired_le_last (nows : list Z) : ∀ bs t m,
  StronglySorted Z.le nows → t ∈ fired nows bs →
  last (fired nows bs) = Some m → t ≤ m.
Proof.
  induction nows as [|n nows IH]; intros [|b bs] t m Hs; simpl; try done.
  apply StronglySorted_cons in Hs as [Hn Hs].
  destruct b; [|by apply IH].
  intros [->|Ht]%elem_of_cons Hm.
  - rewrite last_cons in Hm.
    destruct (last (fired nows bs)) as [m'|] eqn:Hl.
    + injection Hm as <-. apply last_Some_elem_of, fired_elem_of in Hl.
      by apply (proj1 (Forall_forall _ _) Hn).
    + injection Hm as <-. lia.
  - rewrite last_cons in Hm.
    destruct (last (fired nows bs)) as [m'|] eqn:Hl.
    + injection Hm as <-. by eapply IH.
    + apply last_None in Hl. rewrite Hl in Ht. by apply elem_of_nil in Ht.
Qed.

(** X11.  With [max-occurrences] at 1, as by default, two firings are never
    less than a window apart: when the trigger fires at [now], every
    earlier firing is at least [Window] before [now]. *)
Theorem trigger_max_one_spacing p hist now :
  configured p → MaxOccurrences p = 1 → occurrencesTimes p = [] →
  StronglySorted Z.le (hist ++ [now]) →
  (evalOccurrencesWithinWindow (run p hist).1 now).2 = true →
  ∀ t, t ∈ fired hist (run p hist).2 → t + Window p ≤ now.
Proof.
  intros Hcfg Hmax1 Hnil Hsort Hfire t Ht.
  set (lb := default now (head hist)).
  assert (Hsort' : StronglySorted Z.le (lb :: hist ++ [now])).
  { apply StronglySorted_cons. split; [|done]. unfold lb.
    destruct hist as [|t0 hist]; simpl in *.
    - by repeat constructor.
    - apply StronglySorted_cons in Hsort as [Hs _].
      constructor; [lia|done]. }
  assert (Hinv0 : window_inv p [] lb).
  { split; [|constructor|constructor]. exists []. split; [by rewrite Hnil|].
    right. constructor. }
  assert (Hsh : StronglySorted Z.le hist)
    by (by apply StronglySorted_app_1_l in Hsort).
  destruct (run_inv hist p [] lb Hcfg Hinv0) as (lb' & Hsame & Hinv & Hlb).
  { apply StronglySorted_cons in Hsort' as [Hf Hs].
    apply StronglySorted_cons. split; [|done].
    by apply Forall_app in Hf as [? _]. }
  simpl in Hinv.
  destruct (eval_step (run p hist).1 hist lb' now) as
    (p' & b & He & _ & _ & _ & Hiff).
  { by apply (same_config_configured p). }
  { done. }
  { by apply Hlb. }
  rewrite He in Hfire. simpl in Hfire. subst b.
  rewrite run_lastTrigger in Hiff.
  destruct Hsame as (Hmin & Hmax & Hw). rewrite Hw in Hiff.
  destruct (proj1 Hiff eq_refl) as [[_ Hc]|[_ Hlast]].
  - rewrite Hmax, Hmax1 in Hc. unfold window_count in Hc.
    assert (Hf : filter (in_window (Window p) now) hist = []).
    { destruct (filter _ hist); [done|simpl in Hc; lia]. }
    apply fired_elem_of in Ht.
    destruct (decide (in_window (Window p) now t)) as [Hin|Hout].
    + assert (t ∈ filter (in_window (Window p) now) hist)
        by (by apply list_elem_of_filter).
      rewrite Hf in H. by apply elem_of_nil in H.
    + unfold in_window in Hout. lia.
  - unfold last_fired in Hlast.
    destruct (last (fired hist (run p hist).2)) as [m|] eqn:Hl.
    + simpl in Hlast. pose proof (fired_le_last _ _ _ _ Hsh Ht Hl). lia.
    + apply last_None in Hl. rewrite Hl in Ht. by apply elem_of_nil in Ht.
Qed.

Lemma trigger_max_one_spacing_witness :
  (evalOccurrencesWithinWindow
     (run MoreExamples.trigger_default [100; 105; 109]).1 112).2 = true
  ∧ ∀ t, t ∈ fired [100; 105; 109]
               (run MoreExamples.trigger_default [100; 105; 109]).2 →
         t + 10 ≤ 112.
Proof.
  assert (Hfire : (evalOccurrencesWithinWindow
                     (run MoreExamples.trigger_default [100; 105; 109]).1
                     112).2 = true) by (by vm_compute).
  split; [exact Hfire|].
  apply (trigger_max_one_spacing MoreExamples.trigger_default
           [100; 105; 109] 112).
  - unfold configured. simpl. lia.
  - reflexivity.
  - reflexivity.
  - apply (bool_decide_unpack _). by vm_compute.
  - exact Hfire.
Defined.

Lemma eval_code p now : code (evalOccurrencesWithinWindow p now).1 = code p.
Proof. pose proof (eval_unfold p now) as He. cbv zeta in He. by rewrite He. Qed.

Lemma occurrences_code p p' h es :
  code p' = code p →
  TriggerBatch.occurrences p' h es = TriggerBatch.occurrences p h es.
Proof.
  intros Hc. unfold TriggerBatch.occurrences, TriggerBatch.occurrence.
  by rewrite Hc.
Qed.

Lemma trigger_loop p now (h : gmap nat Formatters.EventMsg) es : ∀ p0 acc,
  code p0 = code p →
  Forall (λ e, ∀ l, e = Some l → is_Some (h !! l)) es →
  ∃ p' f, EventTrigger.Apply_loop p0 now h acc es = Some (p', acc ++ f)
          ∧ code p' = code p
          ∧ f `sublist_of` TriggerBatch.occurrences p h es
          ∧ (TriggerBatch.occurrences p h es = [] → p' = p0).
Proof.
  induction es as [|e es IH]; intros p0 acc Hc Hall.
  - exists p0, []. simpl. by rewrite app_nil_r.
  - apply Forall_cons in Hall as [He Hall]. destruct e as [l|]; simpl.
    + destruct (He l eq_refl) as [ev Hev].
      unfold TriggerBatch.occurrences. simpl. rewrite Hev. simpl.
      fold (TriggerBatch.occurrences p h es). rewrite Hc.
      destruct (Formatters.CheckCondition (code p) (Some ev))
        as [[|] [err|]] eqn:Hcc.
      * rewrite decide_False by done. by apply IH.
      * rewrite decide_True by done.
        pose proof (eval_code p0 now) as Hc'.
        destruct (evalOccurrencesWithinWindow p0 now) as [p1 [|]];
          simpl in Hc'.
        -- destruct (IH p1 (acc ++ [l])) as (p' & f & Hl & Hc2 & Hs & _);
             [congruence|done|].
           exists p', (l :: f). rewrite Hl, <-app_assoc. simpl.
           split; [done|]. split; [done|]. split; [by constructor|done].
        -- destruct (IH p1 acc) as (p' & f & Hl & Hc2 & Hs & _);
             [congruence|done|].
           exists p', f. split; [done|]. split; [done|].
           split; [by constructor|done].
      * rewrite decide_False by done. by apply IH.
      * rewrite decide_False by done. by apply IH.
    + unfold TriggerBatch.occurrences. simpl.
      fold (TriggerBatch.occurrences p h es). by apply IH.
Qed.

(** X12.  [Apply] of the trigger on a batch of allocated events returns the
    batch as it is; it hands to the actions only events on which the
    condition evaluated to [true], in batch order, and an event whose
    condition is false or fails to evaluate is no occurrence: when no
    event of the batch is one, nothing fires and the trigger, with its
    remembered times and last firing, is as before. *)
Theorem trigger_Apply_occurrences p now (h : gmap nat Formatters.EventMsg) es :
  Forall (λ e, ∀ l, e = Some l → is_Some (h !! l)) es →
  ∃ p' f, EventTrigger.Apply p now h es = Some (p', f, es)
          ∧ f `sublist_of` TriggerBatch.occurrences p h es
          ∧ (TriggerBatch.occurrences p h es = [] → p' = p ∧ f = []).
Proof.
  intros Hall. unfold EventTrigger.Apply.
  destruct (trigger_loop p now h es p [] eq_refl Hall)
    as (p' & f & Hl & _ & Hs & Hp).
  exists p', f. rewrite Hl. simpl. split; [done|]. split; [done|].
  intros Ho. split; [by apply Hp|]. rewrite Ho in Hs.
  by apply sublist_nil_r in Hs.
Qed.

Lemma trigger_Apply_occurrences_witness :
  ∃ p' f, EventTrigger.Apply MoreExamples.trigger_failing 100
            Examples.store_interface [Some 0%nat; None]
          = Some (p', f, [Some 0%nat; None])
          ∧ f `sublist_of` TriggerBatch.occurrences
                MoreExamples.trigger_failing Examples.store_interface
                [Some 0%nat; None]
          ∧ (TriggerBatch.occurrences MoreExamples.trigger_failing
               Examples.store_interface [Some 0%nat; None] = [] →
             p' = MoreExamples.trigger_failing ∧ f = []).
Proof.
  apply (trigger_Apply_occurrences MoreExamples.trigger_failing 100
           Examples.store_interface [Some 0%nat; None]).
  apply Forall_cons. split.
  - intros l [= <-]. exists Examples.ev_interface. reflexivity.
  - apply Forall_cons. split; [by intros l [=]|constructor].
Defined.

End trigger_more.

(* ===================================================================== *)
(** * More on the cluster handlers *)
(* ===================================================================== *)

Section api_more.
Import Api Examples.

(** [sort.Strings] orders by bytes; the order is total. *)
Lemma ascii_compare_refl a : Ascii.compare a a = Eq.
Proof. unfold Ascii.compare. apply N.compare_refl. Qed.

Lemma ascii_compare_lt_trans a b c :
  Ascii.compare a b = Lt → Ascii.compare b c = Lt → Ascii.compare a c = Lt.
Proof.
  unfold Ascii.compare. rewrite !N.compare_lt_iff. apply N.lt_trans.
Qed.

Lemma string_le_trans s1 : ∀ s2 s3,
  string_le s1 s2 → string_le s2 s3 → string_le s1 s3.
Proof.
  unfold string_le, String.leb.
  induction s1 as [|a s1 IH]; intros [|b s2] [|c s3]; simpl; try done.
  destruct (Ascii.compare a b) eqn:Hab.
  - apply Ascii.compare_eq_iff in Hab as ->.
    destruct (Ascii.compare b c); [apply IH|done|done].
  - intros _. destruct (Ascii.compare b c) eqn:Hbc.
    + apply Ascii.compare_eq_iff in Hbc as ->. by rewrite Hab.
    + by rewrite (ascii_compare_lt_trans a b c).
    + done.
  - done.
Qed.

#[local] Instance string_le_transitive : Transitive string_le.
Proof. intros s1 s2 s3. apply string_le_trans. Qed.

#[local] Instance string_le_total : Total string_le.
Proof. intros s1 s2. apply String.leb_total. Qed.

#[local] Instance string_le_antisymm : AntiSymm (=) string_le.
Proof. intros s1 s2. apply String.leb_antisym. Qed.

(** X13.  [getInstanceTargets], when the locks can be listed, returns the
    targets locked by the instance, one for each lock, in ascending
    order; the order in which the runtime ranges over the map of locks
    does not show in the result. *)
Theorem getInstanceTargets_sorted a env instance locks :
  List env ("gnmic/" +:+ default EmptyString (Clustering a) +:+ "/targets")
  = inr locks →
  ∃ targets,
    (getInstanceTargets a env instance).1 = inr targets
    ∧ Sorted string_le targets
    ∧ (∀ t, t ∈ targets
            ↔ ∃ k, locks !! k = Some instance ∧ Base env k = t)
    ∧ List.length targets
      = List.length (filter (λ kv : string * string, kv.2 = instance)
                            (map_to_list locks))
    ∧ ∀ l, l ≡ₚ map_to_list locks →
           merge_sort string_le
             ((λ kv, Base env kv.1)
                <$> filter (λ kv : string * string, kv.2 = instance) l)
           = targets.
Proof.
  intros HL. unfold getInstanceTargets. rewrite HL. simpl.
  eexists. split; [reflexivity|]. split; [apply Sorted_merge_sort, _|].
  split; [|split].
  - intros t. rewrite merge_sort_Permutation, list_elem_of_fmap. split.
    + intros ([k v] & -> & [Hv Hk]%list_elem_of_filter). simpl in *.
      subst v. apply elem_of_map_to_list in Hk. by exists k.
    + intros (k & Hk & <-). exists (k, instance). split; [done|].
      apply list_elem_of_filter. split; [done|].
      by apply elem_of_map_to_list.
  - by rewrite merge_sort_Permutation, length_fmap.
  - intros l Hl. apply (Sorted_unique string_le).
    + apply Sorted_merge_sort, _.
    + apply Sorted_merge_sort, _.
    + rewrite !merge_sort_Permutation. by rewrite Hl.
Qed.

Lemma getInstanceTargets_sorted_witness :
  ∃ targets,
    (getInstanceTargets MoreExamples.leader MoreExamples.env_locks "a").1
    = inr targets
    ∧ Sorted string_le targets
    ∧ (∀ t, t ∈ targets
            ↔ ∃ k, MoreExamples.locks_ab !! k = Some "a"%string
                   ∧ Base MoreExamples.env_locks k = t)
    ∧ List.length targets
      = List.length (filter (λ kv : string * string, kv.2 = "a"%string)
                            (map_to_list MoreExamples.locks_ab))
    ∧ ∀ l, l ≡ₚ map_to_list MoreExamples.locks_ab →
           merge_sort string_le
             ((λ kv, Base MoreExamples.env_locks kv.1)
                <$> filter (λ kv : string * string, kv.2 = "a"%string) l)
           = targets.
Proof.
  apply (getInstanceTargets_sorted MoreExamples.leader MoreExamples.env_locks
           "a" MoreExamples.locks_ab).
  reflexivity.
Defined.

Lemma find_fmap {A B} (f : B → bool) (g : A → B) (l : list A) :
  List.find f (g <$> l) = g <$> List.find (λ x, f (g x)) l.
Proof.
  induction l as [|x l IH]; [done|]. simpl. by destruct (f (g x)).
Qed.

Lemma find_ext {A} (f g : A → bool) (l : list A) :
  (∀ x, f x = g x) → List.find f l = List.find g l.
Proof.
  intros Hfg. induction l as [|x l IH]; [done|]. simpl.
  by rewrite Hfg, IH.
Qed.

(** X14.  The leader view is the members view cut down to the leader: when
    the members view answers with the members, the leader view answers
    with the first of them that is flagged as leader, or with one empty
    member when none is; when the members view answers with an error,
    or not at all, the leader view gives the same response. *)
Theorem leader_view_of_members_view a env :
  handleClusteringLeaderGet a env
  = match written (handleClusteringMembersGet a env) with
    | [MembersBody ms] =>
        Write (MembersBody
                 [default clusterMember.zero
                          (List.find clusterMember.IsLeader ms)]) w0
    | _ => handleClusteringMembersGet a env
    end.
Proof.
  unfold handleClusteringLeaderGet, handleClusteringMembersGet.
  destruct (Clustering a); [|done].
  unfold cluster_queries.
  destruct (getLeaderName a env) as [leader [err|]]; [done|].
  destruct (GetServices env (api_service a) []) as [err|services]; [done|].
  destruct (getInstanceToTargetsMapping env) as [err|nodes]; [done|].
  simpl. do 2 f_equal. f_equal.
  rewrite find_fmap.
  rewrite (find_ext (λ x, clusterMember.IsLeader (member leader nodes x))
                    (λ s, bool_decide (TrimSuffix (ID s) "-api" = leader))).
  - destruct (List.find _ services) as [s'|] eqn:Hf; [|done]. simpl.
    apply List.find_some in Hf as [_ Hs].
    apply bool_decide_eq_true in Hs. unfold member.
    f_equal. symmetry. by apply bool_decide_eq_true.
  - intros s'. simpl. apply bool_decide_ext. split; congruence.
Qed.

(** X15.  The scheme of a member's endpoint is [http://] unless a tag of the
    service starts with [protocol=]; the last such tag decides. *)
Theorem scheme_of_last_protocol tags :
  scheme_of tags
  = match last (filter (λ t, HasPrefix t "protocol=" = true) tags) with
    | Some t => TrimPrefix t "protocol=" +:+ "://"
    | None => "http://"
    end%string.
Proof.
  unfold scheme_of.
  induction tags as [|t tags IH] using rev_ind; [done|].
  rewrite foldl_app, filter_app, last_app. simpl.
  destruct (HasPrefix t "protocol=") eqn:Ht.
  - by rewrite filter_cons_True, filter_nil by done.
  - rewrite filter_cons_False, filter_nil by congruence. simpl. apply IH.
Qed.

(** X16.  Draining an instance on a clustered application: the goroutine
    that moves the targets away is started exactly when the handler
    leaves the response untouched, and then only on the leader, for a
    named instance that has a registered service and whose locks could
    be listed; it is given the first of the services and the targets of
    [getInstanceTargets]. *)
Theorem drain_started_iff_silent a env id c :
  Clustering a = Some c →
  ((handleClusteringDrainInstance a env id).1 = w0
   ↔ ∃ sid ts, last (handleClusteringDrainInstance a env id).2
               = Some (GoDrain id sid ts))
  ∧ ∀ id' sid ts,
      GoDrain id' sid ts ∈ (handleClusteringDrainInstance a env id).2 →
      id' = id ∧ isLeader a = true ∧ id ≠ EmptyString
      ∧ (∃ s rest, GetServices env (api_service a)
                     ["instance-name=" +:+ id]%string = inr (s :: rest)
                   ∧ sid = ID s)
      ∧ (getInstanceTargets a env id).1 = inr ts.
Proof.
  intros Hc. unfold handleClusteringDrainInstance. rewrite Hc.
  destruct (isLeader a); simpl.
  2:{ split; [split; [done|by intros (? & ? & ?)]|].
      by intros ??? ?%elem_of_nil. }
  destruct (String.eqb id EmptyString) eqn:Hid.
  { split; [split; [done|by intros (? & ? & ?)]|].
    by intros ??? ?%elem_of_nil. }
  apply String.eqb_neq in Hid.
  destruct (GetServices env _ _) as [err|[|s0 rest]] eqn:HS.
  - split; [split; [done|by intros (? & ? & ?)]|].
    intros ??? [?|?%elem_of_nil]%elem_of_cons; done.
  - split; [split; [done|by intros (? & ? & ?)]|].
    intros ??? [?|?%elem_of_nil]%elem_of_cons; done.
  - unfold getInstanceTargets.
    destruct (List env _) as [err|locks]; simpl.
    + split; [split; [done|by intros (? & ? & ?)]|].
      intros ??? [?|[?|?%elem_of_nil]%elem_of_cons]%elem_of_cons; done.
    + split; [split; [by eauto|done]|].
      intros id' sid ts
        [?|[?|[[= -> -> ->]|?%elem_of_nil]%elem_of_cons]%elem_of_cons]%elem_of_cons;
        try done.
      split; [done|]. split; [done|]. split; [done|]. split; [by eauto|done].
Qed.

Lemma drain_started_iff_silent_witness :
  ((handleClusteringDrainInstance MoreExamples.leader
      MoreExamples.env_locks "a").1 = w0
   ↔ ∃ sid ts, last (handleClusteringDrainInstance MoreExamples.leader
                       MoreExamples.env_locks "a").2
               = Some (GoDrain "a" sid ts))
  ∧ ∀ id' sid ts,
      GoDrain id' sid ts ∈ (handleClusteringDrainInstance MoreExamples.leader
                              MoreExamples.env_locks "a").2 →
      id' = "a"%string ∧ isLeader MoreExamples.leader = true
      ∧ "a"%string ≠ EmptyString
      ∧ (∃ s rest, GetServices MoreExamples.env_locks
                     (api_service MoreExamples.leader)
                     ["instance-name=" +:+ "a"]%string = inr (s :: rest)
                   ∧ sid = ID s)
      ∧ (getInstanceTargets MoreExamples.leader MoreExamples.env_locks
           "a").1 = inr ts.
Proof.
  apply (drain_started_iff_silent MoreExamples.leader MoreExamples.env_locks
           "a" "lab"%string).
  reflexivity.
Defined.

End api_more.

(* ===================================================================== *)
(** * The strings processor *)
(* ===================================================================== *)

Section strings_facts.
Import Formatters EventStrings.
Local Open Scope Z_scope.
Implicit Types (t : transform) (k v : string).




Lemma apply_on_string lib t k v k' (x' : value) :
  apply lib t k (VString v) = Some (k', x') → ∃ v', x' = VString v'.
Proof.
  intros H. pose proof (conj H H) as [_ H'].
  unfold apply, trimPrefix, trimSuffix, toTitle, toLower, toUpper, pathBase,
    replace, split, on_field in H'.
  repeat match type of H' with
         | context [if String.eqb ?a ?s then _ else _] =>
             destruct (String.eqb a s)
         end;
    repeat match type of H' with
           | context [replaceRegexp t] => destruct (replaceRegexp t)
           | context [split_join t ?i] => destruct (split_join t i)
           end; simpl in H'; try done; injection H' as <- <-; by eauto.
Qed.


Lemma wrap_le z : 0 ≤ z → wrap z ≤ z.
Proof.
  unfold wrap. intros Hz.
  pose proof (Z.mod_le (z + 2 ^ 63) (2 ^ 64)). lia.
Qed.

Lemma split_join_safe t items :
  0 ≤ IgnoreFirst t → 0 ≤ IgnoreLast t → is_Some (split_join t items).
Proof.
  intros HF HL. unfold split_join. case_bool_decide as Hg; [done|].
  unfold slice. rewrite bool_decide_true; [done|].
  pose proof (wrap_le (Z.of_nat (List.length items) - IgnoreLast t)). lia.
Qed.

(** X18.  A transform whose [ignore-first] and [ignore-last] are not negative
    and whose expression, for a [replace], is compiled, never panics:
    the guard of [split] keeps the bounds of the slice expression
    inside the items. *)
Theorem apply_safe lib t k (x : value) :
  safe t → is_Some (apply lib t k x).
Proof.
  intros (Hre & HF & HL). unfold apply.
  destruct (String.eqb (op t) "replace") eqn:Hop.
  { apply String.eqb_eq in Hop. destruct (Hre Hop) as [re Hr].
    unfold replace. rewrite Hr. simpl.
    destruct (String.eqb (ApplyOn t) nameField); [done|].
    destruct (String.eqb (ApplyOn t) valueField); [|done].
    by destruct x. }
  repeat match goal with
         | |- context [if String.eqb (op t) ?s then _ else _] =>
             destruct (String.eqb (op t) s)
         end; try done.
  unfold split.
  destruct (String.eqb (ApplyOn t) nameField).
  { by destruct (split_join_safe t (Split lib k (SplitOn t)) HF HL) as [? ->]. }
  destruct (String.eqb (ApplyOn t) valueField); [|done].
  destruct x as [s| | |]; try done.
  by destruct (split_join_safe t (Split lib s (SplitOn t)) HF HL) as [? ->].
Qed.

Lemma apply_safe_witness :
  is_Some (apply MoreExamples.lib_id (MoreExamples.split_first 1)
             "a/b/c" (VString "eth0")).
Proof.
  apply (apply_safe MoreExamples.lib_id (MoreExamples.split_first 1)).
  unfold safe. simpl. split; [discriminate|lia].
Defined.



Lemma apply_string lib t k v r :
  apply lib t k (VString v) = Some r → ∃ k' v', r = (k', VString v').
Proof.
  destruct r as [k' x']. intros H.
  apply apply_on_string in H as [v' ->]. by exists k', v'.
Qed.

(** X20.  What [applyTagTransformations] leaves in the tags of an event when
    it is called, as [Apply] does, for a tag [k] with value [v] of the
    event: the last name and value that the tag went through are a tag;
    a tag whose name the renamed tag never took is as before; with
    [keep] on every transform no tag is lost; with [keep] on none, every
    name that the tag went through before the last is no tag any more,
    whichever tag had it, and the tags are no more than before. *)
Theorem tag_transformations lib ts : ∀ (g : gmap string string) k v r,
  g !! k = Some v →
  applyTagTransformations lib ts (Some g) k v = Some r →
  ∃ g', r = Some g'
    ∧ g' !! (default (k, v) (last (renames lib ts k v))).1
      = Some (default (k, v) (last (renames lib ts k v))).2
    ∧ (∀ x, x ∉ k :: (renames lib ts k v).*1 → g' !! x = g !! x)
    ∧ (Forall (λ t, Keep t = true) ts →
       ∀ x, is_Some (g !! x) → is_Some (g' !! x))
    ∧ (Forall (λ t, Keep t = false) ts →
       (size g' ≤ size g)%nat
       ∧ ∀ x, x ∈ k :: (renames lib ts k v).*1 →
              x ≠ (default (k, v) (last (renames lib ts k v))).1 →
              g' !! x = None).
Proof.
  induction ts as [|t ts IH]; intros g k v r Hk Hr; simpl in *.
  - injection Hr as <-. exists g. split; [done|]. split; [done|].
    split; [done|]. split; [done|]. intros _. split; [done|].
    by intros x ->%list_elem_of_singleton.
  - destruct (apply lib t k (VString v)) as [[k1 x1]|] eqn:Ha; [|done].
    destruct (apply_string _ _ _ _ _ Ha) as (? & v1 & [= <- ->]).
    simpl in Hr.
    set (g1 := if Keep t then g else delete k g) in *.
    assert (Hg1 : (if Keep t then Some g else Some (delete k g))
                  = Some g1) by (unfold g1; by destruct (Keep t)).
    rewrite Hg1 in Hr. simpl in Hr.
    destruct (IH (<[k1 := v1]> g1) k1 v1 r) as
      (g' & -> & Hlast & Hframe & Hkeep & Hdrop);
      [by rewrite lookup_insert_eq|done|].
    exists g'. split; [done|].
    assert (Hl : default (k, v) (last ((k1, v1) :: renames lib ts k1 v1))
                 = default (k1, v1) (last (renames lib ts k1 v1))).
    { rewrite last_cons. by destruct (last (renames lib ts k1 v1)). }
    rewrite Hl. split; [done|]. split; [|split].
    + intros x Hx. rewrite fmap_cons in Hx. simpl in Hx.
      rewrite Hframe.
      * rewrite lookup_insert_ne by (intros <-; apply Hx; right; by left).
        unfold g1. destruct (Keep t); [done|].
        rewrite lookup_delete_ne; [done|]. intros <-. apply Hx. by left.
      * intros Hin. apply Hx. by right.
    + intros [Ht Hts]%Forall_cons x Hx. apply Hkeep; [done|].
      unfold g1. rewrite Ht.
      destruct (decide (x = k1)) as [->|Hne].
      * by rewrite lookup_insert_eq.
      * by rewrite lookup_insert_ne.
    + intros [Ht Hts]%Forall_cons. destruct (Hdrop Hts) as [Hsize Hnone].
      unfold g1 in *. rewrite Ht in *. split.
      * assert (Hs : (size (<[k1 := v1]> (delete k g)) ≤ size g)%nat).
        { destruct (delete k g !! k1) eqn:Hd.
          - rewrite map_size_insert_Some by done.
            rewrite map_size_delete, Hk. simpl. lia.
          - rewrite map_size_insert_None by done.
            rewrite map_size_delete, Hk. simpl.
            assert (Hne : size g ≠ 0%nat); [|lia].
            intros ->%map_size_empty_inv. by rewrite lookup_empty in Hk. }
        lia.
      * intros x Hx Hne. rewrite fmap_cons in Hx. simpl in Hx.
        destruct (decide (x ∈ k1 :: (renames lib ts k1 v1).*1)) as [Hin|Hout].
        -- by apply Hnone.
        -- rewrite Hframe by done.
           apply elem_of_cons in Hx as [->|Hx]; [|done].
           rewrite lookup_insert_ne by (intros <-; apply Hout; by left).
           by rewrite lookup_delete_eq.
Qed.

Lemma tag_transformations_witness :
  ∃ g', Some ({[ "/name" := "eth0" ]} : gmap string string)%string = Some g'
    ∧ g' !! (default ("/interface/name", "eth0")
               (last (renames MoreExamples.lib_id
                        [MoreExamples.trim_interface false]
                        "/interface/name" "eth0"))).1%string
      = Some (default ("/interface/name", "eth0")
                (last (renames MoreExamples.lib_id
                         [MoreExamples.trim_interface false]
                         "/interface/name" "eth0"))).2%string
    ∧ (∀ x, x ∉ "/interface/name"%string
              :: (renames MoreExamples.lib_id
                    [MoreExamples.trim_interface false]
                    "/interface/name" "eth0").*1 →
            g' !! x = MoreExamples.tags_interface !! x)
    ∧ (Forall (λ t, Keep t = true) [MoreExamples.trim_interface false] →
       ∀ x, is_Some (MoreExamples.tags_interface !! x) → is_Some (g' !! x))
    ∧ (Forall (λ t, Keep t = false) [MoreExamples.trim_interface false] →
       (size g' ≤ size MoreExamples.tags_interface)%nat
       ∧ ∀ x, x ∈ "/interface/name"%string
                :: (renames MoreExamples.lib_id
                      [MoreExamples.trim_interface false]
                      "/interface/name" "eth0").*1 →
              x ≠ (default ("/interface/name", "eth0")
                     (last (renames MoreExamples.lib_id
                              [MoreExamples.trim_interface false]
                              "/interface/name" "eth0"))).1%string →
              g' !! x = None).
Proof.
  apply (tag_transformations MoreExamples.lib_id
           [MoreExamples.trim_interface false] MoreExamples.tags_interface
           "/interface/name" "eth0").
  - by vm_compute.
  - by vm_compute.
Defined.

(** X21.  On string values [applyValueTransformations] does to the values what
    [applyTagTransformations] does to the tags: the two loops differ by
    the type assertion only, which strings pass. *)
Theorem value_transformations_as_tags lib ts :
  ∀ (g : option (gmap string string)) k v,
    applyValueTransformations lib ts (as_values <$> g) k (VString v)
    = (λ r : option (gmap string string), as_values <$> r)
        <$> applyTagTransformations lib ts g k v.
Proof.
  induction ts as [|t ts IH]; intros g k v; [done|]. simpl.
  destruct (apply lib t k (VString v)) as [[k1 x1]|] eqn:Ha; [|done].
  destruct (apply_on_string _ _ _ _ _ _ Ha) as [v1 ->]. simpl.
  destruct g as [g|]; simpl.
  - destruct (Keep t); simpl.
    + rewrite <-(IH (Some (<[k1 := v1]> g))). simpl.
      unfold as_values. by rewrite fmap_insert.
    + rewrite <-(IH (Some (<[k1 := v1]> (delete k g)))). simpl.
      unfold as_values. by rewrite fmap_insert, fmap_delete.
  - by destruct (Keep t).
Qed.

End strings_facts.

(* ===================================================================== *)
(** * The InfluxDB output *)
(* ===================================================================== *)

Section influx_facts.
Import InfluxOutput.
Local Open Scope Z_scope.

Lemma foldl_insert_non_empty (dels : list string) :
  ∀ m : gmap string field,
    m ≠ ∅ →
    foldl (λ values del, <[del := FString EmptyString]> values) m dels ≠ ∅.
Proof.
  induction dels as [|d dels IH]; intros m Hm; [done|]. simpl.
  apply IH, insert_non_empty.
Qed.

Lemma convertUints_non_empty ver (g : gmap string field) :
  g ≠ ∅ → default ∅ (convertUints ver (Some g)) ≠ ∅.
Proof.
  intros Hg. unfold convertUints.
  destruct (negb (Api.HasPrefix ver "1.8")); simpl; [done|].
  by rewrite fmap_empty_iff.
Qed.

Lemma value_fields_non_empty ver (vals : option (gmap string field)) :
  default ∅ vals ≠ ∅ →
  default ∅ (convertUints ver
               ((λ m : gmap string field, decimal <$> m) <$> vals)) ≠ ∅.
Proof.
  destruct vals as [g|]; [|done]. simpl. intros Hg.
  apply convertUints_non_empty. by rewrite fmap_empty_iff.
Qed.

Lemma delete_fields_non_empty (dels : list string) :
  dels ≠ [] →
  foldl (λ values del, <[del := FString EmptyString]> values)
        (∅ : gmap string field) dels ≠ ∅.
Proof.
  destruct dels as [|d dels]; [done|]. intros _. simpl.
  apply foldl_insert_non_empty, insert_non_empty.
Qed.

Lemma deleted_subscription_name (tags : option (gmap string string)) :
  default ∅ (delete "subscription-name"%string <$> tags)
    !! "subscription-name"%string = None.
Proof. destruct tags; simpl; [by rewrite lookup_delete_eq|done]. Qed.

Lemma worker_time now ts (o : bool) :
  now ≠ 0 → (if (ts =? 0) || o then now else ts) ≠ 0.
Proof.
  intros Hnow. destruct (ts =? 0) eqn:Ht; simpl; [done|].
  apply Z.eqb_neq in Ht. by destruct o.
Qed.

(** X22.  What the worker writes for one event: at most two points, none
    exactly when the event has no values and either no deletes or no
    delete tag is configured, and then the event is left as it is.  Every
    point written has a field; the points have the name and the time
    that the event is left with, the time is not zero when the clock is
    not, and no point has the tag [subscription-name], unless this is the
    delete tag. *)
Theorem influx_worker_points c ver now ev :
  let r := worker_event c ver now ev in
  (List.length r.2 ≤ 2)%nat
  ∧ (r.2 = [] ↔ default ∅ (Values ev) = ∅
                 ∧ (Deletes ev = [] ∨ DeleteTag c = EmptyString))
  ∧ (r.2 = [] → r.1 = ev)
  ∧ (r.2 ≠ [] → now ≠ 0 → Timestamp r.1 ≠ 0)
  ∧ Forall (λ p, pfields p ≠ ∅
                 ∧ measurement p = Name r.1 ∧ ptime p = Timestamp r.1
                 ∧ (DeleteTag c ≠ "subscription-name"%string →
                    ptags p !! "subscription-name"%string = None)) r.2.
Proof.
  unfold worker_event.
  assert (Hsize : bool_decide (size (default ∅ (Values ev)) = 0%nat)
                  = bool_decide (default ∅ (Values ev) = ∅)).
  { apply bool_decide_ext. apply map_size_empty_iff. }
  assert (Hlen : bool_decide (List.length (Deletes ev) = 0%nat)
                 = bool_decide (Deletes ev = [])).
  { apply bool_decide_ext. apply length_zero_iff_nil. }
  rewrite Hsize, Hlen. clear Hsize Hlen.
  pose proof (value_fields_non_empty ver (Values ev)) as Hvals.
  pose proof (delete_fields_non_empty (Deletes ev)) as Hdels.
  pose proof (deleted_subscription_name (Tags ev)) as Hgone.
  pose proof (worker_time now (Timestamp ev) (OverrideTimestamps c)) as Htime.
  destruct (String.eqb (DeleteTag c) EmptyString) eqn:Htag;
    [apply String.eqb_eq in Htag|apply String.eqb_neq in Htag];
    case_bool_decide as Hv; case_bool_decide as Hd; simpl;
    try (split; [lia|]; split; [by intuition|]; split; [done|];
         split; [done|]; by constructor);
    destruct (default ∅ (Tags ev) !! "subscription-name"%string)
      as [sub|] eqn:Hsub; simpl;
    (split; [lia|]); (split; [split; [done|intros [? [?|?]]; done]|]);
    (split; [done|]); (split; [by intros _|]);
    repeat (apply Forall_cons; split; [|try apply Forall_nil_2]); simpl;
    repeat split; try done; auto;
    intros Hne; rewrite lookup_insert_ne by done; done.
Qed.

(** X23.  [convertUints] does nothing unless the version of the database
    starts with [1.8]; then it leaves no unsigned value: one below
    [2 ^ 63] becomes the [int] of the same value, one from [2 ^ 63] on
    becomes negative, and every other value stays. *)
Theorem convertUints_wraps ver (g : gmap string field) :
  (Api.HasPrefix ver "1.8" = false → convertUints ver (Some g) = Some g)
  ∧ (Api.HasPrefix ver "1.8" = true →
     ∃ g', convertUints ver (Some g) = Some g'
       ∧ dom g' = dom g
       ∧ (∀ k n, g' !! k ≠ Some (FUint n))
       ∧ (∀ k n, g !! k = Some (FUint n) → 0 ≤ n < 2 ^ 64 →
                 g' !! k = Some (FInt (if bool_decide (n < 2 ^ 63)
                                       then n else n - 2 ^ 64)))
       ∧ (∀ k v, g !! k = Some v → (∀ n, v ≠ FUint n) → g' !! k = Some v)).
Proof.
  unfold convertUints. split; intros ->; simpl; [done|].
  eexists. split; [reflexivity|]. split; [by rewrite dom_fmap_L|].
  split; [|split].
  - intros k n. rewrite lookup_fmap. by destruct (g !! k) as [[]|].
  - intros k n Hk Hn. rewrite lookup_fmap, Hk. simpl. do 2 f_equal.
    unfold EventStrings.wrap. case_bool_decide.
    + rewrite Z.mod_small; lia.
    + replace (n + 2 ^ 63) with (n - 2 ^ 63 + 1 * 2 ^ 64) by lia.
      rewrite Z.mod_add by lia. rewrite Z.mod_small; lia.
  - intros k v Hk Hv. rewrite lookup_fmap, Hk. simpl. f_equal.
    destruct v; try done. by destruct (Hv n).
Qed.

(** X24.  [setDefaults] of the output: applying it twice is applying it once;
    after it the URL, the batch size and the flush timer are set and a
    health check, if any, is not more often than every 30 s.  A negative
    flush timer is kept, and [clientOpts] then asks the client for a
    flush interval of [2 ^ 63] ms or more; a flush timer below one
    millisecond gives the interval 0. *)
Theorem influx_setDefaults_spec c :
  setDefaults (setDefaults c) = setDefaults c
  ∧ URL (setDefaults c) ≠ EmptyString
  ∧ BatchSize (setDefaults c) ≠ 0
  ∧ FlushTimer (setDefaults c) ≠ 0
  ∧ (HealthCheckPeriod (setDefaults c) = 0
     ∨ minHealthCheckPeriod ≤ HealthCheckPeriod (setDefaults c))
  ∧ (CacheConfig c = true → CacheFlushTimer (setDefaults c) ≠ 0)
  ∧ (- 2 ^ 63 ≤ FlushTimer c ≤ - Millisecond →
     2 ^ 63 ≤ flush_interval (setDefaults c))
  ∧ (FlushTimer c ≠ 0 → - Millisecond < FlushTimer c < Millisecond →
     flush_interval (setDefaults c) = 0).
Proof.
  split.
  { unfold setDefaults. destruct c as [u b f h o cc cf dt]. simpl.
    f_equal.
    - destruct (String.eqb u EmptyString) eqn:Hu; simpl; [done|by rewrite Hu].
    - destruct (b =? 0) eqn:Hb; simpl; [done|by rewrite Hb].
    - destruct (f =? 0) eqn:Hf; simpl; [done|by rewrite Hf].
    - destruct (h =? 0) eqn:Hh; simpl; [by rewrite Hh|].
      destruct (h <? minHealthCheckPeriod) eqn:Hm; simpl; [done|].
      by rewrite Hh, Hm.
    - destruct cc; simpl; [|done].
      destruct (cf =? 0) eqn:Hcf; simpl; [done|by rewrite Hcf]. }
  unfold setDefaults, flush_interval. simpl.
  split. { by destruct (String.eqb (URL c) EmptyString) eqn:Hu;
             [|apply String.eqb_neq in Hu]. }
  split. { by destruct (BatchSize c =? 0) eqn:Hb; [|apply Z.eqb_neq in Hb]. }
  split. { by destruct (FlushTimer c =? 0) eqn:Hf; [|apply Z.eqb_neq in Hf]. }
  split.
  { destruct (HealthCheckPeriod c =? 0) eqn:Hh; simpl.
    - left. by apply Z.eqb_eq.
    - right. destruct (HealthCheckPeriod c <? minHealthCheckPeriod) eqn:Hm;
        [lia|]. by apply Z.ltb_ge in Hm. }
  split.
  { intros ->. simpl.
    by destruct (CacheFlushTimer c =? 0) eqn:Hcf; [|apply Z.eqb_neq in Hcf]. }
  unfold Millisecond. split.
  - intros [Hlo Hhi].
    destruct (FlushTimer c =? 0) eqn:Hf; [apply Z.eqb_eq in Hf; lia|].
    pose proof (Z.quot_rem' (FlushTimer c) 1000000) as Hq.
    pose proof (Z.rem_bound_pos_neg (FlushTimer c) 1000000) as Hr.
    set (q := FlushTimer c ÷ 1000000) in *.
    assert (Hqb : - 2 ^ 63 ≤ q ≤ -1) by lia.
    replace q with (q + 2 ^ 64 + (-1) * 2 ^ 64) by lia.
    rewrite Z.mod_add by lia. rewrite Z.mod_small; lia.
  - intros Hne [Hlo Hhi].
    destruct (FlushTimer c =? 0) eqn:Hf; [apply Z.eqb_eq in Hf; lia|].
    assert (Hq : FlushTimer c ÷ 1000000 = 0).
    { apply Z.quot_small_iff; lia. }
    by rewrite Hq.
Qed.

(** The worker on an example: an event of subscription [sub1] with a
    counter above the largest [int] and one deleted path gives, on a
    database of version 1.8, a point with the counter turned negative
    and a point for the delete, both named after the subscription. *)
Example influx_worker_example :
  (worker_event MoreExamples.influx_delete_tag "1.8.10" 42
     MoreExamples.ev_counter).2
  = [mkPoint "sub1" {[ "source" := "r1" ]}%string
       {[ "in-octets"%string := FInt (- 2 ^ 63 + 5) ]} 42;
     mkPoint "sub1" {[ "source" := "r1"; "deleted" := "true" ]}%string
       {[ "/interface/mtu"%string := FString EmptyString ]} 42].
Proof. by vm_compute. Qed.

End influx_facts.

(* ===================================================================== *)
(** * The NATS input *)
(* ===================================================================== *)

Section nats_facts.
Import NatsInput.
Local Open Scope Z_scope.

Lemma setDefaults_inr ToLower uuid c c' :
  setDefaults ToLower uuid c = inr c' →
  (ToLower (Format c') = "event"%string ∨ ToLower (Format c') = "proto"%string)
  ∧ Format c' = (if String.eqb (Format c) EmptyString
                 then defaultFormat else Format c)
  ∧ Name c' = (if String.eqb (Name c) EmptyString
               then "gnmic-" +:+ uuid else Name c)%string
  ∧ Queue c' = (if String.eqb (Queue c) EmptyString
                then Name c' else Queue c)
  ∧ ConnectTimeWait c' = (if ConnectTimeWait c <=? 0 then natsConnectWait
                          else ConnectTimeWait c)
  ∧ NumWorkers c' = (if NumWorkers c <=? 0 then defaultNumWorkers
                     else NumWorkers c)
  ∧ BufferSize c' = (if BufferSize c <=? 0 then defaultBufferSize
                     else BufferSize c).
Proof.
  intros H. unfold setDefaults in H. cbv zeta in H.
  set (format := if String.eqb (Format c) EmptyString
                 then defaultFormat else Format c) in *.
  destruct (String.eqb (ToLower format) "event") eqn:He;
    [apply String.eqb_eq in He|];
    (destruct (String.eqb (ToLower format) "proto") eqn:Hp;
     [apply String.eqb_eq in Hp|]); simpl in H; try done;
    injection H as <-; simpl; by auto 10.
Qed.

(** X25.  [setDefaults] compares the format in lower case and keeps it as it
    is written, and the worker compares it as it is written: with a
    configuration that [setDefaults] accepts, the worker handles the
    messages exactly when the format is written in lower case; written
    otherwise, every message is read from the subject and ignored. *)
Theorem nats_format_handled_iff ToLower uuid c c' :
  ToLower "event"%string = "event"%string →
  ToLower "proto"%string = "proto"%string →
  setDefaults ToLower uuid c = inr c' →
  (worker_format c' ≠ Ignored ↔ ToLower (Format c') = Format c')
  ∧ (worker_format c' = Ignored ↔ Format c' ≠ "event"%string
                                   ∧ Format c' ≠ "proto"%string).
Proof.
  intros Hev Hpr H. apply setDefaults_inr in H as (Hlow & Hf & _).
  unfold worker_format.
  destruct (String.eqb (Format c') "event") eqn:He;
    [apply String.eqb_eq in He|apply String.eqb_neq in He].
  { rewrite He. split; [by split|]. split; [done|]. by intros [? _]. }
  destruct (String.eqb (Format c') "proto") eqn:Hp;
    [apply String.eqb_eq in Hp|apply String.eqb_neq in Hp].
  { rewrite Hp. split; [by split|]. split; [done|]. by intros [_ ?]. }
  split; [|by split]. split; [done|].
  intros Hfix. rewrite Hfix in Hlow. by destruct Hlow.
Qed.

Lemma nats_format_handled_iff_witness :
  ∃ c', setDefaults MoreExamples.lower "u" MoreExamples.nats_Event = inr c'
        ∧ (worker_format c' ≠ Ignored
           ↔ MoreExamples.lower (Format c') = Format c')
        ∧ (worker_format c' = Ignored ↔ Format c' ≠ "event"%string
                                         ∧ Format c' ≠ "proto"%string).
Proof.
  eexists. split; [reflexivity|].
  apply (nats_format_handled_iff MoreExamples.lower "u"
           MoreExamples.nats_Event); reflexivity.
Defined.

Lemma append_non_empty (s1 s2 : string) :
  s2 ≠ EmptyString → (s1 +:+ s2)%string ≠ EmptyString.
Proof. destruct s1; [done|]. simpl. by intros _. Qed.

(** X26.  [Start] names the input before it calls [setDefaults]: the name
    ends in [-nats-sub], so the default of [setDefaults], made from a
    new UUID, is never taken, and a queue that is not configured gets
    the name of the input.  The workers are started for a configuration
    with at least one worker, a buffer and a positive time to wait. *)
Theorem nats_Start_name ToLower uuid name optName c c' :
  Start ToLower uuid name optName c = inr c' →
  Name c' = ((if String.eqb optName EmptyString then EmptyString
              else optName +:+ "-")
             +:+ (if String.eqb (Name c) EmptyString then name else Name c)
             +:+ "-nats-sub")%string
  ∧ (Queue c = EmptyString → Queue c' = Name c')
  ∧ Queue c' ≠ EmptyString
  ∧ (∀ uuid', Start ToLower uuid' name optName c = inr c')
  ∧ 1 ≤ NumWorkers c' ∧ 1 ≤ BufferSize c' ∧ 0 < ConnectTimeWait c'.
Proof.
  unfold Start. intros H.
  set (c1 := if String.eqb (Name c) EmptyString then set_Name c name else c)
    in *.
  assert (Hn1 : Name c1 = if String.eqb (Name c) EmptyString
                          then name else Name c).
  { unfold c1. by destruct (String.eqb (Name c) EmptyString). }
  assert (Hq1 : Queue c1 = Queue c).
  { unfold c1. by destruct (String.eqb (Name c) EmptyString). }
  assert (Hne : Name (setName c1 optName) ≠ EmptyString).
  { unfold setName. simpl. by apply append_non_empty, append_non_empty. }
  assert (Heqb : String.eqb (Name (setName c1 optName)) EmptyString = false).
  { by apply String.eqb_neq. }
  assert (Huuid : ∀ u, setDefaults ToLower u (setName c1 optName)
                       = setDefaults ToLower uuid (setName c1 optName)).
  { intros u. unfold setDefaults. by rewrite Heqb. }
  pose proof (setDefaults_inr _ _ _ _ H) as
    (_ & _ & HN & HQ & HW & HNW & HB).
  rewrite Heqb in HN.
  split. { rewrite HN. unfold setName. simpl. by rewrite Hn1. }
  split. { intros Hq. rewrite HQ. unfold setName. simpl.
           by rewrite Hq1, Hq. }
  split. { rewrite HQ. destruct (String.eqb (Queue _) EmptyString) eqn:Hq.
           - by rewrite HN.
           - by apply String.eqb_neq in Hq. }
  split. { intros u. by rewrite Huuid. }
  rewrite HNW, HB, HW. unfold defaultNumWorkers, defaultBufferSize,
    natsConnectWait, InfluxOutput.Second.
  repeat split.
  - destruct (NumWorkers _ <=? 0) eqn:E; [lia|]. apply Z.leb_gt in E. lia.
  - destruct (BufferSize _ <=? 0) eqn:E; [lia|]. apply Z.leb_gt in E. lia.
  - destruct (ConnectTimeWait _ <=? 0) eqn:E; [lia|]. by apply Z.leb_gt in E.
Qed.

Lemma nats_Start_name_witness :
  Start MoreExamples.lower "u" "in1" "gnmic1"
    (NatsInput.mkConfig EmptyString EmptyString EmptyString
       EmptyString 0 EmptyString 0 0)
  = inr (NatsInput.mkConfig "gnmic1-in1-nats-sub" defaultAddress
           defaultSubject "gnmic1-in1-nats-sub" natsConnectWait "event" 1 100)
  ∧ Name (NatsInput.mkConfig "gnmic1-in1-nats-sub" defaultAddress
            defaultSubject "gnmic1-in1-nats-sub" natsConnectWait "event"
            1 100)
    = ((if String.eqb "gnmic1" EmptyString then EmptyString
        else "gnmic1" +:+ "-")
       +:+ (if String.eqb EmptyString EmptyString then "in1" else EmptyString)
       +:+ "-nats-sub")%string.
Proof.
  split; [reflexivity|].
  apply (nats_Start_name MoreExamples.lower "u" "in1" "gnmic1"
           (NatsInput.mkConfig EmptyString EmptyString EmptyString
              EmptyString 0 EmptyString 0 0)).
  reflexivity.
Defined.

End nats_facts.
